(** * Mesh diagnostics: a shallow embedding of the C++ detectors

  The development follows the layout of the sources:

  - [IEEE]          the arithmetic of C++ [double] and [float]
                    (IEEE-754 binary64 / binary32, round to nearest even);
  - [NonManifold]   src/non_manifold_vertices_detector.cpp;
  - [Overlap]       src/overlapping_edges_detector.cpp;
  - [Quality]       src/face_quality_detector.cpp;
  - [Adjacent]      src/algorithms/adjacent_faces_detector.cpp;
  - [Pierced]       src/pierced_faces_detector.cpp and
                    src/pierced_faces_detector_utf8.cpp;
  - [FreeEdges]     src/free_edges_detector.cpp.

  Wall-clock timing, which every entry point returns next to its result,
  is not part of the model.  An unchecked read outside a buffer or a
  [std::vector] is undefined behaviour in the source; the model returns
  [None] there. *)

From Stdlib Require Import ZArith List Bool Lia.
From Stdlib Require Import Floats.SpecFloat Floats.PrimFloat Floats.FloatOps.
From stdpp Require Import gmap strings list sorting.

Set Warnings "-inexact-float,-register-all,-clear-no-such-hyp".
Set Warnings "-notation-for-abbreviation".
Local Open Scope Z_scope.

(** ** IEEE-754 arithmetic *)

Module IEEE.

(** A C++ [double]: binary64, [prec = 53], [emax = 1024]. *)
Definition double : Type := spec_float.

Definition dadd : double -> double -> double := SFadd 53 1024.
Definition dsub : double -> double -> double := SFsub 53 1024.
Definition dmul : double -> double -> double := SFmul 53 1024.
Definition ddiv : double -> double -> double := SFdiv 53 1024.
Definition dsqrt : double -> double := SFsqrt 53 1024.
Definition dabs : double -> double := SFabs.
Definition dlt : double -> double -> bool := SFltb.
Definition dle : double -> double -> bool := SFleb.
Definition deq : double -> double -> bool := SFeqb.

(** [std::min(a, b)] is [(b < a) ? b : a]; [std::max(a, b)] is
    [(a < b) ? b : a]. *)
Definition dmin (a b : double) : double := if dlt b a then b else a.
Definition dmax (a b : double) : double := if dlt a b then b else a.

(** A decimal literal of the source, rounded to the nearest binary64. *)
Definition lit (x : PrimFloat.float) : double := Prim2SF x.

(** [std::numeric_limits<double>::max()] and [lowest()]. *)
Definition DBL_MAX : double := S754_finite false (2 ^ 53 - 1) 971.
Definition DBL_LOWEST : double := S754_finite true (2 ^ 53 - 1) 971.

(** A C++ [float]: binary32, [prec = 24], [emax = 128]. *)
Definition float32 : Type := spec_float.

Definition fadd : float32 -> float32 -> float32 := SFadd 24 128.
Definition fsub : float32 -> float32 -> float32 := SFsub 24 128.
Definition fmul : float32 -> float32 -> float32 := SFmul 24 128.
Definition fdiv : float32 -> float32 -> float32 := SFdiv 24 128.
Definition fsqrt : float32 -> float32 := SFsqrt 24 128.
Definition flt : float32 -> float32 -> bool := SFltb.
Definition fle : float32 -> float32 -> bool := SFleb.
Definition fmin (a b : float32) : float32 := if flt b a then b else a.
Definition fmax (a b : float32) : float32 := if flt a b then b else a.

(** The integer [n] converted to [float] (exact for [|n| < 2^24]). *)
Definition f32_of_Z (n : Z) : float32 := binary_normalize 24 128 n 0 false.

(** A [float] read as a [double] is the same number; a [double] stored
    into a [float] is rounded to 24 bits. *)
Definition double_of_float (x : float32) : double := x.
Definition float_of_double (x : double) : float32 :=
  match x with
  | S754_finite s m e => binary_round 24 128 s m e
  | _ => x
  end.

Declare Scope f64_scope.
Delimit Scope f64_scope with D.
Infix "+" := dadd : f64_scope.
Infix "-" := dsub : f64_scope.
Infix "*" := dmul : f64_scope.
Infix "/" := ddiv : f64_scope.
Infix "<?" := dlt : f64_scope.
Infix "<=?" := dle : f64_scope.
Notation "x >=? y" := (dle y x) : f64_scope.
Notation "x >? y" := (dlt y x) : f64_scope.

Declare Scope f32_scope.
Delimit Scope f32_scope with F.
Infix "+" := fadd : f32_scope.
Infix "-" := fsub : f32_scope.
Infix "*" := fmul : f32_scope.
Infix "/" := fdiv : f32_scope.
Infix "<?" := flt : f32_scope.
Infix "<=?" := fle : f32_scope.

End IEEE.
Import IEEE.

(** Reading a [std::vector] or a buffer row at an [int] index. *)
Definition at_ {A : Type} (l : list A) (i : Z) : option A :=
  if bool_decide (0 <= i) then l !! Z.to_nat i else None.

(** A loop whose body may fail: the first failure aborts the run. *)
Fixpoint fold_opt {A S : Type} (f : S -> A -> option S) (l : list A) (s : S)
  : option S :=
  match l with
  | [] => Some s
  | x :: l' => match f s x with Some s' => fold_opt f l' s' | None => None end
  end.

(** The face table: [m] rows of three [int] vertex indices. *)
Definition Face : Type := Z * Z * Z.

(** The invariant of the data model: every vertex index of every face is
    a row of the vertex table, whatever the rows hold. *)
Definition valid_face (n : Z) (f : Face) : bool :=
  let '(a, b, c) := f in
  bool_decide (0 <= a < n) && bool_decide (0 <= b < n)
  && bool_decide (0 <= c < n).

Definition valid_mesh {R : Type} (faces : list Face) (vertices : list R)
  : bool :=
  forallb (valid_face (Z.of_nat (length vertices))) faces.

(** ** Non-manifold vertices *)

Module NonManifold.

Definition Edge : Type := Z * Z.

(** The three edges of a face, [i = 0, 1, 2], each as
    [Edge(min(v1, v2), max(v1, v2))]. *)
Definition face_edges (f : Face) : list Edge :=
  let '(a, b, c) := f in
  [ (Z.min a b, Z.max a b); (Z.min b c, Z.max b c); (Z.min c a, Z.max c a) ].

(** [edges[edge].push_back(face_idx)] *)
Definition push_face (face_idx : Z) (edges : gmap Edge (list Z)) (e : Edge)
  : gmap Edge (list Z) :=
  <[ e := default [] (edges !! e) ++ [face_idx] ]> edges.

(** Step 1: every edge with the faces on it. *)
Fixpoint collect_edges (face_idx : Z) (faces : list Face)
    (edges : gmap Edge (list Z)) : gmap Edge (list Z) :=
  match faces with
  | [] => edges
  | f :: rest =>
      collect_edges (face_idx + 1) rest
        (foldl (push_face face_idx) edges (face_edges f))
  end.

(** Step 2: the free edges, those with exactly one face. *)
Definition free_edges_of (edges : gmap Edge (list Z)) : gset Edge :=
  map_fold (fun e fs acc =>
              if bool_decide (length fs = 1%nat) then {[ e ]} ∪ acc else acc)
           ∅ edges.

(** [vertex_free_edge_count[v]++] *)
Definition incr (v : Z) (count : gmap Z Z) : gmap Z Z :=
  <[ v := default 0 (count !! v) + 1 ]> count.

(** Step 3: the number of free edges at every vertex. *)
Definition count_free_edges (free : gset Edge) : gmap Z Z :=
  set_fold (fun e count => incr (snd e) (incr (fst e) count)) ∅ free.

(** Step 4: the vertices on four or more free edges.  The source walks
    an [unordered_map], whose order is unspecified; the model walks the
    map in the order of its keys' encoding. *)
Definition detect_non_manifold_vertices_with_timing
    (vertices : list (double * double * double)) (faces : list Face)
    (tolerance : double) : list Z :=
  let edges := collect_edges 0 faces ∅ in
  let free_edges := free_edges_of edges in
  let vertex_free_edge_count := count_free_edges free_edges in
  map_fold (fun v n acc => if bool_decide (4 <= n) then acc ++ [v] else acc)
           [] vertex_free_edge_count.

End NonManifold.

(** ** Pierced faces: geometry and the separating-axis test

    Both pierced-face sources open with the same geometry; it is embedded
    once. *)

Module Pierced.

Definition EPSILON : double := Eval vm_compute in lit 1e-10.
Definition ALMOST_ZERO : double := Eval vm_compute in lit 1e-8.
Definition zero : double := S754_zero false.
Definition two : double := Eval vm_compute in lit 2.
Definition three : double := Eval vm_compute in lit 3.

Record Vector3d := Vec { x : double; y : double; z : double }.

Definition Zero : Vector3d := Vec zero zero zero.

Definition vadd (a b : Vector3d) : Vector3d :=
  Vec (a.(x) + b.(x))%D (a.(y) + b.(y))%D (a.(z) + b.(z))%D.

Definition vsub (a b : Vector3d) : Vector3d :=
  Vec (a.(x) - b.(x))%D (a.(y) - b.(y))%D (a.(z) - b.(z))%D.

(** [operator/]: a divisor below [ALMOST_ZERO] gives the zero vector. *)
Definition vdiv (a : Vector3d) (scalar : double) : Vector3d :=
  if (dabs scalar <? ALMOST_ZERO)%D then Zero
  else Vec (a.(x) / scalar)%D (a.(y) / scalar)%D (a.(z) / scalar)%D.

Definition dot (a b : Vector3d) : double :=
  (a.(x) * b.(x) + a.(y) * b.(y) + a.(z) * b.(z))%D.

Definition cross (a b : Vector3d) : Vector3d :=
  Vec (a.(y) * b.(z) - a.(z) * b.(y))%D
      (a.(z) * b.(x) - a.(x) * b.(z))%D
      (a.(x) * b.(y) - a.(y) * b.(x))%D.

Definition norm (a : Vector3d) : double :=
  dsqrt (a.(x) * a.(x) + a.(y) * a.(y) + a.(z) * a.(z))%D.

Definition normalized (a : Vector3d) : Vector3d :=
  let length := norm a in
  if (length <? ALMOST_ZERO)%D then Zero else vdiv a length.

(** [isZero(eps = ALMOST_ZERO)]: every component is below [eps] in
    absolute value. *)
Definition isZero (a : Vector3d) : bool :=
  (dabs a.(x) <? ALMOST_ZERO)%D && (dabs a.(y) <? ALMOST_ZERO)%D
  && (dabs a.(z) <? ALMOST_ZERO)%D.

Record Triangle := Tri { v0 : Vector3d; v1 : Vector3d; v2 : Vector3d }.

Definition vertices (t : Triangle) : list Vector3d := [t.(v0); t.(v1); t.(v2)].

Record AABB := Box { bmin : Vector3d; bmax : Vector3d }.

Definition intersects (a other : AABB) : bool :=
  (a.(bmin).(x) <=? other.(bmax).(x))%D && (a.(bmax).(x) >=? other.(bmin).(x))%D
  && (a.(bmin).(y) <=? other.(bmax).(y))%D && (a.(bmax).(y) >=? other.(bmin).(y))%D
  && (a.(bmin).(z) <=? other.(bmax).(z))%D && (a.(bmax).(z) >=? other.(bmin).(z))%D.

Definition get_normal (tri : Triangle) : Vector3d :=
  let e1 := vsub tri.(v1) tri.(v0) in
  let e2 := vsub tri.(v2) tri.(v0) in
  let normal := cross e1 e2 in
  let n := norm normal in
  if (n <? ALMOST_ZERO)%D then Zero else vdiv normal n.

Definition get_edges (tri : Triangle) : list Vector3d :=
  [ vsub tri.(v1) tri.(v0); vsub tri.(v2) tri.(v1); vsub tri.(v0) tri.(v2) ].

(** The projection interval [(min_proj, max_proj)] of a triangle on an
    axis. *)
Definition project_triangle (tri : Triangle) (axis : Vector3d)
  : double * double :=
  let p0 := dot axis tri.(v0) in
  foldl (fun '(min_proj, max_proj) v =>
           let proj := dot axis v in (dmin min_proj proj, dmax max_proj proj))
        (p0, p0) [tri.(v1); tri.(v2)].

Definition check_separation (tri1 tri2 : Triangle) (axis : Vector3d) : bool :=
  if isZero axis then false
  else
    let '(p1_min, p1_max) := project_triangle tri1 axis in
    let '(p2_min, p2_max) := project_triangle tri2 axis in
    (p1_max <? p2_min)%D || (p2_max <? p1_min)%D.

(** The two nested loops over the edges; [true] when some edge cross
    product separates, which is where the source returns [false]. *)
Definition edge_axis_separates (tri1 tri2 : Triangle) : bool :=
  existsb (fun e1 =>
    existsb (fun e2 =>
      let c := cross e1 e2 in
      negb (isZero c) && check_separation tri1 tri2 (normalized c))
      (get_edges tri2))
    (get_edges tri1).

Definition check_triangle_intersection (tri1 tri2 : Triangle) : bool :=
  let normal1 := get_normal tri1 in
  let normal2 := get_normal tri2 in
  if negb (isZero normal1) && check_separation tri1 tri2 normal1 then false
  else if negb (isZero normal2) && check_separation tri1 tri2 normal2 then false
  else if edge_axis_separates tri1 tri2 then false
  else true.

Definition compute_triangle_aabb (tri : Triangle) : AABB :=
  foldl (fun b v =>
           Box (Vec (dmin b.(bmin).(x) v.(x)) (dmin b.(bmin).(y) v.(y))
                    (dmin b.(bmin).(z) v.(z)))
               (Vec (dmax b.(bmax).(x) v.(x)) (dmax b.(bmax).(y) v.(y))
                    (dmax b.(bmax).(z) v.(z))))
        (Box tri.(v0) tri.(v0)) [tri.(v1); tri.(v2)].

(** The shared-vertex test of the detectors: some vertex of [tri1] is
    closer than [EPSILON] to some vertex of [tri2]. *)
Definition dist (a b : Vector3d) : double :=
  dsqrt ((a.(x) - b.(x)) * (a.(x) - b.(x))
         + (a.(y) - b.(y)) * (a.(y) - b.(y))
         + (a.(z) - b.(z)) * (a.(z) - b.(z)))%D.

Definition share_vertex (tri1 tri2 : Triangle) : bool :=
  existsb (fun a => existsb (fun b => (dist a b <? EPSILON)%D) (vertices tri2))
          (vertices tri1).


(** *** The octree *)

Inductive OctreeNode : Type :=
  Node (center : Vector3d) (size : double) (depth : Z)
       (face_indices : list Z) (children : list (option OctreeNode)).

Definition center (n : OctreeNode) : Vector3d :=
  match n with Node c _ _ _ _ => c end.
Definition size (n : OctreeNode) : double :=
  match n with Node _ s _ _ _ => s end.
Definition depth (n : OctreeNode) : Z :=
  match n with Node _ _ d _ _ => d end.
Definition face_indices (n : OctreeNode) : list Z :=
  match n with Node _ _ _ fi _ => fi end.
Definition children (n : OctreeNode) : list (option OctreeNode) :=
  match n with Node _ _ _ _ ch => ch end.

(** [child == nullptr] *)
Definition is_null (child : option OctreeNode) : bool :=
  match child with None => true | Some _ => false end.

Definition get_octant (center point : Vector3d) : Z :=
  Z.lor (Z.lor (if (point.(x) >=? center.(x))%D then 1 else 0)
               (if (point.(y) >=? center.(y))%D then 2 else 0))
        (if (point.(z) >=? center.(z))%D then 4 else 0).

(** The centre of child [i]: the parent's centre moved by [half_size]
    along each axis, up where bit [i & 1], [i & 2], [i & 4] is set and
    down where it is not. *)
Definition child_center (center : Vector3d) (half_size : double) (i : Z)
  : Vector3d :=
  let move (bit : Z) (c : double) : double :=
    if bool_decide (Z.land i bit <> 0) then (c + half_size)%D
    else (c - half_size)%D in
  Vec (move 1 center.(x)) (move 2 center.(y)) (move 4 center.(z)).

(** The centroid by which a face is put into an octant. *)
Definition tri_center (tri : Triangle) : Vector3d :=
  Vec ((tri.(v0).(x) + tri.(v1).(x) + tri.(v2).(x)) / three)%D
      ((tri.(v0).(y) + tri.(v1).(y) + tri.(v2).(y)) / three)%D
      ((tri.(v0).(z) + tri.(v1).(z) + tri.(v2).(z)) / three)%D.

(** [build_octree(triangles, face_indices, center, size, depth, max_depth,
    min_faces)].  The first argument is [max_depth - depth], the number of
    levels left: the test [depth >= max_depth] of the source is the case
    [levels = 0], and the recursive call with [depth + 1] has one level
    less. *)
Fixpoint build_octree (levels : nat) (triangles : list Triangle)
    (face_indices : list Z) (center : Vector3d) (size : double)
    (depth : Z) (min_faces : Z) : option OctreeNode :=
  let leaf := Node center size depth face_indices (replicate 8 None) in
  match levels with
  | O => Some leaf
  | S levels' =>
      if bool_decide (Z.of_nat (length face_indices) <= min_faces)
      then Some leaf
      else
        placed ← mapM (fun face_idx =>
                         tri ← at_ triangles face_idx;
                         Some (face_idx, get_octant center (tri_center tri)))
                      face_indices;
        let half_size := (size / two)%D in
        children ← mapM (fun i =>
            let child_faces :=
              (filter (fun p => snd p = i) placed).*1 in
            match child_faces with
            | [] => Some None
            | _ =>
                child ← build_octree levels' triangles child_faces
                          (child_center center half_size i) half_size
                          (depth + 1) min_faces;
                Some (Some child)
            end) (seqZ 0 8);
        Some (Node center size depth face_indices children)
  end.

(** *** Full detection *)

(** A row of the vertex table: three coordinates. *)
Definition Row : Type := double * double * double.

(** [vertices_buf(i, 0..2)] as a vector; the access is unchecked. *)
Definition vertex (vertices_buf : list Row) (i : Z) : option Vector3d :=
  '(a, b, c) ← at_ vertices_buf i; Some (Vec a b c).

Definition make_triangle (vertices_buf : list Row) (f : Face)
  : option Triangle :=
  let '(i0, i1, i2) := f in
  p0 ← vertex vertices_buf i0;
  p1 ← vertex vertices_buf i1;
  p2 ← vertex vertices_buf i2;
  Some (Tri p0 p1 p2).

(** The bounding box of all triangle vertices, started from
    [numeric_limits<double>::max()] and [lowest()]. *)
Definition bounds (triangles : list Triangle) : Vector3d * Vector3d :=
  foldl (fun acc tri =>
    foldl (fun '(min_point, max_point) v =>
             (Vec (dmin min_point.(x) v.(x)) (dmin min_point.(y) v.(y))
                  (dmin min_point.(z) v.(z)),
              Vec (dmax max_point.(x) v.(x)) (dmax max_point.(y) v.(y))
                  (dmax max_point.(z) v.(z))))
          acc (vertices tri))
    (Vec DBL_MAX DBL_MAX DBL_MAX, Vec DBL_LOWEST DBL_LOWEST DBL_LOWEST)
    triangles.

Definition grow : double := Eval vm_compute in lit 1.01.

(** The root cell: centre of the bounding box, and its largest extent
    times 1.01. *)
Definition root_cell (triangles : list Triangle) : Vector3d * double :=
  let '(min_point, max_point) := bounds triangles in
  (Vec ((min_point.(x) + max_point.(x)) / two)%D
       ((min_point.(y) + max_point.(y)) / two)%D
       ((min_point.(z) + max_point.(z)) / two)%D,
   (dmax (dmax (max_point.(x) - min_point.(x)) (max_point.(y) - min_point.(y)))
         (max_point.(z) - min_point.(z)) * grow)%D).

Definition build_root (triangles : list Triangle) (num_faces : Z)
  : option OctreeNode :=
  let '(center, size) := root_cell triangles in
  build_octree 8 triangles (seqZ 0 num_faces) center size 0 20.

(** The two accumulators of a detection run: [set<int>
    intersecting_faces] and [map<int, set<int>> intersection_map]. *)
Record Hits := MkHits {
  intersecting_faces : gset Z;
  intersection_map : gmap Z (gset Z)
}.

Definition no_hits : Hits := MkHits ∅ ∅.

(** What the source does when a pair intersects: both faces enter the
    set, both get a key in the map, and each is inserted at the other. *)
Definition record_hit (face_idx other_idx : Z) (h : Hits) : Hits :=
  let faces := {[ other_idx ]} ∪ ({[ face_idx ]} ∪ h.(intersecting_faces)) in
  let m := h.(intersection_map) in
  let m := match m !! face_idx with None => <[ face_idx := ∅ ]> m | _ => m end in
  let m := match m !! other_idx with None => <[ other_idx := ∅ ]> m | _ => m end in
  let m := <[ face_idx := {[ other_idx ]} ∪ default ∅ (m !! face_idx) ]> m in
  let m := <[ other_idx := {[ face_idx ]} ∪ default ∅ (m !! other_idx) ]> m in
  MkHits faces m.

(** The body of every pair loop: skip the face itself, prefilter by the
    boxes, then the shared-vertex test and the separating-axis test. *)
Definition test_pair (triangles : list Triangle) (bboxes : list AABB)
    (face_idx : Z) (tri1 : Triangle) (bbox1 : AABB)
    (h : Hits) (other_idx : Z) : option Hits :=
  if bool_decide (other_idx = face_idx) then Some h
  else
    bbox2 ← at_ bboxes other_idx;
    if intersects bbox1 bbox2 then
      tri2 ← at_ triangles other_idx;
      if negb (share_vertex tri1 tri2) && check_triangle_intersection tri1 tri2
      then Some (record_hit face_idx other_idx h)
      else Some h
    else Some h.

(** The box of child [i] as the query computes it. *)
Definition child_bbox (center : Vector3d) (half_size : double) (i : Z) : AABB :=
  let c := child_center center half_size i in
  Box (Vec (c.(x) - half_size)%D (c.(y) - half_size)%D (c.(z) - half_size)%D)
      (Vec (c.(x) + half_size)%D (c.(y) + half_size)%D (c.(z) + half_size)%D).

(** [query_octree(node, face_idx)]: at a leaf, test the face against
    every face of the leaf; elsewhere, descend into the children whose box
    meets the box of the face. *)
Fixpoint query_octree (triangles : list Triangle) (bboxes : list AABB)
    (node : OctreeNode) (face_idx : Z) (h : Hits) : option Hits :=
  match node with
  | Node center size _ face_indices children =>
      if forallb is_null children then
        tri1 ← at_ triangles face_idx;
        bbox1 ← at_ bboxes face_idx;
        fold_opt (test_pair triangles bboxes face_idx tri1 bbox1)
                 face_indices h
      else
        face_bbox ← at_ bboxes face_idx;
        let half_size := (size / two)%D in
        (fix visit (i : Z) (l : list (option OctreeNode)) (h : Hits)
           : option Hits :=
           match l with
           | [] => Some h
           | None :: l' => visit (i + 1) l' h
           | Some child :: l' =>
               if intersects face_bbox (child_bbox center half_size i) then
                 h' ← query_octree triangles bboxes child face_idx h;
                 visit (i + 1) l' h'
               else visit (i + 1) l' h
           end) 0 children h
  end.

(** The vectors handed back to the caller: the set in ascending order,
    and every set of the map in ascending order. *)
Definition ascending (s : gset Z) : list Z := merge_sort Z.le (elements s).

Definition to_result (h : Hits) : list Z * gmap Z (list Z) :=
  (ascending h.(intersecting_faces), ascending <$> h.(intersection_map)).

Definition detect_pierced_faces_with_timing
    (py_faces : list Face) (py_vertices : list Row)
  : option (list Z * gmap Z (list Z)) :=
  let num_faces := Z.of_nat (length py_faces) in
  triangles ← mapM (make_triangle py_vertices) py_faces;
  let face_bboxes := compute_triangle_aabb <$> triangles in
  octree ← build_root triangles num_faces;
  h ← fold_opt (fun h face_idx =>
                  query_octree triangles face_bboxes octree face_idx h)
               (seqZ 0 num_faces) no_hits;
  Some (to_result h).


(** *** The persistent index (pierced_faces_detector_utf8.cpp)

    The variables of [namespace global], threaded through the three entry
    points. *)

Record Global := MkGlobal {
  persistent_octree : option OctreeNode;
  persistent_triangles : list Triangle;
  persistent_bboxes : list AABB;
  is_initialized : bool;
  num_faces : Z;
  num_vertices : Z
}.

Definition uninitialized : Global := MkGlobal None [] [] false 0 0.

Definition initialize_spatial_index
    (py_faces : list Face) (py_vertices : list Row) (g : Global)
  : option Global :=
  let num_faces := Z.of_nat (length py_faces) in
  let num_vertices := Z.of_nat (length py_vertices) in
  triangles ← mapM (make_triangle py_vertices) py_faces;
  let bboxes := compute_triangle_aabb <$> triangles in
  octree ← build_root triangles num_faces;
  Some (MkGlobal (Some octree) triangles bboxes true num_faces num_vertices).

(** A [size_t] converted to [double]. *)
Definition double_of_Z (n : Z) : double := binary_normalize 53 1024 n 0 false.

Definition tenth : double := Eval vm_compute in lit 0.1.

(** One round of the update loop: an index outside [[0, num_faces)] is
    reported and skipped, any other face has its triangle and its box
    recomputed in place. *)
Definition update_face (py_faces : list Face) (py_vertices : list Row)
    (num_faces : Z) (tb : list Triangle * list AABB) (face_idx : Z)
  : option (list Triangle * list AABB) :=
  if bool_decide (face_idx < 0 \/ face_idx >= num_faces) then Some tb
  else
    f ← at_ py_faces face_idx;
    tri ← make_triangle py_vertices f;
    Some (<[ Z.to_nat face_idx := tri ]> tb.1,
          <[ Z.to_nat face_idx := compute_triangle_aabb tri ]> tb.2).

Definition update_spatial_index
    (py_faces : list Face) (py_vertices : list Row)
    (py_modified_faces : list Z) (g : Global) : option Global :=
  if negb g.(is_initialized) then
    initialize_spatial_index py_faces py_vertices g
  else
    let num_modified := Z.of_nat (length py_modified_faces) in
    if bool_decide (g.(num_faces) <> Z.of_nat (length py_faces)
                    \/ g.(num_vertices) <> Z.of_nat (length py_vertices))
    then initialize_spatial_index py_faces py_vertices g
    else
      '(triangles, bboxes) ←
        fold_opt (update_face py_faces py_vertices g.(num_faces))
                 py_modified_faces
                 (g.(persistent_triangles), g.(persistent_bboxes));
      if (double_of_Z num_modified >? double_of_Z g.(num_faces) * tenth)%D then
        octree ← build_root triangles g.(num_faces);
        Some (MkGlobal (Some octree) triangles bboxes true
                       g.(num_faces) g.(num_vertices))
      else
        Some (MkGlobal g.(persistent_octree) triangles bboxes true
                       g.(num_faces) g.(num_vertices)).

(** [find_potential_intersections(node)] of the local detection: the
    box of a node is taken as [center ± size/2]; a leaf whose box meets the
    box of the face gives all its faces as candidates. *)
Fixpoint find_potential_intersections (face_bbox : AABB) (node : OctreeNode)
    (candidate_faces : gset Z) : gset Z :=
  match node with
  | Node center size _ face_indices children =>
      let r := (size / two)%D in
      let node_bbox :=
        Box (Vec (center.(x) - r)%D (center.(y) - r)%D (center.(z) - r)%D)
            (Vec (center.(x) + r)%D (center.(y) + r)%D (center.(z) + r)%D) in
      if negb (intersects face_bbox node_bbox) then candidate_faces
      else if forallb is_null children then
        list_to_set face_indices ∪ candidate_faces
      else
        (fix visit (l : list (option OctreeNode)) (c : gset Z) : gset Z :=
           match l with
           | [] => c
           | None :: l' => visit l' c
           | Some child :: l' =>
               visit l' (find_potential_intersections face_bbox child c)
           end) children candidate_faces
  end.

(** The first loop of the local detection.  Every target is inserted as
    a candidate before its index is checked. *)
Definition add_candidates (g : Global) (candidate_faces : gset Z)
    (face_idx : Z) : option (gset Z) :=
  let candidate_faces := {[ face_idx ]} ∪ candidate_faces in
  if bool_decide (face_idx < 0 \/ face_idx >= g.(num_faces))
  then Some candidate_faces
  else
    face_bbox ← at_ g.(persistent_bboxes) face_idx;
    match g.(persistent_octree) with
    | None => Some candidate_faces
    | Some root =>
        Some (find_potential_intersections face_bbox root candidate_faces)
    end.

(** The second loop: a candidate that is a target is tested against all
    candidates, any other candidate against all targets. *)
Definition test_candidate (g : Global) (py_target_faces : list Z)
    (candidates : list Z) (h : Hits) (face_idx : Z) : option Hits :=
  tri1 ← at_ g.(persistent_triangles) face_idx;
  bbox1 ← at_ g.(persistent_bboxes) face_idx;
  fold_opt (test_pair g.(persistent_triangles) g.(persistent_bboxes)
                      face_idx tri1 bbox1)
           (if bool_decide (face_idx ∈ py_target_faces)
            then candidates else py_target_faces)
           h.

(** The walk over [unordered_set<int> candidate_faces] has no specified
    order; the model takes the elements in ascending order. *)
Definition detect_pierced_faces_local
    (py_faces : list Face) (py_vertices : list Row)
    (py_target_faces : list Z) (g : Global)
  : option (Global * (list Z * gmap Z (list Z))) :=
  g ← (if negb g.(is_initialized)
       then initialize_spatial_index py_faces py_vertices g else Some g);
  candidate_faces ← fold_opt (add_candidates g) py_target_faces ∅;
  let candidates := ascending candidate_faces in
  h ← fold_opt (test_candidate g py_target_faces candidates)
               candidates no_hits;
  Some (g, to_result h).


(** *** Notions used to state the properties of the detectors *)

(** The triangle [T(f)] of face [f]. *)
Definition triangle_of (py_faces : list Face) (py_vertices : list Row)
    (f : Z) : option Triangle :=
  face ← at_ py_faces f; make_triangle py_vertices face.

(** [map[f]], empty where [f] is not a key. *)
Definition neighbours (m : gmap Z (list Z)) (f : Z) : list Z :=
  default [] (m !! f).

(** The pair test passes on face [f] against face [g]: two different
    faces whose boxes meet, whose triangles share no vertex and which the
    separating-axis test does not separate. *)
Definition pair_hit (triangles : list Triangle) (bboxes : list AABB)
    (f g : Z) : Prop :=
  f <> g
  /\ exists t1 t2 b1 b2,
       at_ triangles f = Some t1 /\ at_ triangles g = Some t2
       /\ at_ bboxes f = Some b1 /\ at_ bboxes g = Some b2
       /\ intersects b1 b2 = true
       /\ share_vertex t1 t2 = false
       /\ check_triangle_intersection t1 t2 = true.

(** The accumulators a run can reach: it starts empty, and a hit is
    recorded only for a pair on which the pair test passes. *)
Inductive recorded (triangles : list Triangle) (bboxes : list AABB)
  : Hits -> Prop :=
| recorded_none : recorded triangles bboxes no_hits
| recorded_hit f g h :
    recorded triangles bboxes h ->
    pair_hit triangles bboxes f g ->
    recorded triangles bboxes (record_hit f g h).

(** Every face index stored in the tree is below [m]. *)
Inductive well_indexed (m : Z) : OctreeNode -> Prop :=
| well_indexed_node c s d fi ch :
    Forall (fun i => 0 <= i < m) fi ->
    Forall (fun o => forall n, o = Some n -> well_indexed m n) ch ->
    well_indexed m (Node c s d fi ch).


(** The persistent index holds the triangles [triangles]: the vectors
    are those of a build or of complete updates, and the tree stores face
    indices of the mesh only. *)
Record index_of (triangles : list Triangle) (g : Global) : Prop := {
  index_triangles : g.(persistent_triangles) = triangles;
  index_bboxes : g.(persistent_bboxes) = compute_triangle_aabb <$> triangles;
  index_initialized : g.(is_initialized) = true;
  index_num_faces : g.(num_faces) = Z.of_nat (length triangles);
  index_octree :
    forall root, g.(persistent_octree) = Some root ->
                 well_indexed (Z.of_nat (length triangles)) root
}.

(** The set stored at a key of [intersection_map], empty where there is
    no key. *)
Definition nb (m : gmap Z (gset Z)) (f : Z) : gset Z := default ∅ (m !! f).

(** *** The separating-axis test, as the specification words it *)

(** The projection intervals of the two triangles are disjoint on the
    axis: [aMax < bMin] or [bMax < aMin]. *)
Definition separated_on (tri1 tri2 : Triangle) (axis : Vector3d) : bool :=
  let '(aMin, aMax) := project_triangle tri1 axis in
  let '(bMin, bMax) := project_triangle tri2 axis in
  (aMax <? bMin)%D || (bMax <? aMin)%D.

(** The cross product of which [get_normal] takes the direction. *)
Definition raw_normal (tri : Triangle) : Vector3d :=
  cross (vsub tri.(v1) tri.(v0)) (vsub tri.(v2) tri.(v0)).

(** The nine cross products [ea × eb]. *)
Definition edge_crosses (tri1 tri2 : Triangle) : list Vector3d :=
  e1 ← get_edges tri1; e2 ← get_edges tri2; [cross e1 e2].

(** The specification: the axes are the normal of A, the normal of B and
    the nine edge cross products; an axis whose norm is below 1e-8 is
    ignored; the pair is separated when the intervals are disjoint on some
    axis that is left. *)
Definition spec_separated (tri1 tri2 : Triangle) : bool :=
  existsb (fun a => negb (norm a <? ALMOST_ZERO)%D
                    && separated_on tri1 tri2 (normalized a))
          (raw_normal tri1 :: raw_normal tri2 :: edge_crosses tri1 tri2).

(** The axes the source does test: the two normals as [get_normal] gives
    them and the normalized edge cross products, where a cross product is
    dropped when [isZero] holds of it, and any axis is dropped when
    [isZero] holds of the unit vector. *)
Definition tested_axes (tri1 tri2 : Triangle) : list Vector3d :=
  filter (fun a => isZero a = false)
    ([get_normal tri1; get_normal tri2]
     ++ (normalized <$> filter (fun c => isZero c = false)
                               (edge_crosses tri1 tri2))).

End Pierced.

(** ** Face quality *)

Module Quality.

(** A row of the vertex table, here of [float]. *)
Definition Row32 : Type := float32 * float32 * float32.

Definition f0 : float32 := S754_zero false.
Definition f1 : float32 := Eval vm_compute in f32_of_Z 1.
Definition f2 : float32 := Eval vm_compute in f32_of_Z 2.
Definition f4 : float32 := Eval vm_compute in f32_of_Z 4.

(** The literal [k/10] as a [float]: both [k] and [10] are exact and the
    division rounds once, to the [float] nearest to the decimal. *)
Definition tenths (k : Z) : float32 := (f32_of_Z k / f32_of_Z 10)%F.

(** [1e-10f]: [10^10] is [9765625 * 2^10], exact in 24 bits. *)
Definition tiny : float32 :=
  Eval vm_compute in (f32_of_Z 1 / f32_of_Z (10 ^ 10))%F.

(** [std::pow(x, 2)] on a [float] is computed in [double], where the
    square of a [float] is exact. *)
Definition pow2 (x : float32) : double :=
  (double_of_float x * double_of_float x)%D.

(** The length of the edge from [p] to [q]: differences in [float], squares,
    sum and root in [double], the result stored into a [float]. *)
Definition edge_length (p q : Row32) : float32 :=
  let '(px, py, pz) := p in
  let '(qx, qy, qz) := q in
  float_of_double
    (dsqrt (pow2 (px - qx)%F + pow2 (py - qy)%F + pow2 (pz - qz)%F)%D).

Definition calculate_face_quality (vertices : Row32 * Row32 * Row32)
  : float32 :=
  let '(v1, v2, v3) := vertices in
  let a := edge_length v2 v3 in
  let b := edge_length v1 v3 in
  let c := edge_length v1 v2 in
  let s := ((a + b + c) / f2)%F in
  let area := fsqrt (fmax f0 (s * (s - a) * (s - b) * (s - c))%F) in
  if (area <? tiny)%F then f0
  else
    let r := (area / s)%F in
    let R := ((a * b * c) / (f4 * area))%F in
    fmin f1 (fmax f0 (f2 * (r / R))%F).

(** The if-else chain over the thresholds [0.1f] to [0.9f]. *)
Definition bin_label (quality : float32) : string :=
  if (quality <? tenths 1)%F then "0.0-0.1"
  else if (quality <? tenths 2)%F then "0.1-0.2"
  else if (quality <? tenths 3)%F then "0.2-0.3"
  else if (quality <? tenths 4)%F then "0.3-0.4"
  else if (quality <? tenths 5)%F then "0.4-0.5"
  else if (quality <? tenths 6)%F then "0.5-0.6"
  else if (quality <? tenths 7)%F then "0.6-0.7"
  else if (quality <? tenths 8)%F then "0.7-0.8"
  else if (quality <? tenths 9)%F then "0.8-0.9"
  else "0.9-1.0".

Definition labels : list string :=
  [ "0.0-0.1"; "0.1-0.2"; "0.2-0.3"; "0.3-0.4"; "0.4-0.5";
    "0.5-0.6"; "0.6-0.7"; "0.7-0.8"; "0.8-0.9"; "0.9-1.0" ].

(** [quality_distribution[label] = 0] for the ten labels. *)
Definition empty_distribution : gmap string Z :=
  foldr (fun l m => <[ l := 0 ]> m) ∅ labels.

(** [quality_distribution[label] += 1] *)
Definition bump (label : string) (m : gmap string Z) : gmap string Z :=
  <[ label := default 0 (m !! label) + 1 ]> m.

(** What the loop over the faces carries. *)
Record Loop := MkLoop {
  low_quality : list Z;
  quality_values : list float32;
  distribution : gmap string Z
}.

Definition analyze_face (vertices_buffer : list Row32) (threshold : float32)
    (st : Loop) (i : Z) (f : Face) : option Loop :=
  let '(v1_idx, v2_idx, v3_idx) := f in
  p1 ← at_ vertices_buffer v1_idx;
  p2 ← at_ vertices_buffer v2_idx;
  p3 ← at_ vertices_buffer v3_idx;
  let quality := calculate_face_quality (p1, p2, p3) in
  Some (MkLoop
          (if (quality <? threshold)%F then st.(low_quality) ++ [i]
           else st.(low_quality))
          (st.(quality_values) ++ [quality])
          (bump (bin_label quality) st.(distribution))).

Fixpoint analyze_faces (vertices_buffer : list Row32) (threshold : float32)
    (i : Z) (faces : list Face) (st : Loop) : option Loop :=
  match faces with
  | [] => Some st
  | f :: rest =>
      st' ← analyze_face vertices_buffer threshold st i f;
      analyze_faces vertices_buffer threshold (i + 1) rest st'
  end.

(** [*std::min_element] and [*std::max_element] of a vector that is not
    empty. *)
Definition min_element (first : float32) (rest : list float32) : float32 :=
  foldl (fun smallest q => if (q <? smallest)%F then q else smallest)
        first rest.
Definition max_element (first : float32) (rest : list float32) : float32 :=
  foldl (fun largest q => if (largest <? q)%F then q else largest)
        first rest.

Record Stats := MkStats {
  total_faces : Z;
  low_quality_faces : list Z;
  min_quality : float32;
  max_quality : float32;
  avg_quality : float32;
  quality_distribution : gmap string Z
}.

Definition statistics (num_faces : Z) (st : Loop) : Stats :=
  let '(min_q, max_q, avg_q) :=
    match st.(quality_values) with
    | [] => (f1, f0, f0)
    | q :: rest =>
        let sum := foldl fadd f0 (q :: rest) in
        (min_element q rest, max_element q rest,
         (sum / f32_of_Z (Z.of_nat (length (q :: rest))))%F)
    end in
  MkStats num_faces st.(low_quality) min_q max_q avg_q st.(distribution).

Definition analyze_face_quality_with_timing
    (vertices_array : list Row32) (faces_array : list Face)
    (threshold : float32) : option (list Z * Stats) :=
  let num_faces := Z.of_nat (length faces_array) in
  st ← analyze_faces vertices_array threshold 0 faces_array
         (MkLoop [] [] empty_distribution);
  Some (st.(low_quality), statistics num_faces st).

(** *** Notions used to state the properties *)

(** [0 <= q <= 1] *)
Definition in_unit (q : float32) : bool := (f0 <=? q)%F && (q <=? f1)%F.

(** The sum of the ten counts. *)
Definition histogram_total (m : gmap string Z) : Z :=
  foldr (fun l acc => default 0 (m !! l) + acc) 0 labels.

(** The quality as the specification gives it from the side lengths:
    [s = (a+b+c)/2], [A = sqrt(max(0, s(s-a)(s-b)(s-c)))], 0 when
    [A < 1e-10], else [2 r / R] with [r = A/s] and [R = abc/(4A)], brought
    into [[0, 1]]: 1 from 1 upwards, 0 when not above 0. *)
Definition clamp01 (q : float32) : float32 :=
  if (f0 <? q)%F then (if (q <? f1)%F then q else f1) else f0.

Definition spec_quality (a b c : float32) : float32 :=
  let s := ((a + b + c) / f2)%F in
  let A := fsqrt (fmax f0 (s * (s - a) * (s - b) * (s - c))%F) in
  if (A <? tiny)%F then f0
  else
    let r := (A / s)%F in
    let R := ((a * b * c) / (f4 * A))%F in
    clamp01 (f2 * (r / R))%F.

#[global] Arguments calculate_face_quality : simpl never.
#[global] Arguments bin_label : simpl never.
#[global] Arguments bump : simpl never.

End Quality.

(** ** Adjacent faces *)

Module Adjacent.
Import Pierced.

(** [adjacent_faces_detector.cpp] has its own [Vector3d], with the same
    [norm], [operator+] and [operator-] as the pierced-face sources and a
    division that tests [s == 0]. *)
Definition vdiv0 (a : Vector3d) (s : double) : Vector3d :=
  if deq s zero then Zero
  else Vec (a.(x) / s)%D (a.(y) / s)%D (a.(z) / s)%D.

Definition centroid (t : Triangle) : Vector3d :=
  vdiv0 (vadd (vadd t.(v0) t.(v1)) t.(v2)) three.

Definition average_edge_length (t : Triangle) : double :=
  let e1 := norm (vsub t.(v1) t.(v0)) in
  let e2 := norm (vsub t.(v2) t.(v1)) in
  let e3 := norm (vsub t.(v0) t.(v2)) in
  ((e1 + e2 + e3) / three)%D.

(** [1e-10] *)
Definition eps : double := Eval vm_compute in lit 1e-10.

(** The vertex table has [float] rows; [vertices[i]] holds them as
    [double]. *)
Definition promote (r : Quality.Row32) : Vector3d :=
  let '(a, b, c) := r in
  Vec (double_of_float a) (double_of_float b) (double_of_float c).

(** The triangle of a face, or nothing when one of its indices is
    outside the vertex table: the face is then reported and skipped. *)
Definition face_triangle (vertices : list Vector3d) (f : Face)
  : option Triangle :=
  let '(idx1, idx2, idx3) := f in
  let num_vertices := Z.of_nat (length vertices) in
  if bool_decide (idx1 < 0 \/ idx1 >= num_vertices
                  \/ idx2 < 0 \/ idx2 >= num_vertices
                  \/ idx3 < 0 \/ idx3 >= num_vertices)
  then None
  else
    p1 ← at_ vertices idx1;
    p2 ← at_ vertices idx2;
    p3 ← at_ vertices idx3;
    Some (Tri p1 p2 p3).

(** The test on one pair, from the computation of [centroid_dist] to the
    two places where the pair is pushed. *)
Definition is_adjacent (current_tri other_tri : Triangle)
    (proximity_threshold : double) : bool :=
  let avg_edge_len1 := average_edge_length current_tri in
  let centroid1 := centroid current_tri in
  let avg_edge_len2 := average_edge_length other_tri in
  let centroid2 := centroid other_tri in
  let centroid_dist := norm (vsub centroid1 centroid2) in
  let min_avg_edge_len := dmin avg_edge_len1 avg_edge_len2 in
  if (min_avg_edge_len <? eps)%D then (centroid_dist <? eps)%D
  else
    let proximity := (centroid_dist / min_avg_edge_len)%D in
    (proximity <=? proximity_threshold)%D.

(** The inner loop, [j] running over the faces after face [i]. *)
Fixpoint inner_loop (vertices : list Vector3d) (proximity_threshold : double)
    (i : Z) (current_tri : Triangle) (j : Z) (faces : list Face)
    (adjacent_pairs : list (Z * Z)) : list (Z * Z) :=
  match faces with
  | [] => adjacent_pairs
  | f :: rest =>
      inner_loop vertices proximity_threshold i current_tri (j + 1) rest
        match face_triangle vertices f with
        | None => adjacent_pairs
        | Some other_tri =>
            if is_adjacent current_tri other_tri proximity_threshold
            then adjacent_pairs ++ [(i, j)]
            else adjacent_pairs
        end
  end.

(** The outer loop, [i] running over all faces. *)
Fixpoint outer_loop (vertices : list Vector3d) (proximity_threshold : double)
    (i : Z) (faces : list Face) (adjacent_pairs : list (Z * Z))
  : list (Z * Z) :=
  match faces with
  | [] => adjacent_pairs
  | f :: rest =>
      outer_loop vertices proximity_threshold (i + 1) rest
        match face_triangle vertices f with
        | None => adjacent_pairs
        | Some current_tri =>
            inner_loop vertices proximity_threshold i current_tri (i + 1)
                       rest adjacent_pairs
        end
  end.

Definition detect_adjacent_faces (vertices_array : list Quality.Row32)
    (faces_array : list Face) (proximity_threshold : double)
  : list (Z * Z) :=
  outer_loop (promote <$> vertices_array) proximity_threshold 0
             faces_array [].

(** *** The rule of the specification *)

(** With [L] the smaller average edge length and [d] the distance of the
    centroids: adjacent when both are below 1e-10, else skipped when
    [L < 1e-10], else adjacent exactly when [d / L <= threshold]. *)
Definition three_branch_rule (L d threshold : double) : bool :=
  if (L <? eps)%D && (d <? eps)%D then true
  else if (L <? eps)%D then false
  else (d / L <=? threshold)%D.

#[global] Arguments is_adjacent : simpl never.
#[global] Arguments face_triangle : simpl never.

End Adjacent.

(** ** Overlapping edges *)

Module Overlap.

Record EdgeKey := MkKey {
  x1 : double; y1 : double; z1 : double;
  x2 : double; y2 : double; z2 : double
}.

(** The constructor sorts the two endpoints coordinate by coordinate. *)
Definition make_key (x1_ y1_ z1_ x2_ y2_ z2_ : double) : EdgeKey :=
  MkKey (dmin x1_ x2_) (dmin y1_ y2_) (dmin z1_ z2_)
        (dmax x1_ x2_) (dmax y1_ y2_) (dmax z1_ z2_).

(** [1e-5] *)
Definition tol5 : double := Eval vm_compute in lit 1e-5.

(** [operator==] *)
Definition key_eq (k other : EdgeKey) : bool :=
  (dabs (k.(x1) - other.(x1)) <? tol5)%D
  && (dabs (k.(y1) - other.(y1)) <? tol5)%D
  && (dabs (k.(z1) - other.(z1)) <? tol5)%D
  && (dabs (k.(x2) - other.(x2)) <? tol5)%D
  && (dabs (k.(y2) - other.(y2)) <? tol5)%D
  && (dabs (k.(z2) - other.(z2)) <? tol5)%D.

(** [std::llround]: to the nearest integer, halves away from zero.  The
    value for an infinity, a NaN or a number outside [long long] is left
    open by the language; the model takes [LLONG_MIN], as x86-64 does. *)
Definition LLONG_MIN : Z := - 2 ^ 63.
Definition llround (a : double) : Z :=
  match a with
  | S754_zero _ => 0
  | S754_finite s m e =>
      let magnitude :=
        if bool_decide (0 <= e) then Z.pos m * 2 ^ e
        else
          let d := 2 ^ (- e) in
          let q := Z.pos m / d in
          if bool_decide (d <= 2 * (Z.pos m mod d)) then q + 1 else q in
      let r := if s then - magnitude else magnitude in
      if bool_decide (- 2 ^ 63 <= r < 2 ^ 63) then r else LLONG_MIN
  | _ => LLONG_MIN
  end.

(** [std::pow(10, 5)] *)
Definition scale : double := Eval vm_compute in lit 100000.

(** [std::hash<EdgeKey>]: the six coordinates rounded to five decimals,
    each hashed as a [long long] (the identity, as a [size_t]) and
    combined with shifts and exclusive or, in 64 bits. *)
Definition size_t (n : Z) : Z := n mod 2 ^ 64.
Definition hash (k : EdgeKey) : Z :=
  let h (c : double) : Z := size_t (llround (c * scale)%D) in
  let h1 := h k.(x1) in let h2 := h k.(y1) in let h3 := h k.(z1) in
  let h4 := h k.(x2) in let h5 := h k.(y2) in let h6 := h k.(z2) in
  Z.lxor h1 (Z.lxor (size_t (Z.shiftl h2 1))
            (Z.lxor (size_t (Z.shiftl h3 2))
            (Z.lxor (size_t (Z.shiftl h4 3))
            (Z.lxor (size_t (Z.shiftl h5 4)) (size_t (Z.shiftl h6 5)))))).

(** [unordered_map<EdgeKey, vector<pair<int, int>>>].  The entries are
    kept here in the order in which they were created; an entry, once
    created, keeps its key and only grows at the back.

    The container links its entries in one chain.  A walk over the map
    follows the chain.  A lookup follows the part of the chain that holds
    the bucket of the key and takes the first entry whose stored hash
    code is that of the key and whose key compares equal to it; entries
    with the hash code of the key all lie in that bucket, so this is the
    first entry of the chain that the key finds.  Where in the chain a
    new entry goes, and how a rehash reorders the chain, is the
    library's and not the program's: the model takes the order of the
    chain as a parameter, a function from the keys of the entries, in
    order of creation, to the positions of the entries in chain order. *)
Notation EdgeMap := (list (EdgeKey * list (Z * Z))).

Definition Chain : Type := list EdgeKey -> list nat.

(** The key finds the entry: the hash codes are the same and
    [operator==] holds of the key and the stored key, in this order. *)
Definition finds (key : EdgeKey) (entry : EdgeKey * list (Z * Z)) : bool :=
  bool_decide (hash key = hash entry.1) && key_eq key entry.1.

(** The first of the positions whose entry the key finds. *)
Fixpoint scan (edge_map : EdgeMap) (key : EdgeKey) (positions : list nat)
  : option nat :=
  match positions with
  | [] => None
  | n :: rest =>
      match edge_map !! n with
      | Some entry =>
          if finds key entry then Some n else scan edge_map key rest
      | None => scan edge_map key rest
      end
  end.

(** The position of the entry a lookup of the key returns, if any. *)
Definition slot_of (chain : Chain) (edge_map : EdgeMap) (key : EdgeKey)
  : option nat :=
  scan edge_map key (chain edge_map.*1).

(** [edge_map[key].push_back({a, b})]: the pair goes to the entry the
    lookup returns, or to a new entry under the key. *)
Definition push_back (chain : Chain) (edge_map : EdgeMap) (key : EdgeKey)
    (ab : Z * Z) : EdgeMap :=
  match slot_of chain edge_map key with
  | Some n => alter (fun entry => (entry.1, entry.2 ++ [ab])) n edge_map
  | None => edge_map ++ [(key, [ab])]
  end.

(** The edges of a face, in the order [(v1, v2)], [(v2, v3)],
    [(v3, v1)]. *)
Definition face_edges (f : Face) : list (Z * Z) :=
  let '(v1_idx, v2_idx, v3_idx) := f in
  [ (v1_idx, v2_idx); (v2_idx, v3_idx); (v3_idx, v1_idx) ].

(** All face-edge incidences, faces in index order. *)
Definition incidences (faces : list Face) : list (Z * Z) :=
  f ← faces; face_edges f.

(** The key of an edge [(a, b)], read from [vertices_ptr[a * 3 ..]] and
    [vertices_ptr[b * 3 ..]]; the reads are unchecked. *)
Definition keyed (vertices : list Pierced.Row) (ab : Z * Z)
  : option (EdgeKey * (Z * Z)) :=
  '(ax, ay, az) ← at_ vertices ab.1;
  '(bx, b_y, bz) ← at_ vertices ab.2;
  Some (make_key ax ay az bx b_y bz, ab).

Definition collect (chain : Chain) (edge_map : EdgeMap)
    (keyed_edges : list (EdgeKey * (Z * Z))) : EdgeMap :=
  foldl (fun m '(key, ab) => push_back chain m key ab) edge_map keyed_edges.

(** An entry with more than two incidences gives its first pair. *)
Definition representative (entry : EdgeKey * list (Z * Z)) : option (Z * Z) :=
  if bool_decide (2 < length entry.2)%nat then head entry.2 else None.

(** [for (const auto& pair : edge_map)]: the entries in chain order. *)
Definition walk (chain : Chain) (edge_map : EdgeMap)
  : list (EdgeKey * list (Z * Z)) :=
  omap (fun n => edge_map !! n) (chain edge_map.*1).

Definition detect_overlapping_edges_with_timing (chain : Chain)
    (vertices : list Pierced.Row) (faces : list Face) (tolerance : double)
  : option (list (Z * Z)) :=
  keyed_edges ← mapM (keyed vertices) (incidences faces);
  let edge_map := collect chain [] keyed_edges in
  Some (omap representative (walk chain edge_map)).

(** What every chain does: it holds each entry once. *)
Definition lawful (chain : Chain) : Prop :=
  forall keys, chain keys ≡ₚ seq 0 (length keys).

(** Two chains to run the detector with: the entries from the oldest to
    the newest, and from the newest to the oldest. *)
Definition oldest_first : Chain := fun keys => seq 0 (length keys).
Definition newest_first : Chain := fun keys => reverse (seq 0 (length keys)).

(** *** Notions used to state the properties *)

(** The entry each incidence went to, in insertion order; a new entry
    takes the next position. *)
Fixpoint choices (chain : Chain) (edge_map : EdgeMap)
    (keyed_edges : list (EdgeKey * (Z * Z))) : list nat :=
  match keyed_edges with
  | [] => []
  | (key, ab) :: rest =>
      default (length edge_map) (slot_of chain edge_map key)
      :: choices chain (push_back chain edge_map key ab) rest
  end.

(** The buckets of the map, as the lookups form them.  [slots] gives for
    every incidence the number of its bucket, the buckets numbered in
    the order in which they were opened, [created] holds the keys that
    opened the buckets so far.  An incidence enters a bucket only when
    its key has the hash code of the key that opened the bucket and
    compares equal to it, and opens a bucket, the next one, only when
    that holds of none of the keys that opened one. *)
Fixpoint grouped (created keys : list EdgeKey) (slots : list nat) : Prop :=
  match keys, slots with
  | [], [] => True
  | key :: keys', n :: slots' =>
      match created !! n with
      | Some k0 =>
          (hash key = hash k0 /\ key_eq key k0 = true)
          /\ grouped created keys' slots'
      | None =>
          n = length created
          /\ Forall (fun k0 => ~ (hash key = hash k0 /\ key_eq key k0 = true))
                    created
          /\ grouped (created ++ [key]) keys' slots'
      end
  | _, _ => False
  end.

(** The incidences in insertion order: the faces in index order, the
    edges of a face in the order [(v1, v2)], [(v2, v3)], [(v3, v1)]. *)
Definition in_insertion_order (faces : list Face) : list (Z * Z) :=
  flat_map (fun f => [ (f.1.1, f.1.2); (f.1.2, f.2); (f.2, f.1.1) ]) faces.

(** The pairs that went to bucket [n], in insertion order. *)
Definition appended_to (n : nat) (trace : list (nat * (Z * Z)))
  : list (Z * Z) :=
  (filter (fun p => p.1 = n) trace).*2.

(** What a bucket with these pairs gives: its first pair when it holds
    more than two, nothing otherwise. *)
Definition emitted (pairs : list (Z * Z)) : option (Z * Z) :=
  if bool_decide (2 < length pairs)%nat then head pairs else None.

(** The pairs stored in entry [n], none where there is no entry. *)
Definition bucket (edge_map : EdgeMap) (n : nat) : list (Z * Z) :=
  default [] (snd <$> edge_map !! n).

#[global] Arguments finds : simpl never.

End Overlap.

(** ** Free edges

    [src/free_edges_detector.cpp].  The counters of the source are
    [int]; they count edges read, three per face, and the model counts in
    [Z]. *)

Module FreeEdges.

(** The three edges of a face, the smaller vertex index first.  A face is
    a [std::vector<int>]: one with fewer than three entries is passed over,
    and of a longer one the first three entries are used. *)
Definition face_edges (face : list Z) : list (Z * Z) :=
  match face with
  | a :: b :: c :: _ =>
      [ (Z.min a b, Z.max a b); (Z.min b c, Z.max b c);
        (Z.min c a, Z.max c a) ]
  | _ => []
  end.

(** [edge_count[edge]++] *)
Definition incr (edge_count : gmap (Z * Z) Z) (e : Z * Z) : gmap (Z * Z) Z :=
  <[ e := default 0 (edge_count !! e) + 1 ]> edge_count.

Definition count_edges (faces : list (list Z)) : gmap (Z * Z) Z :=
  foldl (fun edge_count face => foldl incr edge_count (face_edges face))
        ∅ faces.

(** The edges counted once.  The source walks an [unordered_map], whose
    order is unspecified; the model walks the map in the order of its keys'
    encoding. *)
Definition detect_free_edges_cpp (faces : list (list Z)) : list (Z * Z) :=
  map_fold (fun e n acc => if bool_decide (n = 1) then acc ++ [e] else acc)
           [] (count_edges faces).

(** [detect_free_edges_with_timing] returns the same edges next to the
    elapsed time. *)
Definition detect_free_edges_with_timing (faces : list (list Z)) : list (Z * Z) :=
  detect_free_edges_cpp faces.

End FreeEdges.

(** ** Notions used to state further properties

    The definitions below are not code of the sources: they name what
    the theorems of the second part say about the code. *)

(** *** Numbers *)

Module Numbers.

(** [std::isnan] *)
Definition is_nan (a : spec_float) : bool :=
  match a with S754_nan => true | _ => false end.

(** The place of a number that is not a NaN in the order of the
    comparisons: by sign first, then by exponent and mantissa, both
    reversed below zero.  The two zeros have the same place. *)
Definition rank (a : spec_float) : Z * Z * Z :=
  match a with
  | S754_infinity true => (-2, 0, 0)
  | S754_finite true m e => (-1, - e, - Z.pos m)
  | S754_finite false m e => (1, e, Z.pos m)
  | S754_infinity false => (2, 0, 0)
  | _ => (0, 0, 0)
  end.

Definition below (a b : Z * Z * Z) : Prop :=
  a.1.1 < b.1.1
  \/ (a.1.1 = b.1.1 /\ (a.1.2 < b.1.2 \/ (a.1.2 = b.1.2 /\ a.2 < b.2))).

End Numbers.

Module Finite.
Import Pierced.

(** [std::isfinite] *)
Definition is_finite (a : spec_float) : bool :=
  match a with
  | S754_zero _ | S754_finite _ _ _ => true
  | _ => false
  end.

Definition finite_row (r : Row) : bool :=
  let '(a, b, c) := r in is_finite a && is_finite b && is_finite c.

End Finite.

Module Bounded.
Import Pierced.

(** Not an infinity: a finite number or a NaN. *)
Definition not_infinite (a : spec_float) : bool :=
  match a with S754_infinity _ => false | _ => true end.

Definition no_infinity (r : Row) : bool :=
  let '(a, b, c) := r in not_infinite a && not_infinite b && not_infinite c.

End Bounded.

Module Alike.
Import Pierced Numbers.

(** The same number: the same value, or two zeros of any signs. *)
Definition alike (a b : spec_float) : Prop :=
  a = b \/ exists s t, a = S754_zero s /\ b = S754_zero t.

Definition no_nan_row (r : Row) : bool :=
  let '(a, b, c) := r in
  negb (is_nan a) && negb (is_nan b) && negb (is_nan c).

End Alike.

(** *** Boxes *)

Module Boxes.
Import Pierced Numbers.

(** No coordinate of the vector, or of the triangle, is a NaN. *)
Definition no_nan (a : Vector3d) : bool :=
  negb (is_nan a.(x)) && negb (is_nan a.(y)) && negb (is_nan a.(z)).

Definition no_nan_triangle (t : Triangle) : bool :=
  forallb no_nan (vertices t).

(** The point lies in the box, borders included. *)
Definition inside (b : AABB) (p : Vector3d) : bool :=
  (b.(bmin).(x) <=? p.(x))%D && (p.(x) <=? b.(bmax).(x))%D
  && (b.(bmin).(y) <=? p.(y))%D && (p.(y) <=? b.(bmax).(y))%D
  && (b.(bmin).(z) <=? p.(z))%D && (p.(z) <=? b.(bmax).(z))%D.

End Boxes.

(** *** The octree *)

Module Tree.
Import Pierced.

(** A node without children, by the test the queries make. *)
Definition is_leaf (n : OctreeNode) : bool := forallb is_null (children n).

(** The faces held by the leaves of a tree, from the first child to the
    last. *)
Fixpoint leaf_faces (n : OctreeNode) : list Z :=
  match n with
  | Node _ _ _ fi ch =>
      if forallb is_null ch then fi
      else
        (fix over (l : list (option OctreeNode)) : list Z :=
           match l with
           | [] => []
           | None :: l' => over l'
           | Some child :: l' => leaf_faces child ++ over l'
           end) ch
  end.

(** The property holds of the node and of every node below it. *)
Fixpoint every_node (P : OctreeNode -> Prop) (n : OctreeNode) : Prop :=
  P n
  /\ match n with
     | Node _ _ _ _ ch =>
         (fix all (l : list (option OctreeNode)) : Prop :=
            match l with
            | [] => True
            | None :: l' => all l'
            | Some child :: l' => every_node P child /\ all l'
            end) ch
     end.

End Tree.

(** *** Qualities and bins *)

Module Grading.
Import Quality.

(** The quality of one face of the mesh: its three rows are read and
    handed to [calculate_face_quality]. *)
Definition face_quality (vertices_buffer : list Row32) (f : Face)
  : option float32 :=
  let '(v1_idx, v2_idx, v3_idx) := f in
  p1 ← at_ vertices_buffer v1_idx;
  p2 ← at_ vertices_buffer v2_idx;
  p3 ← at_ vertices_buffer v3_idx;
  Some (calculate_face_quality (p1, p2, p3)).

(** Bin [k] of the histogram, [k = 0 .. 9]: the qualities from [k/10] up
    to, but not including, [(k+1)/10]; the last bin has no upper end. *)
Definition in_bin (k : Z) (quality : float32) : bool :=
  (tenths k <=? quality)%F
  && (bool_decide (k = 9) || (quality <? tenths (k + 1))%F).

End Grading.

(** *** Pairs of faces *)

Module Pairs.

(** The order of the result of the nested loops: by the first face, then
    by the second. *)
Definition pair_lt (p q : Z * Z) : Prop :=
  p.1 < q.1 \/ (p.1 = q.1 /\ p.2 < q.2).

End Pairs.

(** *** Edges *)

Module Counting.

(** How often an edge occurs in a list of edges. *)
Definition occurrences (e : Z * Z) (edges : list (Z * Z)) : nat :=
  length (filter (fun e' => e' = e) edges).

(** The edges that occur exactly once. *)
Definition once (edges : list (Z * Z)) : list (Z * Z) :=
  filter (fun e => occurrences e edges = 1%nat) edges.

(** The number of ends the edges of a list have at vertex [v]; an edge
    from [v] to [v] has two. *)
Definition ends_at (v : Z) (edges : list (Z * Z)) : Z :=
  Z.of_nat (length (filter (fun e => e.1 = v) edges))
  + Z.of_nat (length (filter (fun e => e.2 = v) edges)).

(** The undirected edges of the faces of a triangle mesh, face by
    face. *)
Definition mesh_edges (faces : list Face) : list (Z * Z) :=
  f ← faces; NonManifold.face_edges f.

(** A face of the face table as the list of its three vertex indices,
    which is how the free-edge detector takes it. *)
Definition as_list (f : Face) : list Z := let '(a, b, c) := f in [a; b; c].

End Counting.

Module Tally.
Import Overlap.

(** The number of pairs an edge map holds, all entries together. *)
Definition held (edge_map : EdgeMap) : nat :=
  sum_list ((fun entry => length entry.2) <$> edge_map).

End Tally.

Module Entries.
Import Overlap.

(** An entry starts with the pair that created it, under the key of that
    pair, and a second pair entered it only under a key that compares
    equal to the key of the entry. *)
Definition entry_ok (vertices : list Pierced.Row)
    (entry : EdgeKey * list (Z * Z)) : Prop :=
  exists ab rest,
    entry.2 = ab :: rest
    /\ keyed vertices ab = Some (entry.1, ab)
    /\ (rest <> [] -> exists k, key_eq k entry.1 = true).

End Entries.


(** ** Concrete inputs *)

Module Inputs.
Import Pierced.

Definition row (a b c : PrimFloat.float) : Row := (lit a, lit b, lit c).
Definition point (a b c : PrimFloat.float) : Vector3d :=
  Vec (lit a) (lit b) (lit c).

(** Two triangles crossing through each other: the second passes through
    the interior of the first, and no vertex is shared. *)
Definition crossing_vertices : list Row :=
  [ row 0 0 0; row 2 0 0; row 0 2 0;
    row 0.5 0.5 (-1); row 0.5 0.5 1; row 0.75 0.75 1 ].
Definition crossing_faces : list Face := [ (0, 1, 2); (3, 4, 5) ].

(** The crossing mesh after the second triangle has been moved away by
    10 along [x]. *)
Definition moved_vertices : list Row :=
  [ row 0 0 0; row 2 0 0; row 0 2 0;
    row 10.5 0.5 (-1); row 10.5 0.5 1; row 10.75 0.75 1 ].

(** The same crossing, but the second triangle has its third vertex on a
    vertex of the first (another row with the same coordinates). *)
Definition touching_vertices : list Row :=
  [ row 0 0 0; row 2 0 0; row 0 2 0;
    row 0.5 0.5 (-1); row 0.5 0.5 1; row 2 0 0 ].
Definition touching_faces : list Face := [ (0, 1, 2); (3, 4, 5) ].

(** Twenty-one faces.  Face 0 lies in the plane [x = -1], face 1 in the
    plane [y = -1]; both contain the point [(-1, -1, 0)].  The other
    nineteen faces are one small triangle far away, listed nineteen
    times. *)
Definition mesh21_vertices : list Row :=
  [ row (-1) 5 (-3); row (-1) 5 3; row (-1) (-2) 0;
    row 5 (-1) (-3); row 5 (-1) 3; row (-2) (-1) 0;
    row 4 4 2; row 4.25 4 2; row 4 4.25 2 ].
Definition mesh21_faces : list Face :=
  [ (0, 1, 2); (3, 4, 5) ] ++ replicate 19 (6, 7, 8).

(** Two small triangles in perpendicular planes, an edge of the one
    facing an edge of the other across a gap; the coordinates are
    multiples of [2^-17]. *)
Definition u : PrimFloat.float := 0x1p-17%float.
Definition small (a b c : Z) : Vector3d :=
  Vec (double_of_Z a * lit u)%D (double_of_Z b * lit u)%D
      (double_of_Z c * lit u)%D.
Definition sliver_a : Triangle :=
  Tri (small (-6) 6 0) (small 6 (-6) 0) (small (-6) (-6) 0).
Definition sliver_b : Triangle :=
  Tri (small 3 3 (-6)) (small 3 3 6) (small 9 9 0).

(** A right triangle and a flat one, in [float]. *)
Definition row32 (a b c : Z) : Quality.Row32 :=
  (f32_of_Z a, f32_of_Z b, f32_of_Z c).
Definition right_and_flat_vertices : list Quality.Row32 :=
  [ row32 0 0 0; row32 1 0 0; row32 0 1 0; row32 2 0 0 ].
Definition right_and_flat_faces : list Face := [ (0, 1, 2); (0, 1, 3) ].

(** A triangle with legs 4 and a copy of it one unit higher. *)
Definition stacked_vertices : list Quality.Row32 :=
  [ row32 0 0 0; row32 4 0 0; row32 0 4 0;
    row32 0 0 1; row32 4 0 1; row32 0 4 1 ].
Definition stacked_faces : list Face := [ (0, 1, 2); (3, 4, 5) ].
Definition stacked_lower : Triangle :=
  Tri (Adjacent.promote (row32 0 0 0)) (Adjacent.promote (row32 4 0 0))
      (Adjacent.promote (row32 0 4 0)).
Definition stacked_upper : Triangle :=
  Tri (Adjacent.promote (row32 0 0 1)) (Adjacent.promote (row32 4 0 1))
      (Adjacent.promote (row32 0 4 1)).

(** Three triangles on the common edge from vertex 0 to vertex 1. *)
Definition doubled_edge_vertices : list Row :=
  [ row 0 0 0; row 1 0 0; row 0 1 0; row 0 (-1) 0; row 0 0 1 ].
Definition doubled_edge_faces : list Face :=
  [ (0, 1, 2); (1, 0, 3); (0, 1, 4) ].

(** Four edges that end at vertex 0; the keys of the first two have the
    same hash code and do not compare equal, the key of the last two
    has that hash code too and compares equal to both. *)
Definition twice_found_vertices : list Row :=
  [ row 1 1 0;
    row 0x1.f75104d551d68p-17 1.4e-5 0;
    row 0x1.a36e2eb1c432cp-16 0.3e-5 0;
    row 0x1.f75104d551d68p-17 0.8e-5 0;
    row 10 0 0; row 20 0 0; row 30 0 0; row 40 0 0 ].
Definition twice_found_faces : list Face :=
  [ (1, 0, 4); (2, 0, 5); (3, 0, 6); (3, 0, 7) ].

End Inputs.

(** * Theorems *)

Module NonManifoldFacts.
Import NonManifold.

(** Four triangles fanning out of vertex 0 without closing up, as a
    cross of strips: vertex 0 lies on four free edges. *)
Example cross_of_strips :
  detect_non_manifold_vertices_with_timing []
    [ (0, 1, 2); (0, 3, 4); (0, 5, 6); (0, 7, 8) ] (lit 0.5) = [0].
Proof. vm_compute. reflexivity. Qed.

(** C9. The vertex list returned by the non-manifold detector is the
    same for any two tolerance values: the [tolerance] argument is
    accepted and never read. *)
Theorem tolerance_is_ignored :
  forall vertices faces (t1 t2 : double),
    detect_non_manifold_vertices_with_timing vertices faces t1 =
    detect_non_manifold_vertices_with_timing vertices faces t2.
Proof. intros vertices faces t1 t2. reflexivity. Qed.

End NonManifoldFacts.

Module Basics.

(** *** Reading vectors *)

Section Reading.
Context {A : Type}.
Implicit Types (l : list A) (i : Z).

Lemma at_Some l i a : at_ l i = Some a -> 0 <= i < Z.of_nat (length l).
Proof.
  unfold at_. case_bool_decide; [|done].
  intros Hl%lookup_lt_Some. lia.
Qed.

Lemma at_is_Some l i : 0 <= i < Z.of_nat (length l) -> is_Some (at_ l i).
Proof.
  intros H. unfold at_. rewrite bool_decide_eq_true_2 by lia.
  apply lookup_lt_is_Some. lia.
Qed.

Lemma at_None l i : i < 0 \/ i >= Z.of_nat (length l) -> at_ l i = None.
Proof.
  intros H. unfold at_. case_bool_decide; [|done].
  apply lookup_ge_None. lia.
Qed.

Lemma at_nat l i : 0 <= i -> at_ l i = l !! Z.to_nat i.
Proof. intros H. unfold at_. by rewrite bool_decide_eq_true_2. Qed.

End Reading.

Lemma at_fmap {A B} (f : A -> B) (l : list A) i :
  at_ (f <$> l) i = f <$> at_ l i.
Proof. unfold at_. case_bool_decide; [apply list_lookup_fmap | done]. Qed.

(** *** Loops that may fail *)

Section Loops.
Context {A S : Type} (f : S -> A -> option S).

(** An invariant of the body is an invariant of the loop. *)
Lemma fold_opt_inv (P : S -> Prop) l :
  (forall s a s', a ∈ l -> P s -> f s a = Some s' -> P s') ->
  forall s s', P s -> fold_opt f l s = Some s' -> P s'.
Proof.
  induction l as [|a l IH]; intros Hf s s' Hs; simpl.
  - by intros [= <-].
  - destruct (f s a) as [s1|] eqn:E; [|done].
    apply IH.
    + intros ? ? ? ?. apply Hf. by right.
    + eapply Hf; [by left | done | done].
Qed.

(** A body that never fails on the elements of the list gives a loop
    that returns. *)
Lemma fold_opt_is_Some l :
  (forall s a, a ∈ l -> is_Some (f s a)) ->
  forall s, is_Some (fold_opt f l s).
Proof.
  induction l as [|a l IH]; intros Hf s; simpl; [done|].
  destruct (Hf s a) as [s1 ->]; [by left|].
  apply IH. intros ? ? ?. apply Hf. by right.
Qed.

(** A body that fails on one element in every state makes the loop
    fail. *)
Lemma fold_opt_None l a :
  a ∈ l -> (forall s, f s a = None) -> forall s, fold_opt f l s = None.
Proof.
  induction l as [|b l IH]; intros Hin Hf s; [by inversion Hin|].
  simpl. apply elem_of_cons in Hin as [<-|Hin]; [by rewrite Hf|].
  destruct (f s b); [by apply IH | done].
Qed.

End Loops.

Lemma mapM_ok {A B} (Q : B -> Prop) (f : A -> option B) l :
  (forall a, a ∈ l -> exists b, f a = Some b /\ Q b) ->
  exists k, mapM f l = Some k /\ Forall Q k.
Proof.
  induction l as [|a l IH]; intros Hf.
  - by exists [].
  - destruct (Hf a) as (b & Hb & Qb); [by left|].
    destruct IH as (k & Hk & Qk); [intros ? ?; apply Hf; by right|].
    exists (b :: k). simpl. rewrite Hb. simpl. rewrite Hk. simpl.
    split; [done | by constructor].
Qed.

Lemma mapM_at {A B} (f : A -> option B) l k i :
  mapM f l = Some k -> at_ k i = at_ l i ≫= f.
Proof.
  intros H. apply mapM_Some in H. unfold at_.
  case_bool_decide; [|done].
  generalize (Z.to_nat i). clear i H0. intros i.
  revert i. induction H as [|a b l k Hab _ IH]; intros [|i]; simpl; auto.
Qed.

(** Every vertex index of a valid face reads a row. *)
Lemma valid_face_rows {R} (rows : list R) a b c :
  valid_face (Z.of_nat (length rows)) (a, b, c) = true ->
  exists ra rb rc,
    at_ rows a = Some ra /\ at_ rows b = Some rb /\ at_ rows c = Some rc.
Proof.
  unfold valid_face.
  rewrite !andb_true_iff, !bool_decide_eq_true. intros [[Ha Hb] Hc].
  destruct (at_is_Some rows a Ha) as [ra ->].
  destruct (at_is_Some rows b Hb) as [rb ->].
  destruct (at_is_Some rows c Hc) as [rc ->].
  by exists ra, rb, rc.
Qed.

End Basics.

Module PiercedFacts.
Import Pierced Basics.

(** *** Facts of the arithmetic *)

Lemma binary_round_aux_sign prec emax s m e l :
  binary_round_aux prec emax (negb s) m e l
  = SFopp (binary_round_aux prec emax s m e l).
Proof.
  unfold binary_round_aux.
  destruct (shr_fexp prec emax m e l) as [mrs' e'].
  destruct (shr_fexp prec emax _ e' loc_Exact) as [mrs'' e''].
  destruct (shr_m mrs''); [reflexivity | | reflexivity].
  destruct (e'' <=? emax - prec)%Z; reflexivity.
Qed.

Lemma SFmul_opp_opp prec emax t :
  SFmul prec emax (SFopp t) (SFopp t) = SFmul prec emax t t.
Proof. destruct t as [[]|[]| |[] m e]; reflexivity. Qed.

Lemma binary_round_sign prec emax s m e :
  binary_round prec emax (negb s) m e = SFopp (binary_round prec emax s m e).
Proof.
  unfold binary_round. destruct (shl_align _ _ _) as [mz ez].
  apply binary_round_aux_sign.
Qed.

Lemma binary_normalize_opp_sq prec emax m e :
  SFmul prec emax (binary_normalize prec emax m e false)
                  (binary_normalize prec emax m e false)
  = SFmul prec emax (binary_normalize prec emax (- m) e false)
                    (binary_normalize prec emax (- m) e false).
Proof.
  pose proof (binary_round_sign prec emax false) as Hs. cbn [negb] in Hs.
  destruct m as [|p|p]; simpl; [reflexivity | |];
    by rewrite Hs, SFmul_opp_opp.
Qed.

(** [(a - b) * (a - b)] and [(b - a) * (b - a)] are the same double. *)
Lemma dsub_sq_sym (a b : double) :
  ((a - b) * (a - b))%D = ((b - a) * (b - a))%D.
Proof.
  unfold dmul, dsub.
  destruct a as [[]|[]| |sa ma ea], b as [[]|[]| |sb mb eb];
    try reflexivity; try (destruct sa; reflexivity);
    try (destruct sb; reflexivity).
  simpl. rewrite (Z.min_comm eb ea).
  set (A := cond_Zopp sa _). set (B := cond_Zopp sb _).
  replace (B - A) with (- (A - B)) by lia.
  apply binary_normalize_opp_sq.
Qed.

Lemma dist_sym a b : dist a b = dist b a.
Proof.
  unfold dist.
  rewrite (dsub_sq_sym a.(x)), (dsub_sq_sym a.(y)), (dsub_sq_sym a.(z)).
  reflexivity.
Qed.

Lemma existsb_swap {A B} (f : A -> B -> bool) (l1 : list A) (l2 : list B) :
  existsb (fun a => existsb (fun b => f a b) l2) l1
  = existsb (fun b => existsb (fun a => f a b) l1) l2.
Proof.
  apply eq_true_iff_eq. rewrite !existsb_exists.
  split.
  - intros (a & Ha & Hb). apply existsb_exists in Hb as (b & Hb & Hf).
    exists b. split; [done|]. apply existsb_exists. eauto.
  - intros (b & Hb & Ha). apply existsb_exists in Ha as (a & Ha & Hf).
    exists a. split; [done|]. apply existsb_exists. eauto.
Qed.

Lemma existsb_pointwise {A} (f g : A -> bool) (l : list A) :
  (forall a, f a = g a) -> existsb f l = existsb g l.
Proof. intros E. induction l as [|a l IH]; simpl; [done | by rewrite E, IH]. Qed.

Lemma share_vertex_sym t1 t2 : share_vertex t1 t2 = share_vertex t2 t1.
Proof.
  unfold share_vertex. rewrite existsb_swap.
  apply existsb_pointwise. intros a. apply existsb_pointwise. intros b.
  by rewrite dist_sym.
Qed.


(** *** The tree *)

Lemma OctreeNode_induction (P : OctreeNode -> Prop) :
  (forall c s d fi ch,
      Forall (fun o => forall n, o = Some n -> P n) ch ->
      P (Node c s d fi ch)) ->
  forall n, P n.
Proof.
  intros H. fix IH 1. intros [c s d fi ch]. apply H.
  revert ch. fix IHl 1. intros [|o ch].
  - constructor.
  - constructor; [|apply IHl].
    destruct o as [n|]; intros n' Hn'; [|discriminate].
    injection Hn' as <-. apply IH.
Qed.

Lemma well_indexed_leaf m c s d fi :
  Forall (fun i => 0 <= i < m) fi ->
  well_indexed m (Node c s d fi (replicate 8 None)).
Proof.
  intros H. constructor; [done|].
  repeat constructor; discriminate.
Qed.

Lemma placed_fst {T} (g : T -> Z) (look : Z -> option T) fi placed :
  mapM (fun face_idx => tri ← look face_idx; Some (face_idx, g tri)) fi
    = Some placed ->
  placed.*1 = fi.
Proof.
  revert placed. induction fi as [|i fi IH]; intros placed; simpl.
  - by intros [= <-].
  - destruct (look i) as [t|]; simpl; [|done].
    destruct (mapM _ fi) as [k|]; simpl; [|done].
    intros [= <-]. simpl. f_equal. by apply IH.
Qed.

Lemma build_octree_step levels triangles fi c s d mf :
  build_octree (S levels) triangles fi c s d mf =
    if bool_decide (Z.of_nat (length fi) <= mf)
    then Some (Node c s d fi (replicate 8 None))
    else
      placed ← mapM (fun face_idx =>
                       tri ← at_ triangles face_idx;
                       Some (face_idx, get_octant c (tri_center tri))) fi;
      children ← mapM (fun i =>
          let child_faces := (filter (fun p => snd p = i) placed).*1 in
          match child_faces with
          | [] => Some None
          | _ =>
              child ← build_octree levels triangles child_faces
                        (child_center c (s / two)%D i) (s / two)%D
                        (d + 1) mf;
              Some (Some child)
          end) (seqZ 0 8);
      Some (Node c s d fi children).
Proof. reflexivity. Qed.

Lemma build_octree_ok levels triangles :
  forall fi c s d mf,
    Forall (fun i => 0 <= i < Z.of_nat (length triangles)) fi ->
    exists node,
      build_octree levels triangles fi c s d mf = Some node
      /\ well_indexed (Z.of_nat (length triangles)) node.
Proof.
  induction levels as [|levels IH]; intros fi c s d mf Hfi.
  - eexists. split; [done|]. by apply well_indexed_leaf.
  - rewrite build_octree_step. generalize (seqZ 0 8). intros octants.
    case_bool_decide.
    + eexists. split; [done|]. by apply well_indexed_leaf.
    + destruct (mapM_ok (fun _ => True)
                  (fun face_idx =>
                     tri ← at_ triangles face_idx;
                     Some (face_idx, get_octant c (tri_center tri))) fi)
        as (placed & Hplaced & _).
      { intros i Hi. rewrite Forall_forall in Hfi.
        destruct (at_is_Some triangles i (Hfi i Hi)) as [t Ht].
        rewrite Ht. simpl. eauto. }
      rewrite Hplaced. simpl.
      pose proof (placed_fst _ _ _ _ Hplaced) as Hfst.
      match goal with
      | |- context [mapM ?f octants] =>
          destruct (mapM_ok
            (fun o => forall n, o = Some n ->
                                well_indexed (Z.of_nat (length triangles)) n)
            f octants) as (children & Hch & Hwi);
            [|rewrite Hch; simpl]
      end.
      2:{ eexists. split; [done|]. by constructor. }
      intros i _. cbv zeta.
      destruct (IH ((filter (fun p => p.2 = i) placed).*1)
                   (child_center c (s / two)%D i) (s / two)%D
                   (d + 1) mf) as (node & Hnode & Hw).
      { rewrite Forall_forall in Hfi |- *.
        intros k Hk. apply Hfi. rewrite <- Hfst.
        apply list_elem_of_fmap in Hk as (p & -> & Hp).
        apply list_elem_of_filter in Hp as [_ Hp].
        apply list_elem_of_fmap. eauto. }
      rewrite Hnode. simpl.
      destruct ((filter (fun p => p.2 = i) placed).*1) as [|j rest].
      { eexists. split; [done|]. discriminate. }
      eexists. split; [done|]. by intros n [= <-].
Qed.


(** *** One pair *)

(** The pair loop body records the pair exactly when the pair test
    passes. *)
Lemma test_pair_spec triangles bboxes f t1 b1 h g h' :
  at_ triangles f = Some t1 ->
  at_ bboxes f = Some b1 ->
  test_pair triangles bboxes f t1 b1 h g = Some h' ->
  (pair_hit triangles bboxes f g /\ h' = record_hit f g h)
  \/ (~ pair_hit triangles bboxes f g /\ h' = h).
Proof.
  intros Ht1 Hb1. unfold test_pair, pair_hit.
  case_bool_decide as Hfg.
  { intros [= <-]. right. split; [|done]. by intros [Hne _]. }
  destruct (at_ bboxes g) as [b2|] eqn:Hb2; simpl; [|done].
  destruct (intersects b1 b2) eqn:Hi.
  2:{ intros [= <-]. right. split; [|done]. intros (_ & ? & ? & ? & ? & H).
      destruct H as (_ & _ & ? & ? & Hi' & _). simplify_eq.
      by rewrite Hi in Hi'. }
  destruct (at_ triangles g) as [t2|] eqn:Ht2; simpl; [|done].
  destruct (negb (share_vertex t1 t2) && check_triangle_intersection t1 t2)
    eqn:E; intros [= <-].
  - apply andb_true_iff in E as [Hs Hc]. apply negb_true_iff in Hs.
    left. split; [|done]. split; [by intros ->|].
    by exists t1, t2, b1, b2.
  - right. split; [|done]. intros (_ & ? & ? & ? & ? & H).
    destruct H as (? & ? & ? & ? & _ & Hs & Hc). simplify_eq.
    by rewrite Hs, Hc in E.
Qed.

Lemma test_pair_recorded triangles bboxes f t1 b1 h g h' :
  at_ triangles f = Some t1 ->
  at_ bboxes f = Some b1 ->
  recorded triangles bboxes h ->
  test_pair triangles bboxes f t1 b1 h g = Some h' ->
  recorded triangles bboxes h'.
Proof.
  intros Ht1 Hb1 Hrec Ht.
  destruct (test_pair_spec _ _ _ _ _ _ _ _ Ht1 Hb1 Ht) as [[Hp ->]|[_ ->]];
    [by constructor | done].
Qed.

Lemma test_pair_is_Some triangles bboxes f t1 b1 h g :
  is_Some (at_ triangles g) -> is_Some (at_ bboxes g) ->
  is_Some (test_pair triangles bboxes f t1 b1 h g).
Proof.
  intros [t2 Ht2] [b2 Hb2]. unfold test_pair.
  case_bool_decide; [done|].
  rewrite Hb2. simpl. destruct (intersects b1 b2); [|done].
  rewrite Ht2. simpl. by destruct (_ && _).
Qed.

(** A pair whose triangles share a vertex leaves the accumulators as
    they are. *)
Lemma test_pair_shared triangles bboxes f t1 b1 h g t2 h' :
  at_ triangles g = Some t2 ->
  share_vertex t1 t2 = true ->
  test_pair triangles bboxes f t1 b1 h g = Some h' ->
  h' = h.
Proof.
  intros Ht2 Hs. unfold test_pair.
  case_bool_decide; [by intros [= <-]|].
  destruct (at_ bboxes g) as [b2|]; simpl; [|done].
  destruct (intersects b1 b2); [|by intros [= <-]].
  rewrite Ht2. simpl. rewrite Hs. simpl. by intros [= <-].
Qed.

(** *** The query *)

Lemma query_octree_recorded triangles bboxes node :
  forall f h h',
    recorded triangles bboxes h ->
    query_octree triangles bboxes node f h = Some h' ->
    recorded triangles bboxes h'.
Proof.
  induction node as [c s d fi ch IH] using OctreeNode_induction.
  intros f h h' Hrec. simpl.
  destruct (forallb is_null ch).
  - destruct (at_ triangles f) as [t1|] eqn:Ht1; simpl; [|done].
    destruct (at_ bboxes f) as [b1|] eqn:Hb1; simpl; [|done].
    apply fold_opt_inv; [|done].
    intros ? ? ? _. by apply test_pair_recorded.
  - destruct (at_ bboxes f) as [fb|]; simpl; [|done].
    revert h Hrec. generalize 0.
    induction IH as [|o ch Ho _ IHch]; intros i h Hrec; simpl.
    + by intros [= <-].
    + destruct o as [child|]; [|by apply IHch].
      destruct (intersects fb _); [|by apply IHch].
      destruct (query_octree _ _ child f h) as [h1|] eqn:E; simpl; [|done].
      apply IHch. eapply Ho; eauto.
Qed.

Lemma query_octree_is_Some triangles bboxes node :
  length bboxes = length triangles ->
  well_indexed (Z.of_nat (length triangles)) node ->
  forall f h,
    0 <= f < Z.of_nat (length triangles) ->
    is_Some (query_octree triangles bboxes node f h).
Proof.
  intros Hlen.
  induction node as [c s d fi ch IH] using OctreeNode_induction.
  intros Hwi f h Hf. inversion Hwi as [? ? ? ? ? Hfi Hch]; subst. simpl.
  destruct (at_is_Some triangles f Hf) as [t1 ->].
  destruct (at_is_Some bboxes f) as [b1 ->]; [by rewrite Hlen|]. simpl.
  destruct (forallb is_null ch).
  - apply fold_opt_is_Some. intros h0 g Hg.
    rewrite Forall_forall in Hfi.
    apply test_pair_is_Some; apply at_is_Some; [|rewrite Hlen]; by apply Hfi.
  - revert h. generalize 0.
    induction IH as [|o ch Ho _ IHch]; intros i h; simpl; [done|].
    apply Forall_cons in Hch as [Hwo Hch].
    destruct o as [child|]; [|by apply IHch].
    destruct (intersects b1 _); [|by apply IHch].
    destruct (Ho child eq_refl (Hwo child eq_refl) f h Hf) as [h1 ->]. simpl.
    by apply IHch.
Qed.


(** *** The accumulators *)

Lemma nb_insert m k (S : gset Z) a :
  nb (<[ k := S ]> m) a = if decide (a = k) then S else nb m a.
Proof.
  unfold nb. case_decide as E.
  - subst. by rewrite lookup_insert_eq.
  - by rewrite lookup_insert_ne.
Qed.

Lemma nb_ensure m k a :
  nb (match m !! k with None => <[ k := ∅ ]> m | _ => m end) a = nb m a.
Proof.
  destruct (m !! k) eqn:E; [done|].
  rewrite nb_insert. case_decide; [|done]. subst. unfold nb. by rewrite E.
Qed.

Lemma nb_record_hit f g h a :
  f <> g ->
  nb (record_hit f g h).(intersection_map) a =
    if decide (a = g) then {[ f ]} ∪ nb h.(intersection_map) g
    else if decide (a = f) then {[ g ]} ∪ nb h.(intersection_map) f
    else nb h.(intersection_map) a.
Proof.
  intros Hfg. unfold record_hit. cbn [intersection_map].
  fold (nb h.(intersection_map)).
  set (m1 := match h.(intersection_map) !! f with
             | None => <[ f := ∅ ]> h.(intersection_map) | _ => _ end).
  set (m2 := match m1 !! g with None => <[ g := ∅ ]> m1 | _ => m1 end).
  fold (nb m2 f). set (m3 := <[ f := _ ]> m2). fold (nb m3 g).
  assert (E2 : forall b, nb m2 b = nb h.(intersection_map) b).
  { intros b. unfold m2, m1. by rewrite !nb_ensure. }
  rewrite nb_insert. unfold m3. rewrite !nb_insert, !E2.
  repeat case_decide; subst; done.
Qed.

Lemma dom_record_hit f g h :
  dom (record_hit f g h).(intersection_map)
  = {[ g ]} ∪ ({[ f ]} ∪ dom h.(intersection_map)).
Proof.
  unfold record_hit. destruct h as [F M]. simpl.
  destruct (M !! f) as [Sf|] eqn:Ef.
  - destruct (M !! g) as [Sg|] eqn:Eg; rewrite !dom_insert_L; set_solver.
  - destruct (<[f:=∅]> M !! g) as [Sg|] eqn:Eg; rewrite !dom_insert_L;
      set_solver.
Qed.

Lemma recorded_keys triangles bboxes h :
  recorded triangles bboxes h ->
  dom h.(intersection_map) = h.(intersecting_faces).
Proof.
  induction 1 as [|f g h _ IH _]; [set_solver|].
  rewrite dom_record_hit, IH. by destruct h.
Qed.

Lemma recorded_symmetric triangles bboxes h :
  recorded triangles bboxes h ->
  forall a b, b ∈ nb h.(intersection_map) a <-> a ∈ nb h.(intersection_map) b.
Proof.
  induction 1 as [|f g h _ IH [Hfg _]]; intros a b.
  - unfold nb. simpl. rewrite !lookup_empty. simpl. set_solver.
  - rewrite !nb_record_hit by done.
    pose proof (IH a b). pose proof (IH f g). pose proof (IH g f).
    pose proof (IH a f). pose proof (IH a g).
    pose proof (IH f b). pose proof (IH g b).
    repeat case_decide; subst; set_solver.
Qed.


(** Every pair in the map passed the pair test, in one order or the
    other. *)
Lemma recorded_pairs triangles bboxes h :
  recorded triangles bboxes h ->
  forall a b,
    b ∈ nb h.(intersection_map) a ->
    pair_hit triangles bboxes a b \/ pair_hit triangles bboxes b a.
Proof.
  induction 1 as [|f g h _ IH Hp]; intros a b.
  - unfold nb. simpl. rewrite lookup_empty. simpl. set_solver.
  - rewrite nb_record_hit by apply Hp.
    repeat case_decide; subst; [| |by eauto];
      rewrite elem_of_union, elem_of_singleton; (intros [->|Hin]; [|by eauto]);
      eauto.
Qed.

Lemma recorded_no_shared triangles bboxes h :
  recorded triangles bboxes h ->
  forall a b ta tb,
    at_ triangles a = Some ta -> at_ triangles b = Some tb ->
    b ∈ nb h.(intersection_map) a -> share_vertex ta tb = false.
Proof.
  intros Hrec a b ta tb Ha Hb Hin.
  destruct (recorded_pairs _ _ _ Hrec a b Hin)
    as [(_ & ? & ? & ? & ? & H)|(_ & ? & ? & ? & ? & H)];
    destruct H as (? & ? & _ & _ & _ & Hs & _); simplify_eq;
    [done | by rewrite share_vertex_sym].
Qed.

(** *** The result handed back *)

Lemma elem_of_ascending (s : gset Z) a : a ∈ ascending s <-> a ∈ s.
Proof.
  unfold ascending. rewrite merge_sort_Permutation. apply elem_of_elements.
Qed.

Lemma neighbours_to_result h f g :
  g ∈ neighbours (to_result h).2 f <-> g ∈ nb h.(intersection_map) f.
Proof.
  unfold neighbours, nb, to_result. simpl. rewrite lookup_fmap.
  destruct (_ !! f); simpl; [apply elem_of_ascending | set_solver].
Qed.

(** *** A run of the full detection *)

Lemma make_triangle_is_Some py_vertices f :
  valid_face (Z.of_nat (length py_vertices)) f = true ->
  is_Some (make_triangle py_vertices f).
Proof.
  destruct f as [[a b] c]. intros Hf.
  destruct (valid_face_rows py_vertices a b c Hf)
    as ([[? ?] ?] & [[? ?] ?] & [[? ?] ?] & Ha & Hb & Hc).
  unfold make_triangle, vertex. by rewrite Ha, Hb, Hc.
Qed.

Lemma triangles_is_Some py_faces py_vertices :
  valid_mesh py_faces py_vertices = true ->
  exists triangles,
    mapM (make_triangle py_vertices) py_faces = Some triangles
    /\ length triangles = length py_faces.
Proof.
  intros Hv. unfold valid_mesh in Hv. rewrite forallb_forall in Hv.
  destruct (mapM_ok (fun _ => True) (make_triangle py_vertices) py_faces)
    as (triangles & Ht & _).
  { intros f Hf. destruct (make_triangle_is_Some py_vertices f) as [t Ht].
    - apply Hv. by apply list_elem_of_In.
    - eauto. }
  exists triangles. split; [done|]. symmetry. by eapply length_mapM.
Qed.

Lemma seqZ_indices (m : nat) :
  Forall (fun i => 0 <= i < Z.of_nat m) (seqZ 0 (Z.of_nat m)).
Proof. apply Forall_forall. intros i Hi%elem_of_seqZ. lia. Qed.

Lemma detect_inversion py_faces py_vertices r :
  detect_pierced_faces_with_timing py_faces py_vertices = Some r ->
  exists triangles h,
    mapM (make_triangle py_vertices) py_faces = Some triangles
    /\ recorded triangles (compute_triangle_aabb <$> triangles) h
    /\ r = to_result h.
Proof.
  unfold detect_pierced_faces_with_timing.
  destruct (mapM _ py_faces) as [triangles|]; simpl; [|done].
  destruct (build_root _ _) as [octree|]; simpl; [|done].
  destruct (fold_opt _ _ no_hits) as [h|] eqn:E; simpl; [|done].
  intros [= <-]. exists triangles, h. split; [done|]. split; [|done].
  revert E. apply fold_opt_inv; [|constructor].
  intros h0 f h1 _. apply query_octree_recorded.
Qed.

Lemma detect_is_Some py_faces py_vertices :
  valid_mesh py_faces py_vertices = true ->
  is_Some (detect_pierced_faces_with_timing py_faces py_vertices).
Proof.
  intros Hv. destruct (triangles_is_Some _ _ Hv) as (triangles & Ht & Hlen).
  unfold detect_pierced_faces_with_timing. rewrite Ht. simpl.
  unfold build_root. destruct (root_cell triangles) as [c sz].
  destruct (build_octree_ok 8 triangles (seqZ 0 (Z.of_nat (length py_faces)))
              c sz 0 20) as (octree & Ho & Hwi).
  { rewrite Hlen. apply seqZ_indices. }
  rewrite Ho. simpl.
  destruct (fold_opt_is_Some
    (fun h face_idx =>
       query_octree triangles (compute_triangle_aabb <$> triangles)
                    octree face_idx h)
    (seqZ 0 (Z.of_nat (length py_faces)))) with (s := no_hits) as [h ->];
    [|done].
  intros h f Hf%elem_of_seqZ.
  apply query_octree_is_Some; [by rewrite length_fmap | done | lia].
Qed.

(** C2. On a mesh whose faces index the vertex table, the full detection
    returns a list of faces and a map such that [g] is in [map[f]] exactly
    when [f] is in [map[g]], and the list of faces is the keys of the map
    (in ascending order, as the source builds it from a [std::set]). *)
Theorem detect_pierced_faces_symmetric py_faces py_vertices :
  valid_mesh py_faces py_vertices = true ->
  exists faces map,
    detect_pierced_faces_with_timing py_faces py_vertices = Some (faces, map)
    /\ (forall f g, g ∈ neighbours map f <-> f ∈ neighbours map g)
    /\ faces = ascending (dom map)
    /\ (forall f, f ∈ faces <-> is_Some (map !! f)).
Proof.
  intros Hv. destruct (detect_is_Some _ _ Hv) as [[faces map] Hr].
  exists faces, map. split; [done|].
  apply detect_inversion in Hr as (triangles & h & _ & Hrec & Hres).
  assert (Hkeys : faces = ascending (dom map)).
  { injection Hres as -> ->. rewrite dom_fmap_L.
    by rewrite (recorded_keys _ _ _ Hrec). }
  split; [|split; [done|]].
  - intros f g. replace map with (to_result h).2 by by rewrite <- Hres.
    rewrite !neighbours_to_result. by eapply recorded_symmetric.
  - intros f. rewrite Hkeys, elem_of_ascending. apply elem_of_dom.
Qed.

(** C3. Two faces with a vertex of one closer than 1e-10 to a vertex of
    the other are never reported as a pair by the full detection, whatever
    the separating-axis test would say: [g] is not in [map[f]], and the
    pair loop leaves the set of intersecting faces and the map as they
    were. *)
Theorem shared_vertex_pair_not_reported
    py_faces py_vertices faces map f g t1 t2 :
  detect_pierced_faces_with_timing py_faces py_vertices = Some (faces, map) ->
  triangle_of py_faces py_vertices f = Some t1 ->
  triangle_of py_faces py_vertices g = Some t2 ->
  share_vertex t1 t2 = true ->
  (g ∉ neighbours map f)
  /\ (forall triangles bboxes bbox1 h h',
        at_ triangles g = Some t2 ->
        test_pair triangles bboxes f t1 bbox1 h g = Some h' -> h' = h).
Proof.
  intros Hr Ht1 Ht2 Hs. split.
  - apply detect_inversion in Hr as (triangles & h & Ht & Hrec & Hres).
    replace map with (to_result h).2 by by rewrite <- Hres.
    rewrite neighbours_to_result. intros Hin.
    assert (Hf : at_ triangles f = Some t1)
      by (rewrite (mapM_at _ _ _ f Ht); exact Ht1).
    assert (Hg : at_ triangles g = Some t2)
      by (rewrite (mapM_at _ _ _ g Ht); exact Ht2).
    pose proof (recorded_no_shared _ _ _ Hrec f g t1 t2 Hf Hg Hin).
    congruence.
  - intros triangles bboxes bbox1 h h' Hg. by apply (test_pair_shared _ _ _ _ _ _ _ t2).
Qed.


(** *** The separating-axis test *)

Lemma check_separation_spec t1 t2 axis :
  check_separation t1 t2 axis = negb (isZero axis) && separated_on t1 t2 axis.
Proof.
  unfold check_separation, separated_on.
  destruct (isZero axis); [done|].
  by destruct (project_triangle t1 axis), (project_triangle t2 axis).
Qed.

Lemma edge_axis_separates_spec t1 t2 :
  edge_axis_separates t1 t2 = true <->
  exists c, c ∈ edge_crosses t1 t2 /\ isZero c = false
            /\ isZero (normalized c) = false
            /\ separated_on t1 t2 (normalized c) = true.
Proof.
  unfold edge_axis_separates, edge_crosses. rewrite existsb_exists. split.
  - intros (e1 & He1 & H). apply existsb_exists in H as (e2 & He2 & H).
    rewrite check_separation_spec, !andb_true_iff, !negb_true_iff in H.
    destruct H as (Hc & Hn & Hs). exists (cross e1 e2).
    split; [|done]. apply list_elem_of_bind. exists e1.
    split; [|by apply list_elem_of_In]. apply list_elem_of_bind. exists e2.
    split; [by left | by apply list_elem_of_In].
  - intros (c & Hc & Hz & Hn & Hs).
    apply list_elem_of_bind in Hc as (e1 & Hc & He1).
    apply list_elem_of_bind in Hc as (e2 & Hc & He2).
    apply list_elem_of_singleton in Hc as ->.
    exists e1. split; [by apply list_elem_of_In|].
    apply existsb_exists. exists e2. split; [by apply list_elem_of_In|].
    rewrite check_separation_spec, Hz, Hn, Hs. done.
Qed.

(** C4, as the code has it.  The test declares two triangles separated
    exactly when the projection intervals are disjoint on one of the axes
    it tests: the two normals of [get_normal] and the normalized edge cross
    products, an axis being skipped when all its components are below 1e-8
    in absolute value ([isZero]), which for an edge cross product is asked
    of the product itself and of its unit vector. *)
Theorem separated_iff_tested_axis t1 t2 :
  check_triangle_intersection t1 t2 = false <->
  exists axis, axis ∈ tested_axes t1 t2 /\ separated_on t1 t2 axis = true.
Proof.
  unfold check_triangle_intersection, tested_axes.
  rewrite !check_separation_spec, !andb_assoc, !andb_diag.
  split.
  - destruct (negb (isZero (get_normal t1)) && _) eqn:E1.
    { intros _. apply andb_true_iff in E1 as [Hz Hs].
      apply negb_true_iff in Hz. exists (get_normal t1).
      split; [|done]. apply list_elem_of_filter. split; [done|].
      apply elem_of_app. left. by left. }
    destruct (negb (isZero (get_normal t2)) && _) eqn:E2.
    { intros _. apply andb_true_iff in E2 as [Hz Hs].
      apply negb_true_iff in Hz. exists (get_normal t2).
      split; [|done]. apply list_elem_of_filter. split; [done|].
      apply elem_of_app. left. right. by left. }
    destruct (edge_axis_separates t1 t2) eqn:E3; [|done].
    intros _. apply edge_axis_separates_spec in E3 as (c & Hc & Hz & Hn & Hs).
    exists (normalized c). split; [|done].
    apply list_elem_of_filter. split; [done|].
    apply elem_of_app. right. apply list_elem_of_fmap. exists c.
    split; [done|]. by apply list_elem_of_filter.
  - intros (axis & Hin & Hs).
    apply list_elem_of_filter in Hin as [Hz Hin].
    apply elem_of_app in Hin as [Hin|Hin].
    + apply elem_of_cons in Hin as [->|Hin];
        [by rewrite Hz, Hs|].
      apply list_elem_of_singleton in Hin as ->.
      destruct (negb (isZero (get_normal t1)) && _); [done|].
      by rewrite Hz, Hs.
    + apply list_elem_of_fmap in Hin as (c & -> & Hc).
      apply list_elem_of_filter in Hc as [Hc Hin].
      assert (E : edge_axis_separates t1 t2 = true).
      { apply edge_axis_separates_spec. eauto 6. }
      rewrite E. by repeat destruct (_ && _).
Qed.

(** A normal whose cross product has a norm below 1e-8 is the zero
    vector, which [isZero] drops. *)
Lemma get_normal_degenerate t :
  (norm (raw_normal t) <? ALMOST_ZERO)%D = true -> isZero (get_normal t) = true.
Proof. unfold get_normal, raw_normal. by intros ->. Qed.

(** The first edge cross product of the two slivers: [isZero] holds of
    it, its norm is not below 1e-8, and the intervals on its unit vector are
    disjoint. *)
Example sliver_axis :
  let c := cross (vsub Inputs.sliver_a.(v1) Inputs.sliver_a.(v0))
                 (vsub Inputs.sliver_b.(v1) Inputs.sliver_b.(v0)) in
  c ∈ edge_crosses Inputs.sliver_a Inputs.sliver_b
  /\ isZero c = true
  /\ (norm c <? ALMOST_ZERO)%D = false
  /\ separated_on Inputs.sliver_a Inputs.sliver_b (normalized c) = true.
Proof.
  split; [by left|]. repeat split; vm_compute; reflexivity.
Qed.

(** C4, as the specification words it, fails: the first edge cross
    product of the two slivers has components 8.4e-9, 8.4e-9 and 0, so
    [isZero] drops it, while its norm is 1.19e-8 and the intervals on it
    are disjoint.  No axis that is tested separates the pair, and the test
    answers that the triangles intersect. *)
Lemma norm_below_threshold_is_not_the_skip_test :
  ~ (check_triangle_intersection Inputs.sliver_a Inputs.sliver_b = false
     <-> spec_separated Inputs.sliver_a Inputs.sliver_b = true).
Proof.
  assert (E1 : check_triangle_intersection Inputs.sliver_a Inputs.sliver_b
               = true) by (vm_compute; reflexivity).
  assert (E2 : spec_separated Inputs.sliver_a Inputs.sliver_b = true)
    by (vm_compute; reflexivity).
  rewrite E1, E2. intros [_ H]. by specialize (H eq_refl).
Qed.


(** *** Witnesses on concrete meshes *)

Lemma detect_pierced_faces_symmetric_witness :
  exists faces map,
    detect_pierced_faces_with_timing
      Inputs.crossing_faces Inputs.crossing_vertices = Some (faces, map)
    /\ (forall f g, g ∈ neighbours map f <-> f ∈ neighbours map g)
    /\ faces = ascending (dom map)
    /\ (forall f, f ∈ faces <-> is_Some (map !! f)).
Proof.
  apply (detect_pierced_faces_symmetric
           Inputs.crossing_faces Inputs.crossing_vertices).
  vm_compute. reflexivity.
Defined.

(** The two crossing triangles are reported, each at the other. *)
Example crossing_is_reported :
  detect_pierced_faces_with_timing
    Inputs.crossing_faces Inputs.crossing_vertices
  = Some ([0; 1], {[ 0 := [1]; 1 := [0] ]}).
Proof. vm_compute. reflexivity. Qed.

(** With a vertex in common the same crossing is not reported. *)
Example touching_is_not_reported :
  detect_pierced_faces_with_timing
    Inputs.touching_faces Inputs.touching_vertices
  = Some ([], ∅).
Proof. vm_compute. reflexivity. Qed.

Lemma shared_vertex_pair_not_reported_witness :
  1 ∉ neighbours (∅ : gmap Z (list Z)) 0.
Proof.
  refine (proj1 (shared_vertex_pair_not_reported
    Inputs.touching_faces Inputs.touching_vertices [] ∅ 0 1
    (Tri (Inputs.point 0 0 0) (Inputs.point 2 0 0) (Inputs.point 0 2 0))
    (Tri (Inputs.point 0.5 0.5 (-1)) (Inputs.point 0.5 0.5 1)
         (Inputs.point 2 0 0))
    _ _ _ _)); vm_compute; reflexivity.
Defined.

End PiercedFacts.

Module IncrementalFacts.
Import Pierced Basics PiercedFacts.

(** *** The local detection and an index outside the mesh *)

Lemma find_potential_intersections_mono face_bbox node :
  forall c, c ⊆ find_potential_intersections face_bbox node c.
Proof.
  induction node as [ce sz d fi ch IH] using OctreeNode_induction.
  intros c. simpl.
  destruct (negb _); [done|].
  destruct (forallb is_null ch); [set_solver|].
  revert c. induction IH as [|o ch Ho _ IHch]; intros c; [done|].
  destruct o as [child|]; [|apply IHch].
  etrans; [apply (Ho child eq_refl)|apply IHch].
Qed.

Lemma add_candidates_mono g c t c' :
  add_candidates g c t = Some c' -> {[ t ]} ∪ c ⊆ c'.
Proof.
  unfold add_candidates. case_bool_decide; [by intros [= <-]|].
  destruct (at_ _ t); simpl; [|done].
  destruct (persistent_octree g); intros [= <-]; [|done].
  apply find_potential_intersections_mono.
Qed.

Lemma candidates_include_targets g targets :
  forall c c', fold_opt (add_candidates g) targets c = Some c' ->
               c ⊆ c' /\ forall t, t ∈ targets -> t ∈ c'.
Proof.
  induction targets as [|t targets IH]; intros c c'; simpl.
  - intros [= <-]. split; [done|]. by intros t Ht%elem_of_nil.
  - destruct (add_candidates g c t) as [c1|] eqn:E; [|done].
    intros [Hsub Hin]%IH. apply add_candidates_mono in E.
    split; [set_solver|].
    intros t' [->|Ht']%elem_of_cons; [set_solver | by apply Hin].
Qed.

(** Whenever the list of targets holds an index outside [[0, num_faces)],
    the local detection reads [persistent_triangles] at that index. *)
Lemma invalid_target_aborts py_faces py_vertices targets g t :
  g.(is_initialized) = true ->
  Z.of_nat (length g.(persistent_triangles)) = g.(num_faces) ->
  t ∈ targets -> (t < 0 \/ t >= g.(num_faces)) ->
  detect_pierced_faces_local py_faces py_vertices targets g = None.
Proof.
  intros Hinit Hlen Ht Hbad. unfold detect_pierced_faces_local.
  rewrite Hinit. simpl.
  destruct (fold_opt (add_candidates g) targets ∅) as [c|] eqn:E; [|done].
  simpl. apply candidates_include_targets in E as [_ Hin].
  rewrite (fold_opt_None _ _ t); [done | by apply elem_of_ascending, Hin |].
  intros h. unfold test_candidate.
  destruct (at_ (persistent_triangles g) t) as [tri|] eqn:Et; [|done].
  apply at_Some in Et. lia.
Qed.

(** The update does skip an index outside the mesh: the vectors stay as
    they are. *)
Lemma update_face_skips py_faces py_vertices n tb i :
  i < 0 \/ i >= n -> update_face py_faces py_vertices n tb i = Some tb.
Proof. intros H. unfold update_face. by rewrite bool_decide_eq_true_2. Qed.

(** Moving the second triangle away, updating face 1 and detecting
    around it gives nothing. *)
Example moved_away_is_not_reported :
  (g ← initialize_spatial_index Inputs.crossing_faces
         Inputs.crossing_vertices uninitialized;
   g ← update_spatial_index Inputs.crossing_faces Inputs.moved_vertices [1] g;
   snd <$> detect_pierced_faces_local Inputs.crossing_faces
             Inputs.moved_vertices [1] g)
  = Some ([], ∅).
Proof. vm_compute. reflexivity. Qed.

(** C7, on the concrete index of two crossing faces.  The target list
    [[0; 5]] names face 5 of a mesh of two faces: the run reads the vectors
    at index 5 and has no result, where the list [[0]] alone gives the
    crossing. *)
Theorem invalid_target_is_not_skipped :
  exists g,
    initialize_spatial_index Inputs.crossing_faces Inputs.crossing_vertices
      uninitialized = Some g
    /\ g.(num_faces) = 2
    /\ detect_pierced_faces_local
         Inputs.crossing_faces Inputs.crossing_vertices [0; 5] g = None
    /\ snd <$> detect_pierced_faces_local
                 Inputs.crossing_faces Inputs.crossing_vertices [0] g
       = Some ([0; 1], {[ 0 := [1]; 1 := [0] ]}).
Proof.
  destruct (initialize_spatial_index Inputs.crossing_faces
              Inputs.crossing_vertices uninitialized) as [g|] eqn:E;
    [|by vm_compute in E].
  exists g. split; [done|].
  assert (Hn : num_faces g = 2) by (vm_compute in E; by injection E as <-).
  assert (Hi : is_initialized g = true)
    by (vm_compute in E; by injection E as <-).
  assert (Hl : Z.of_nat (length (persistent_triangles g)) = num_faces g)
    by (vm_compute in E; by injection E as <-).
  split; [done|]. split.
  - apply (invalid_target_aborts _ _ _ _ 5); [done | done | | lia].
    right. by left.
  - vm_compute in E. injection E as <-. vm_compute. reflexivity.
Qed.

(** C1, on the mesh of twenty-one faces.  Faces 0 and 1 both contain the
    point [(-1, -1, 0)], share no vertex and pass the separating-axis
    test.  The root has more than twenty faces and is split at
    [(1.5, 1.5, 0)]; face 0 lies in [x <= -1] with its centroid in the
    octant [y >= 1.5], face 1 in [y <= -1] with its centroid in the octant
    [x >= 1.5], so the box of neither face meets the cell of the other and
    the full detection never tests the pair.  The local detection over all
    faces tests every pair of candidates and reports it. *)
Theorem full_detection_differs_from_local_on_all_faces :
  let all_faces := seqZ 0 21 in
  detect_pierced_faces_with_timing Inputs.mesh21_faces Inputs.mesh21_vertices
    = Some ([], ∅)
  /\ (g ← initialize_spatial_index Inputs.mesh21_faces Inputs.mesh21_vertices
            uninitialized;
      snd <$> detect_pierced_faces_local
                Inputs.mesh21_faces Inputs.mesh21_vertices all_faces g)
     = Some ([0; 1], {[ 0 := [1]; 1 := [0] ]}).
Proof. split; vm_compute; reflexivity. Qed.

(** The two faces do intersect as far as the pair test goes. *)
Example mesh21_pair_passes_the_test :
  exists t0 t1,
    triangle_of Inputs.mesh21_faces Inputs.mesh21_vertices 0 = Some t0
    /\ triangle_of Inputs.mesh21_faces Inputs.mesh21_vertices 1 = Some t1
    /\ intersects (compute_triangle_aabb t0) (compute_triangle_aabb t1) = true
    /\ share_vertex t0 t1 = false
    /\ check_triangle_intersection t0 t1 = true.
Proof. do 2 eexists. repeat split; vm_compute; reflexivity. Qed.

End IncrementalFacts.

Module LocalFacts.
Import Pierced Basics PiercedFacts IncrementalFacts.

(** *** The accumulators only grow *)

Lemma record_hit_grows f g h a :
  f <> g -> nb h.(intersection_map) a ⊆ nb (record_hit f g h).(intersection_map) a.
Proof.
  intros Hfg. rewrite nb_record_hit by done.
  repeat case_decide; subst; set_solver.
Qed.

Lemma record_hit_has f g h :
  f <> g -> g ∈ nb (record_hit f g h).(intersection_map) f.
Proof.
  intros Hfg. rewrite nb_record_hit by done.
  repeat case_decide; subst; set_solver.
Qed.

Lemma recorded_nonempty triangles bboxes h :
  recorded triangles bboxes h ->
  forall f, f ∈ dom h.(intersection_map) ->
            exists g, g ∈ nb h.(intersection_map) f.
Proof.
  induction 1 as [|f0 g0 h _ IH [Hfg _]]; intros f.
  - simpl. set_solver.
  - rewrite dom_record_hit, nb_record_hit by done.
    intros Hf. repeat case_decide; subst.
    + exists f0. set_solver.
    + exists g0. set_solver.
    + apply IH. set_solver.
Qed.

Lemma nb_elem_dom (m : gmap Z (gset Z)) f g : g ∈ nb m f -> f ∈ dom m.
Proof.
  unfold nb. intros Hg. apply elem_of_dom.
  destruct (m !! f); [done | set_solver].
Qed.

(** *** The pair loop finds every pair on which the test passes *)

Lemma pair_loop_complete triangles bboxes f t1 b1 l :
  at_ triangles f = Some t1 ->
  at_ bboxes f = Some b1 ->
  forall h h',
    fold_opt (test_pair triangles bboxes f t1 b1) l h = Some h' ->
    (forall a, nb h.(intersection_map) a ⊆ nb h'.(intersection_map) a)
    /\ (forall g, g ∈ l -> pair_hit triangles bboxes f g ->
                  g ∈ nb h'.(intersection_map) f).
Proof.
  intros Ht1 Hb1. induction l as [|x l IH]; intros h h'; simpl.
  - intros [= <-]. split; [done|]. by intros g Hg%elem_of_nil.
  - destruct (test_pair triangles bboxes f t1 b1 h x) as [h1|] eqn:E; [|done].
    intros [Hmono Hall]%IH.
    destruct (test_pair_spec _ _ _ _ _ _ _ _ Ht1 Hb1 E)
      as [[Hp ->]|[Hnp ->]].
    + destruct Hp as [Hfx Hp]. split.
      * intros a. etrans; [by apply record_hit_grows | apply Hmono].
      * intros g [->|Hg]%elem_of_cons Hg'; [|by apply Hall].
        apply Hmono. by apply record_hit_has.
    + split; [done|].
      intros g [->|Hg]%elem_of_cons Hg'; [done | by apply Hall].
Qed.

Lemma candidate_loop_complete g triangles targets cands :
  index_of triangles g ->
  forall l h h',
    fold_opt (test_candidate g targets cands) l h = Some h' ->
    (forall a, nb h.(intersection_map) a ⊆ nb h'.(intersection_map) a)
    /\ (forall f x, f ∈ l -> f ∈ targets -> x ∈ cands ->
          pair_hit triangles (compute_triangle_aabb <$> triangles) f x ->
          x ∈ nb h'.(intersection_map) f).
Proof.
  intros [Ht Hb _ _ _]. induction l as [|f l IH]; intros h h'; simpl.
  - intros [= <-]. split; [done|]. by intros ? ? ?%elem_of_nil.
  - destruct (test_candidate g targets cands h f) as [h1|] eqn:E; [|done].
    intros [Hmono Hall]%IH. unfold test_candidate in E.
    rewrite Ht, Hb in E.
    destruct (at_ triangles f) as [t1|] eqn:Ht1; simpl in E; [|done].
    destruct (at_ (compute_triangle_aabb <$> triangles) f) as [b1|] eqn:Hb1;
      simpl in E; [|done].
    apply (pair_loop_complete _ _ _ _ _ _ Ht1 Hb1) in E as [Hmono1 Hall1].
    split; [intros a; etrans; [apply Hmono1 | apply Hmono]|].
    intros f' x [->|Hf']%elem_of_cons Htar Hx Hp; [|by eapply Hall].
    apply Hmono, Hall1; [|done]. by rewrite bool_decide_eq_true_2.
Qed.

Lemma candidate_loop_recorded g triangles targets cands :
  index_of triangles g ->
  forall l h h',
    recorded triangles (compute_triangle_aabb <$> triangles) h ->
    fold_opt (test_candidate g targets cands) l h = Some h' ->
    recorded triangles (compute_triangle_aabb <$> triangles) h'.
Proof.
  intros [Ht Hb _ _ _] l.
  apply (fold_opt_inv _
           (recorded triangles (compute_triangle_aabb <$> triangles))).
  intros h f h1 _ Hrec. unfold test_candidate. rewrite Ht, Hb.
  destruct (at_ triangles f) as [t1|] eqn:Ht1; simpl; [|done].
  destruct (at_ (compute_triangle_aabb <$> triangles) f) as [b1|] eqn:Hb1;
    simpl; [|done].
  apply fold_opt_inv; [|done].
  intros ? ? ? _. by apply test_pair_recorded.
Qed.


(** *** The candidates *)

Lemma find_potential_intersections_bound m face_bbox node :
  well_indexed m node ->
  forall c a,
    a ∈ find_potential_intersections face_bbox node c ->
    a ∈ c \/ 0 <= a < m.
Proof.
  induction node as [ce sz d fi ch IH] using OctreeNode_induction.
  intros Hwi c a. inversion Hwi as [? ? ? ? ? Hfi Hch]; subst. simpl.
  destruct (negb _); [by left|].
  destruct (forallb is_null ch).
  - rewrite elem_of_union, elem_of_list_to_set.
    intros [Ha|Ha]; [|by left]. right.
    rewrite Forall_forall in Hfi. by apply Hfi.
  - clear Hwi. revert c.
    induction IH as [|o ch Ho _ IHch]; intros c; [by left|].
    apply Forall_cons in Hch as [Hwo Hch].
    destruct o as [child|]; [|by apply IHch].
    intros Ha. apply (IHch Hch) in Ha as [Ha|Ha]; [|by right].
    by apply (Ho child eq_refl (Hwo child eq_refl)) in Ha.
Qed.

Lemma candidates_of_valid_targets g triangles targets :
  index_of triangles g ->
  Forall (fun t => 0 <= t < Z.of_nat (length triangles)) targets ->
  forall c,
    (forall a, a ∈ c -> 0 <= a < Z.of_nat (length triangles)) ->
    exists c',
      fold_opt (add_candidates g) targets c = Some c'
      /\ (forall t, t ∈ targets -> t ∈ c')
      /\ (forall a, a ∈ c' -> 0 <= a < Z.of_nat (length triangles)).
Proof.
  intros Hidx. pose proof Hidx as [Ht Hb _ Hn Ho].
  induction 1 as [|t targets Hvalid _ IH]; intros c Hc; simpl.
  - exists c. split; [done|]. split; [by intros ? ?%elem_of_nil | done].
  - assert (E : exists c1, add_candidates g c t = Some c1
                   /\ forall a, a ∈ c1 -> 0 <= a < Z.of_nat (length triangles)).
    { unfold add_candidates. rewrite Hn, Hb.
      rewrite bool_decide_eq_false_2 by lia.
      destruct (at_is_Some (compute_triangle_aabb <$> triangles) t)
        as [b ->]; [by rewrite length_fmap|]. simpl.
      destruct (persistent_octree g) as [root|] eqn:Er;
        eexists; (split; [done|]); intros a Ha.
      - apply (find_potential_intersections_bound _ _ _ (Ho _ eq_refl)) in Ha
          as [Ha|Ha]; [|done].
        apply elem_of_union in Ha as [->%elem_of_singleton|Ha];
          [done | by apply Hc].
      - apply elem_of_union in Ha as [->%elem_of_singleton|Ha];
          [done | by apply Hc]. }
    destruct E as (c1 & E & Hc1). rewrite E.
    destruct (IH c1 Hc1) as (c' & Hfold & Hin & Hc').
    exists c'. split; [done|]. split; [|done].
    intros t' [->|Ht']%elem_of_cons; [|by apply Hin].
    apply candidates_include_targets in Hfold as [Hsub _].
    apply Hsub. apply add_candidates_mono in E. set_solver.
Qed.

Lemma candidate_loop_is_Some g triangles targets cands :
  index_of triangles g ->
  Forall (fun t => 0 <= t < Z.of_nat (length triangles)) targets ->
  Forall (fun t => 0 <= t < Z.of_nat (length triangles)) cands ->
  forall l,
    Forall (fun t => 0 <= t < Z.of_nat (length triangles)) l ->
    forall h, is_Some (fold_opt (test_candidate g targets cands) l h).
Proof.
  intros [Ht Hb _ _ _] Htar Hcands l Hl.
  apply fold_opt_is_Some. intros h f Hf.
  rewrite Forall_forall in Hl. specialize (Hl f Hf).
  unfold test_candidate. rewrite Ht, Hb.
  destruct (at_is_Some triangles f Hl) as [t1 ->].
  destruct (at_is_Some (compute_triangle_aabb <$> triangles) f)
    as [b1 ->]; [by rewrite length_fmap|]. simpl.
  apply fold_opt_is_Some. intros h0 x Hx.
  assert (0 <= x < Z.of_nat (length triangles)).
  { rewrite Forall_forall in Htar, Hcands.
    case_bool_decide; [by apply Hcands | by apply Htar]. }
  apply test_pair_is_Some; apply at_is_Some; [done | by rewrite length_fmap].
Qed.

(** A run of the local detection on an index that holds the triangles,
    with targets inside the mesh: it returns, leaves the index as it is,
    records only pairs that pass the pair test, and records every such pair
    of two targets. *)
Lemma local_run py_faces py_vertices g triangles targets :
  index_of triangles g ->
  Forall (fun t => 0 <= t < Z.of_nat (length triangles)) targets ->
  exists h,
    detect_pierced_faces_local py_faces py_vertices targets g
      = Some (g, to_result h)
    /\ recorded triangles (compute_triangle_aabb <$> triangles) h
    /\ (forall f x, f ∈ targets -> x ∈ targets ->
          pair_hit triangles (compute_triangle_aabb <$> triangles) f x ->
          x ∈ nb h.(intersection_map) f).
Proof.
  intros Hidx Htar. unfold detect_pierced_faces_local.
  rewrite (index_initialized _ _ Hidx). simpl.
  destruct (candidates_of_valid_targets g triangles targets Hidx Htar ∅)
    as (c & -> & Hin & Hc); [set_solver|]. simpl.
  assert (Hcands : Forall (fun t => 0 <= t < Z.of_nat (length triangles))
                          (ascending c)).
  { apply Forall_forall. intros a Ha%elem_of_ascending. by apply Hc. }
  destruct (candidate_loop_is_Some g triangles targets (ascending c)
              Hidx Htar Hcands (ascending c) Hcands no_hits) as [h Hh].
  rewrite Hh. simpl. exists h. split; [done|]. split.
  - eapply candidate_loop_recorded; [done | constructor | done].
  - intros f x Hf Hx Hp.
    apply (candidate_loop_complete _ _ _ _ Hidx) in Hh as [_ Hall].
    apply Hall; [| done | | done]; by apply elem_of_ascending, Hin.
Qed.

(** A build leaves an index that holds the triangles of the mesh. *)
Lemma initialize_index_of py_faces py_vertices g0 g :
  initialize_spatial_index py_faces py_vertices g0 = Some g ->
  exists triangles,
    mapM (make_triangle py_vertices) py_faces = Some triangles
    /\ index_of triangles g.
Proof.
  unfold initialize_spatial_index.
  destruct (mapM _ py_faces) as [triangles|] eqn:Et; simpl; [|done].
  pose proof (length_mapM _ _ _ Et) as Hlen.
  destruct (build_root _ _) as [octree|] eqn:Eo; simpl; [|done].
  intros [= <-]. exists triangles. split; [done|].
  split; simpl; [done | done | done | by rewrite Hlen |].
  intros root [= <-]. unfold build_root in Eo.
  destruct (root_cell triangles) as [c sz].
  destruct (build_octree_ok 8 triangles (seqZ 0 (Z.of_nat (length py_faces)))
              c sz 0 20) as (node & Hnode & Hwi).
  { rewrite Hlen. apply seqZ_indices. }
  by simplify_eq.
Qed.

(** X9. On a mesh whose faces index the vertex table, every pair the
    full detection reports is reported by the local detection over all
    faces of a freshly built index, and so is every face. *)
Theorem local_over_all_faces_covers_full py_faces py_vertices :
  valid_mesh py_faces py_vertices = true ->
  exists faces map g faces' map',
    detect_pierced_faces_with_timing py_faces py_vertices = Some (faces, map)
    /\ initialize_spatial_index py_faces py_vertices uninitialized = Some g
    /\ detect_pierced_faces_local py_faces py_vertices
         (seqZ 0 (Z.of_nat (length py_faces))) g = Some (g, (faces', map'))
    /\ (forall f, f ∈ faces -> f ∈ faces')
    /\ (forall f x, x ∈ neighbours map f -> x ∈ neighbours map' f).
Proof.
  intros Hv.
  destruct (detect_is_Some _ _ Hv) as [[faces map] Hfull].
  destruct (triangles_is_Some _ _ Hv) as (triangles & Ht & Hlen).
  assert (Hinit : is_Some (initialize_spatial_index py_faces py_vertices
                             uninitialized)).
  { unfold initialize_spatial_index, detect_pierced_faces_with_timing in *.
    rewrite Ht in *. simpl in *.
    destruct (build_root _ _); [done | discriminate]. }
  destruct Hinit as [g Hg].
  destruct (initialize_index_of _ _ _ _ Hg) as (triangles' & Ht' & Hidx).
  assert (triangles' = triangles) as -> by congruence.
  destruct (local_run py_faces py_vertices g triangles
              (seqZ 0 (Z.of_nat (length py_faces))) Hidx)
    as (hl & Hlocal & Hrecl & Hcomplete).
  { rewrite Hlen. apply seqZ_indices. }
  exists faces, map, g, (to_result hl).1, (to_result hl).2.
  split; [done|]. split; [done|]. split; [by destruct (to_result hl)|].
  apply detect_inversion in Hfull as (triangles' & hf & Ht'' & Hrecf & Hres).
  assert (triangles' = triangles) as -> by congruence.
  injection Hres as -> ->.
  assert (Hsub : forall f x, x ∈ nb hf.(intersection_map) f ->
                             x ∈ nb hl.(intersection_map) f).
  { intros f x Hx.
    assert (Hrange : forall a b,
              pair_hit triangles (compute_triangle_aabb <$> triangles) a b ->
              a ∈ seqZ 0 (Z.of_nat (length py_faces))
              /\ b ∈ seqZ 0 (Z.of_nat (length py_faces))).
    { intros a b (_ & ? & ? & ? & ? & Ha & Hb & _).
      apply at_Some in Ha, Hb. rewrite !elem_of_seqZ. lia. }
    destruct (recorded_pairs _ _ _ Hrecf f x Hx) as [Hp|Hp];
      destruct (Hrange _ _ Hp); [by apply Hcomplete|].
    apply (recorded_symmetric _ _ _ Hrecl). by apply Hcomplete. }
  split.
  - intros f. simpl. rewrite !elem_of_ascending.
    rewrite <- (recorded_keys _ _ _ Hrecf), <- (recorded_keys _ _ _ Hrecl).
    intros Hf. destruct (recorded_nonempty _ _ _ Hrecf f Hf) as [x Hx].
    eapply nb_elem_dom, Hsub, Hx.
  - intros f x. change (ascending <$> intersection_map hf)
      with (to_result hf).2.
    change (ascending <$> intersection_map hl) with (to_result hl).2.
    rewrite !neighbours_to_result. apply Hsub.
Qed.

End LocalFacts.

Module QualityFacts.
Import Quality Basics.

(** *** Comparisons *)

Lemma flt_fle x y : (x <? y)%F = true -> (x <=? y)%F = true.
Proof.
  unfold flt, fle, SFltb, SFleb. by destruct (SFcompare x y) as [[]|].
Qed.

Lemma in_unit_clamp x : in_unit (fmin f1 (fmax f0 x)) = true.
Proof.
  unfold fmin, fmax, in_unit.
  destruct (f0 <? x)%F eqn:E0.
  - destruct (x <? f1)%F eqn:E1; [|done].
    by rewrite (flt_fle _ _ E0), (flt_fle _ _ E1).
  - done.
Qed.

Lemma clamp_is_clamp01 x : fmin f1 (fmax f0 x) = clamp01 x.
Proof. unfold fmin, fmax, clamp01. by destruct (f0 <? x)%F. Qed.

Lemma calculate_face_quality_in_unit vertices :
  in_unit (calculate_face_quality vertices) = true.
Proof.
  destruct vertices as [[v1 v2] v3]. unfold calculate_face_quality.
  destruct (_ <? tiny)%F; [done | apply in_unit_clamp].
Qed.

(** *** The loop over the faces *)

(** One round of the loop appends one quality and bumps one counter. *)
Lemma analyze_face_Some vertices threshold st i f st1 :
  analyze_face vertices threshold st i f = Some st1 ->
  exists q,
    in_unit q = true
    /\ st1.(quality_values) = st.(quality_values) ++ [q]
    /\ st1.(distribution) = bump (bin_label q) st.(distribution).
Proof.
  destruct f as [[i1 i2] i3]. unfold analyze_face.
  destruct (at_ vertices i1) as [p1|]; simpl; [|done].
  destruct (at_ vertices i2) as [p2|]; simpl; [|done].
  destruct (at_ vertices i3) as [p3|]; simpl; [|done].
  intros [= <-]. exists (calculate_face_quality (p1, p2, p3)).
  split; [apply calculate_face_quality_in_unit | done].
Qed.

Lemma analyze_faces_values vertices threshold faces :
  forall i st st',
    analyze_faces vertices threshold i faces st = Some st' ->
    Forall (fun q => in_unit q = true) st.(quality_values) ->
    Forall (fun q => in_unit q = true) st'.(quality_values).
Proof.
  induction faces as [|f faces IH]; intros i st st'; simpl.
  - by intros [= <-].
  - destruct (analyze_face vertices threshold st i f) as [st1|] eqn:E;
      simpl; [|done].
    intros Hrest Hst. apply (IH _ _ _ Hrest).
    apply analyze_face_Some in E as (q & Hq & -> & _).
    apply Forall_app. split; [done|]. by repeat constructor.
Qed.

Lemma min_element_In q rest : min_element q rest ∈ q :: rest.
Proof.
  unfold min_element. revert q.
  induction rest as [|p rest IH]; intros q; simpl; [by left|].
  destruct (p <? q)%F.
  - right. apply IH.
  - specialize (IH q). apply elem_of_cons in IH as [->|IH];
      [by left | by do 2 right].
Qed.

Lemma max_element_In q rest : max_element q rest ∈ q :: rest.
Proof.
  unfold max_element. revert q.
  induction rest as [|p rest IH]; intros q; simpl; [by left|].
  destruct (q <? p)%F.
  - right. apply IH.
  - specialize (IH q). apply elem_of_cons in IH as [->|IH];
      [by left | by do 2 right].
Qed.

(** C6. The quality of a triangle is the value the specification gives
    from its three side lengths: 0 when the Heron area is below 1e-10,
    else [2 r / R] brought into [[0, 1]]; it lies in [[0, 1]], and so do
    all values collected by the analysis and the minimum and maximum it
    reports. *)
Theorem face_quality_is_clamped :
  (forall v1 v2 v3,
      calculate_face_quality (v1, v2, v3)
      = spec_quality (edge_length v2 v3) (edge_length v1 v3)
                     (edge_length v1 v2)
      /\ in_unit (calculate_face_quality (v1, v2, v3)) = true)
  /\ (forall vertices faces threshold st,
         analyze_faces vertices threshold 0 faces
           (MkLoop [] [] empty_distribution) = Some st ->
         Forall (fun q => in_unit q = true) st.(quality_values)
         /\ in_unit (statistics (Z.of_nat (length faces)) st).(min_quality)
            = true
         /\ in_unit (statistics (Z.of_nat (length faces)) st).(max_quality)
            = true).
Proof.
  split.
  - intros v1 v2 v3. split; [|apply calculate_face_quality_in_unit].
    unfold calculate_face_quality, spec_quality.
    destruct (_ <? tiny)%F; [done | apply clamp_is_clamp01].
  - intros vertices faces threshold st Hst.
    assert (Hq : Forall (fun q => in_unit q = true) st.(quality_values))
      by (by apply (analyze_faces_values _ _ _ _ _ _ Hst)).
    split; [done|]. unfold statistics.
    destruct (quality_values st) as [|q rest]; [done|]. simpl.
    rewrite Forall_forall in Hq.
    split; apply Hq; [apply min_element_In | apply max_element_In].
Qed.

(** *** The histogram *)

Lemma bin_label_in_labels q : bin_label q ∈ labels.
Proof.
  unfold bin_label, labels.
  repeat (destruct (_ <? _)%F; [set_solver|]). set_solver.
Qed.

Lemma labels_NoDup : NoDup labels.
Proof. unfold labels. repeat (constructor; [set_solver|]). constructor. Qed.

Lemma total_bump_other ls l m :
  l ∉ ls ->
  foldr (fun k acc => default 0 (bump l m !! k) + acc) 0 ls
  = foldr (fun k acc => default 0 (m !! k) + acc) 0 ls.
Proof.
  induction ls as [|k ls IH]; intros Hl; simpl; [done|].
  apply not_elem_of_cons in Hl as [Hk Hl].
  unfold bump at 1. rewrite lookup_insert_ne by done. by rewrite IH.
Qed.

Lemma total_bump ls l m :
  NoDup ls -> l ∈ ls ->
  foldr (fun k acc => default 0 (bump l m !! k) + acc) 0 ls
  = foldr (fun k acc => default 0 (m !! k) + acc) 0 ls + 1.
Proof.
  induction ls as [|k ls IH]; intros Hnd Hl; [by inversion Hl|].
  apply NoDup_cons in Hnd as [Hk Hnd]. simpl.
  apply elem_of_cons in Hl as [->|Hl].
  - rewrite total_bump_other by done.
    unfold bump. rewrite lookup_insert_eq. simpl. lia.
  - rewrite IH by done. unfold bump at 1.
    rewrite lookup_insert_ne by (intros ->; done). lia.
Qed.

Lemma histogram_total_bump q m :
  histogram_total (bump (bin_label q) m) = histogram_total m + 1.
Proof.
  apply total_bump; [apply labels_NoDup | apply bin_label_in_labels].
Qed.

Lemma analyze_faces_total vertices threshold faces :
  forall i st st',
    analyze_faces vertices threshold i faces st = Some st' ->
    histogram_total st'.(distribution)
    = histogram_total st.(distribution) + Z.of_nat (length faces).
Proof.
  induction faces as [|f faces IH]; intros i st st'; simpl.
  - intros [= <-]. lia.
  - destruct (analyze_face vertices threshold st i f) as [st1|] eqn:E;
      simpl; [|done].
    intros Hrest. rewrite (IH _ _ _ Hrest).
    apply analyze_face_Some in E as (q & _ & _ & ->).
    rewrite histogram_total_bump. lia.
Qed.

Lemma analyze_faces_is_Some vertices threshold faces :
  valid_mesh faces vertices = true ->
  forall i st, is_Some (analyze_faces vertices threshold i faces st).
Proof.
  unfold valid_mesh.
  induction faces as [|f faces IH]; intros Hv i st; simpl; [done|].
  simpl in Hv. apply andb_true_iff in Hv as [Hf Hv].
  destruct f as [[a b] c]. unfold analyze_face.
  destruct (valid_face_rows vertices a b c Hf)
    as (p1 & p2 & p3 & -> & -> & ->).
  simpl. by apply IH.
Qed.

(** C10. On a mesh whose faces index the vertex table the analysis
    returns; every face has been counted in one bin, and the ten counts of
    [quality_distribution] sum to [total_faces], the number of faces. *)
Theorem histogram_sums_to_total_faces vertices faces threshold :
  valid_mesh faces vertices = true ->
  exists low stats,
    analyze_face_quality_with_timing vertices faces threshold
      = Some (low, stats)
    /\ stats.(total_faces) = Z.of_nat (length faces)
    /\ histogram_total stats.(quality_distribution) = stats.(total_faces).
Proof.
  intros Hv. unfold analyze_face_quality_with_timing.
  destruct (analyze_faces_is_Some vertices threshold faces Hv 0
              (MkLoop [] [] empty_distribution)) as [st Hst].
  rewrite Hst. simpl. do 2 eexists. split; [done|].
  pose proof (analyze_faces_total _ _ _ _ _ _ Hst) as Htot.
  unfold statistics.
  destruct (quality_values st) as [|q rest]; simpl; (split; [done|]);
    by rewrite Htot.
Qed.


(** The right triangle with legs 1 has quality [2 r / R = 0.828...] and
    falls in the bin "0.8-0.9"; the flat triangle has quality 0. *)
Example right_and_flat_histogram :
  exists low stats,
    analyze_face_quality_with_timing Inputs.right_and_flat_vertices
      Inputs.right_and_flat_faces (tenths 3) = Some (low, stats)
    /\ low = [1]
    /\ stats.(quality_distribution) !! "0.0-0.1" = Some 1
    /\ stats.(quality_distribution) !! "0.8-0.9" = Some 1.
Proof. do 2 eexists. repeat split; vm_compute; reflexivity. Qed.

Lemma histogram_sums_to_total_faces_witness :
  exists low stats,
    analyze_face_quality_with_timing Inputs.right_and_flat_vertices
      Inputs.right_and_flat_faces (tenths 3) = Some (low, stats)
    /\ stats.(total_faces) = 2
    /\ histogram_total stats.(quality_distribution) = stats.(total_faces).
Proof.
  apply (histogram_sums_to_total_faces Inputs.right_and_flat_vertices
           Inputs.right_and_flat_faces (tenths 3)).
  vm_compute. reflexivity.
Defined.

Lemma face_quality_is_clamped_witness :
  exists st,
    analyze_faces Inputs.right_and_flat_vertices (tenths 3) 0
      Inputs.right_and_flat_faces (MkLoop [] [] empty_distribution)
      = Some st
    /\ Forall (fun q => in_unit q = true) st.(quality_values).
Proof.
  eexists. split; [vm_compute; reflexivity|].
  eapply proj1, (proj2 face_quality_is_clamped
                   Inputs.right_and_flat_vertices
                   Inputs.right_and_flat_faces (tenths 3)).
  vm_compute. reflexivity.
Defined.

End QualityFacts.

Module AdjacentFacts.
Import Pierced Adjacent.

Lemma rule_as_coded (L d threshold : double) :
  (if (L <? eps)%D then (d <? eps)%D else (d / L <=? threshold)%D)
  = three_branch_rule L d threshold.
Proof.
  unfold three_branch_rule. by destruct (L <? eps)%D, (d <? eps)%D.
Qed.

Lemma is_adjacent_rule t1 t2 threshold :
  is_adjacent t1 t2 threshold
  = three_branch_rule
      (dmin (average_edge_length t1) (average_edge_length t2))
      (norm (vsub (centroid t1) (centroid t2))) threshold.
Proof. apply rule_as_coded. Qed.

(** What the inner loop adds: the pairs [(i, j + l)] for the faces at
    position [l] that have a triangle adjacent to the current one. *)
Lemma inner_loop_spec vertices threshold i tri faces :
  forall j acc p,
    p ∈ inner_loop vertices threshold i tri j faces acc <->
    p ∈ acc
    \/ exists (l : nat) f t,
         faces !! l = Some f /\ face_triangle vertices f = Some t
         /\ is_adjacent tri t threshold = true /\ p = (i, j + Z.of_nat l).
Proof.
  induction faces as [|f faces IH]; intros j acc p; simpl.
  - split; [by left|]. intros [?|(l & ? & ? & Hl & _)]; [done|].
    by rewrite lookup_nil in Hl.
  - rewrite IH. split.
    + intros [Hp|(l & f' & t & Hl & Hf & Ha & ->)].
      * destruct (face_triangle vertices f) as [t|] eqn:Ef; [|by left].
        destruct (is_adjacent tri t threshold) eqn:Ea; [|by left].
        apply elem_of_app in Hp as [Hp|Hp]; [by left|].
        apply list_elem_of_singleton in Hp as ->. right.
        exists 0%nat, f, t. repeat split; [done..|]. f_equal. lia.
      * right. exists (S l), f', t. repeat split; [done..|]. f_equal. lia.
    + intros [Hp|(l & f' & t & Hl & Hf & Ha & ->)].
      * left. destruct (face_triangle vertices f) as [t|]; [|done].
        destruct (is_adjacent tri t threshold); [|done].
        apply elem_of_app. by left.
      * destruct l as [|l]; simpl in Hl.
        -- injection Hl as ->. left. rewrite Hf, Ha.
           apply elem_of_app. right. apply list_elem_of_singleton.
           f_equal. lia.
        -- right. exists l, f', t. repeat split; [done..|]. f_equal. lia.
Qed.

(** What the outer loop adds: the pairs [(i + k, i + l)], [k < l], of
    faces that both have a triangle, the second adjacent to the first. *)
Lemma outer_loop_spec vertices threshold faces :
  forall i acc p,
    p ∈ outer_loop vertices threshold i faces acc <->
    p ∈ acc
    \/ exists (k l : nat) fk fl tk tl,
         faces !! k = Some fk /\ faces !! l = Some fl /\ (k < l)%nat
         /\ face_triangle vertices fk = Some tk
         /\ face_triangle vertices fl = Some tl
         /\ is_adjacent tk tl threshold = true
         /\ p = (i + Z.of_nat k, i + Z.of_nat l).
Proof.
  induction faces as [|f faces IH]; intros i acc p; simpl.
  - split; [by left|]. intros [?|(k & ? & ? & ? & ? & ? & Hk & _)]; [done|].
    by rewrite lookup_nil in Hk.
  - rewrite IH. split.
    + intros [Hp|(k & l & fk & fl & tk & tl & Hk & Hl & Hkl & Htk & Htl
                  & Ha & ->)].
      * destruct (face_triangle vertices f) as [t|] eqn:Ef; [|by left].
        apply inner_loop_spec in Hp as [Hp|(l & fl & tl & Hl & Htl & Ha & ->)];
          [by left|].
        right. exists 0%nat, (S l), f, fl, t, tl.
        repeat split; [done.. | lia | done | done | done |]. f_equal; lia.
      * right. exists (S k), (S l), fk, fl, tk, tl.
        repeat split; [done.. | lia | done | done | done |]. f_equal; lia.
    + intros [Hp|(k & l & fk & fl & tk & tl & Hk & Hl & Hkl & Htk & Htl
                  & Ha & ->)].
      * left. destruct (face_triangle vertices f) as [t|]; [|done].
        apply inner_loop_spec. by left.
      * destruct k as [|k]; simpl in Hk.
        -- injection Hk as ->. left. rewrite Htk.
           destruct l as [|l]; [lia|]. simpl in Hl.
           apply inner_loop_spec. right. exists l, fl, tl.
           repeat split; [done..|]. f_equal; lia.
        -- destruct l as [|l]; [lia|]. simpl in Hl.
           right. exists k, l, fk, fl, tk, tl.
           repeat split; [done.. | lia | done | done | done |]. f_equal; lia.
Qed.

(** C5. For two faces [i < j] whose vertex indices are all in range, with
    triangles [ti] and [tj], the pair [(i, j)] is in the result exactly when
    the three-branch rule holds of [L = min(avg_edge(i), avg_edge(j))],
    [d = |centroid(i) - centroid(j)|] and the threshold. *)
Theorem adjacent_pair_follows_the_rule
    vertices_array faces_array proximity_threshold i j fi fj ti tj :
  0 <= i < j ->
  at_ faces_array i = Some fi ->
  at_ faces_array j = Some fj ->
  face_triangle (promote <$> vertices_array) fi = Some ti ->
  face_triangle (promote <$> vertices_array) fj = Some tj ->
  (i, j) ∈ detect_adjacent_faces vertices_array faces_array proximity_threshold
  <->
  three_branch_rule
    (dmin (average_edge_length ti) (average_edge_length tj))
    (norm (vsub (centroid ti) (centroid tj))) proximity_threshold = true.
Proof.
  intros Hij Hi Hj Hti Htj. rewrite <- is_adjacent_rule.
  unfold detect_adjacent_faces. rewrite outer_loop_spec.
  unfold at_ in Hi, Hj.
  rewrite bool_decide_eq_true_2 in Hi by lia.
  rewrite bool_decide_eq_true_2 in Hj by lia.
  split.
  - intros [Hp|(k & l & fk & fl & tk & tl & Hk & Hl & Hkl & Htk & Htl
                & Ha & Hp)]; [by apply elem_of_nil in Hp|].
    injection Hp as -> ->. rewrite !Z.add_0_l, !Nat2Z.id in *.
    by simplify_eq.
  - intros Ha. right.
    exists (Z.to_nat i), (Z.to_nat j), fi, fj, ti, tj.
    repeat split; [done.. | lia | done | done | done |]. f_equal; lia.
Qed.


Lemma adjacent_pair_follows_the_rule_witness :
  (0, 1) ∈ detect_adjacent_faces Inputs.stacked_vertices Inputs.stacked_faces
             (lit 0.5).
Proof.
  apply (adjacent_pair_follows_the_rule
           Inputs.stacked_vertices Inputs.stacked_faces (lit 0.5)
           0 1 (0, 1, 2) (3, 4, 5) Inputs.stacked_lower Inputs.stacked_upper);
    [lia | vm_compute; reflexivity ..].
Defined.

(** The two triangles of the flat example are further apart than half
    their edge scale. *)
Example right_and_flat_not_adjacent :
  detect_adjacent_faces Inputs.right_and_flat_vertices
    Inputs.right_and_flat_faces (lit 0.5) = [].
Proof. vm_compute. reflexivity. Qed.

End AdjacentFacts.

Module OverlapFacts.
Import Overlap Basics.

(** *** Lookups *)

Lemma scan_Some edge_map key positions n :
  scan edge_map key positions = Some n ->
  exists entry, edge_map !! n = Some entry /\ finds key entry = true.
Proof.
  induction positions as [|p rest IH]; simpl; [done|].
  destruct (edge_map !! p) as [entry|] eqn:Ep; [|done].
  destruct (finds key entry) eqn:Ef; [|done].
  intros [= <-]. eauto.
Qed.

Lemma scan_None edge_map key positions :
  scan edge_map key positions = None ->
  forall n entry,
    n ∈ positions -> edge_map !! n = Some entry -> finds key entry = false.
Proof.
  induction positions as [|p rest IH]; simpl; intros Hs n entry Hn He.
  - by apply elem_of_nil in Hn.
  - destruct (edge_map !! p) as [entry'|] eqn:Ep.
    + destruct (finds key entry') eqn:Ef; [done|].
      apply elem_of_cons in Hn as [->|Hn]; [|by eapply IH].
      by simplify_eq.
    + apply elem_of_cons in Hn as [->|Hn]; [congruence | by eapply IH].
Qed.

Lemma slot_of_Some chain edge_map key n :
  slot_of chain edge_map key = Some n ->
  (n < length edge_map)%nat
  /\ exists entry, edge_map !! n = Some entry /\ finds key entry = true.
Proof.
  intros (entry & He & Hf)%scan_Some. split; [|by eauto].
  by eapply lookup_lt_Some.
Qed.

(** A lookup fails only when the key finds no entry: the chain holds
    every entry. *)
Lemma slot_of_None chain edge_map key :
  lawful chain ->
  slot_of chain edge_map key = None ->
  Forall (fun entry => finds key entry = false) edge_map.
Proof.
  intros Hc Hs. apply Forall_forall. intros entry Hin.
  apply list_elem_of_lookup in Hin as [n Hn].
  eapply (scan_None _ _ _ Hs n); [|done].
  rewrite (Hc edge_map.*1), length_fmap. apply elem_of_seq.
  apply lookup_lt_Some in Hn. lia.
Qed.

Lemma oldest_first_lawful : lawful oldest_first.
Proof. by intros keys. Qed.

Lemma newest_first_lawful : lawful newest_first.
Proof. intros keys. unfold newest_first. by rewrite reverse_Permutation. Qed.

(** *** One insertion *)

Lemma keys_push_back chain edge_map key ab :
  (push_back chain edge_map key ab).*1
  = edge_map.*1
    ++ (if slot_of chain edge_map key is Some _ then [] else [key]).
Proof.
  unfold push_back. destruct (slot_of chain edge_map key) as [n|].
  - rewrite app_nil_r.
    rewrite (list_fmap_alter fst _ id); [by rewrite list_alter_id|].
    by apply Forall_forall.
  - by rewrite fmap_app.
Qed.

Lemma length_push_back chain edge_map key ab :
  (length (push_back chain edge_map key ab) <= S (length edge_map))%nat.
Proof.
  unfold push_back. destruct (slot_of chain edge_map key) as [n|].
  - rewrite length_alter. lia.
  - rewrite length_app. simpl. lia.
Qed.

Lemma bucket_push_back chain edge_map key ab n :
  bucket (push_back chain edge_map key ab) n
  = bucket edge_map n
    ++ (if decide (default (length edge_map) (slot_of chain edge_map key) = n)
        then [ab] else []).
Proof.
  unfold bucket, push_back.
  destruct (slot_of chain edge_map key) as [n0|] eqn:Es; simpl.
  - apply slot_of_Some in Es as (Hlt & entry & He & _).
    case_decide as Hn.
    + subst n0. rewrite list_lookup_alter_eq, He. done.
    + rewrite list_lookup_alter_ne by done. by rewrite app_nil_r.
  - case_decide as Hn.
    + subst n. rewrite list_lookup_middle by done.
      rewrite (proj2 (lookup_ge_None edge_map (length edge_map))) by lia.
      done.
    + rewrite app_nil_r. destruct (decide (n < length edge_map)%nat).
      * by rewrite lookup_app_l.
      * rewrite !(proj2 (lookup_ge_None _ n)); [done | lia |].
        rewrite length_app. simpl. lia.
Qed.

Lemma appended_to_cons n s ab trace :
  appended_to n ((s, ab) :: trace)
  = (if decide (s = n) then [ab] else []) ++ appended_to n trace.
Proof.
  unfold appended_to. rewrite filter_cons. simpl.
  by repeat case_decide.
Qed.

(** *** All insertions *)

(** An entry holds the pairs that went to it, in insertion order. *)
Lemma collect_buckets chain keyed_edges :
  forall edge_map n,
    bucket (collect chain edge_map keyed_edges) n
    = bucket edge_map n
      ++ appended_to n (zip (choices chain edge_map keyed_edges)
                            keyed_edges.*2).
Proof.
  induction keyed_edges as [|[key ab] rest IH]; intros edge_map n; simpl.
  - unfold appended_to. simpl. by rewrite app_nil_r.
  - unfold collect in *. simpl. rewrite IH, bucket_push_back.
    rewrite appended_to_cons. by rewrite <- app_assoc.
Qed.

Lemma length_collect chain keyed_edges :
  forall edge_map,
    (length (collect chain edge_map keyed_edges)
     <= length edge_map + length keyed_edges)%nat.
Proof.
  unfold collect.
  induction keyed_edges as [|[key ab] rest IH]; intros edge_map; simpl;
    [lia|].
  pose proof (IH (push_back chain edge_map key ab)).
  pose proof (length_push_back chain edge_map key ab). lia.
Qed.

Lemma length_choices chain keyed_edges :
  forall edge_map,
    length (choices chain edge_map keyed_edges) = length keyed_edges.
Proof.
  induction keyed_edges as [|[key ab] rest IH]; intros edge_map; simpl;
    [done | by rewrite IH].
Qed.

Lemma finds_true key entry :
  finds key entry = true <->
  hash key = hash entry.1 /\ key_eq key entry.1 = true.
Proof.
  unfold finds. by rewrite andb_true_iff, bool_decide_eq_true.
Qed.

(** The lookups form the buckets. *)
Lemma choices_grouped chain keyed_edges :
  lawful chain ->
  forall edge_map,
    grouped edge_map.*1 keyed_edges.*1 (choices chain edge_map keyed_edges).
Proof.
  intros Hc.
  induction keyed_edges as [|[key ab] rest IH]; intros edge_map;
    cbn [choices fmap list_fmap grouped fst]; [done|].
  specialize (IH (push_back chain edge_map key ab)).
  rewrite keys_push_back in IH.
  destruct (slot_of chain edge_map key) as [n|] eqn:Es; cbn [default].
  - apply slot_of_Some in Es as (_ & [k0 pairs] & He & Hf).
    unfold id. rewrite list_lookup_fmap, He.
    cbn [fmap option_fmap option_map fst].
    rewrite app_nil_r in IH. split; [|done]. by apply finds_true in Hf.
  - rewrite (proj2 (lookup_ge_None edge_map.*1 (length edge_map)))
      by (rewrite length_fmap; lia).
    split; [by rewrite length_fmap|]. split; [|done].
    apply Forall_fmap.
    eapply Forall_impl; [by apply (slot_of_None chain)|].
    intros entry Hf Hyes. apply finds_true in Hyes. congruence.
Qed.

Lemma incidences_in_insertion_order faces :
  incidences faces = in_insertion_order faces.
Proof.
  unfold incidences, in_insertion_order.
  induction faces as [|[[a b] c] faces IH]; [done|].
  rewrite bind_cons, IH. reflexivity.
Qed.

(** *** The walk *)

Lemma lookups_of_all {A} (l pre : list A) :
  omap (fun n => (pre ++ l) !! n) (seq (length pre) (length l)) = l.
Proof.
  revert pre. induction l as [|a l IH]; intros pre; [done|].
  cbn [length seq omap list_omap]. rewrite list_lookup_middle by done.
  f_equal. specialize (IH (pre ++ [a])).
  rewrite <- app_assoc, length_app in IH. simpl in IH.
  by rewrite Nat.add_1_r in IH.
Qed.

Lemma walk_all chain edge_map :
  lawful chain -> walk chain edge_map ≡ₚ edge_map.
Proof.
  intros Hc. unfold walk. rewrite (Hc edge_map.*1), length_fmap.
  exact (reflexive_eq _ _ (lookups_of_all edge_map [])).
Qed.

Lemma elem_of_walk chain edge_map entry :
  entry ∈ walk chain edge_map -> entry ∈ edge_map.
Proof.
  unfold walk. intros (n & _ & Hn)%list_elem_of_omap.
  by eapply list_elem_of_lookup_2.
Qed.

Lemma emitted_beyond edge_map m :
  forall j,
    (length edge_map <= j)%nat ->
    omap (fun n => emitted (bucket edge_map n)) (seq j m) = [].
Proof.
  unfold bucket. induction m as [|m IH]; intros j Hj; [done|].
  cbn [seq omap list_omap].
  rewrite (proj2 (lookup_ge_None edge_map j)) by done.
  apply IH. lia.
Qed.

Lemma emitted_within edge_map :
  forall pre,
    omap (fun n => emitted (bucket (pre ++ edge_map) n))
         (seq (length pre) (length edge_map))
    = omap representative edge_map.
Proof.
  unfold bucket.
  induction edge_map as [|entry rest IH]; intros pre; [done|].
  cbn [length seq omap list_omap].
  rewrite list_lookup_middle by done.
  cbn [fmap option_fmap option_map default].
  change (emitted entry.2) with (representative entry).
  specialize (IH (pre ++ [entry])).
  rewrite <- app_assoc, length_app in IH. simpl in IH.
  rewrite Nat.add_1_r in IH. by rewrite IH.
Qed.

(** The entries give what their buckets give, and there is nothing
    beyond the last entry. *)
Lemma emitted_buckets edge_map m :
  (length edge_map <= m)%nat ->
  omap (fun n => emitted (bucket edge_map n)) (seq 0 m)
  = omap representative edge_map.
Proof.
  intros Hm. replace m with (length edge_map + (m - length edge_map))%nat
    by lia.
  rewrite seq_app, omap_app.
  pose proof (emitted_within edge_map []) as H. cbn [app length] in H.
  rewrite H.
  rewrite emitted_beyond by (simpl; lia). by rewrite app_nil_r.
Qed.

Lemma keyed_snd vertices edges keyed_edges :
  mapM (keyed vertices) edges = Some keyed_edges -> keyed_edges.*2 = edges.
Proof.
  intros H%mapM_Some. induction H as [|ab ke edges kes Hk _ IH]; [done|].
  simpl. f_equal; [|done]. unfold keyed in Hk.
  destruct (at_ vertices ab.1) as [[[? ?] ?]|]; simpl in Hk; [|done].
  destruct (at_ vertices ab.2) as [[[? ?] ?]|]; simpl in Hk; [|done].
  by injection Hk as <-.
Qed.

Lemma keyed_is_Some vertices faces :
  valid_mesh faces vertices = true ->
  is_Some (mapM (keyed vertices) (incidences faces)).
Proof.
  intros Hv. unfold valid_mesh in Hv. rewrite forallb_forall in Hv.
  apply mapM_is_Some, Forall_forall. intros ab Hab.
  unfold incidences in Hab. apply list_elem_of_bind in Hab as (f & Hab & Hf).
  apply list_elem_of_In, Hv in Hf. destruct f as [[a b] c].
  unfold valid_face in Hf.
  rewrite !andb_true_iff, !bool_decide_eq_true in Hf.
  destruct Hf as [[Ha Hb] Hc].
  assert (Hin : 0 <= ab.1 < Z.of_nat (length vertices)
                /\ 0 <= ab.2 < Z.of_nat (length vertices)).
  { unfold face_edges in Hab.
    repeat (apply elem_of_cons in Hab as [->|Hab]; [done|]).
    by apply elem_of_nil in Hab. }
  destruct Hin as [H1 H2]. unfold keyed. simpl.
  destruct (at_is_Some vertices _ H1) as [[[? ?] ?] ->].
  destruct (at_is_Some vertices _ H2) as [[[? ?] ?] ->].
  done.
Qed.

Lemma length_incidences faces :
  length (incidences faces) = (3 * length faces)%nat.
Proof.
  unfold incidences. induction faces as [|[[a b] c] faces IH]; [done|].
  rewrite bind_cons, length_app, IH. simpl. lia.
Qed.

(** C8. On a mesh whose faces index the vertex table, whatever the order
    in which the container chains its entries: the incidences, taken in
    insertion order (faces in index order, the edges of a face in the
    order [(v1,v2)], [(v2,v3)], [(v3,v1)]), fall into buckets, an
    incidence entering a bucket only when its key has the hash code of
    the key that opened it and compares equal to it, and opening a bucket
    only when that holds of no key that opened one; and the result holds,
    in some order, one edge for every bucket with more than two
    incidences and nothing else, the edge of a bucket being the first
    pair that went to it. *)
Theorem overlapping_edge_is_first_of_its_bucket
    chain vertices faces tolerance :
  lawful chain ->
  valid_mesh faces vertices = true ->
  exists keys slots out,
    mapM (keyed vertices) (in_insertion_order faces)
    = Some (zip keys (in_insertion_order faces))
    /\ length keys = length (in_insertion_order faces)
    /\ detect_overlapping_edges_with_timing chain vertices faces tolerance
       = Some out
    /\ grouped [] keys slots
    /\ out ≡ₚ omap (fun n => emitted (appended_to n
                              (zip slots (in_insertion_order faces))))
                   (seq 0 (length slots)).
Proof.
  intros Hc Hv. destruct (keyed_is_Some _ _ Hv) as [keyed_edges Hk].
  pose proof (keyed_snd _ _ _ Hk) as Hsnd.
  rewrite <- incidences_in_insertion_order.
  exists keyed_edges.*1, (choices chain [] keyed_edges).
  eexists. split.
  { rewrite Hk, <- Hsnd. f_equal. symmetry. apply zip_fst_snd. }
  split; [by rewrite <- Hsnd, !length_fmap|]. split.
  { unfold detect_overlapping_edges_with_timing. rewrite Hk. reflexivity. }
  split; [exact (choices_grouped chain keyed_edges Hc [])|].
  rewrite (walk_all chain _ Hc).
  rewrite <- (emitted_buckets _ (length (choices chain [] keyed_edges))).
  - apply reflexive_eq, list_omap_ext, Forall2_same_length_lookup.
    split; [done|]. intros i n n' Hn Hn'. simplify_eq.
    rewrite collect_buckets, Hsnd. reflexivity.
  - rewrite length_choices.
    exact (length_collect chain keyed_edges []).
Qed.

(** The edge shared by three faces is reported once, by the pair of the
    first face that brought it (the second face brings it as [(1, 0)]),
    with the entries chained from the oldest to the newest and from the
    newest to the oldest. *)
Example doubled_edge_is_reported :
  detect_overlapping_edges_with_timing oldest_first
    Inputs.doubled_edge_vertices Inputs.doubled_edge_faces (lit 1e-5)
  = Some [(0, 1)]
  /\ detect_overlapping_edges_with_timing newest_first
       Inputs.doubled_edge_vertices Inputs.doubled_edge_faces (lit 1e-5)
     = Some [(0, 1)].
Proof. split; vm_compute; reflexivity. Qed.

(** Where a key finds two entries the chain decides: the fourth key of
    this mesh finds the entries of the first and of the second face, which
    do not find each other, and the edge reported is that of the older
    entry with one chain and that of the newer with the other. *)
Example the_chain_decides :
  detect_overlapping_edges_with_timing oldest_first
    Inputs.twice_found_vertices Inputs.twice_found_faces (lit 1e-5)
  = Some [(1, 0)]
  /\ detect_overlapping_edges_with_timing newest_first
       Inputs.twice_found_vertices Inputs.twice_found_faces (lit 1e-5)
     = Some [(2, 0)].
Proof. split; vm_compute; reflexivity. Qed.

Lemma overlapping_edge_is_first_of_its_bucket_witness :
  exists keys slots out,
    mapM (keyed Inputs.doubled_edge_vertices)
         (in_insertion_order Inputs.doubled_edge_faces)
    = Some (zip keys (in_insertion_order Inputs.doubled_edge_faces))
    /\ length keys = length (in_insertion_order Inputs.doubled_edge_faces)
    /\ detect_overlapping_edges_with_timing newest_first
         Inputs.doubled_edge_vertices Inputs.doubled_edge_faces (lit 1e-5)
       = Some out
    /\ grouped [] keys slots
    /\ out ≡ₚ omap (fun n => emitted (appended_to n
                 (zip slots (in_insertion_order Inputs.doubled_edge_faces))))
                   (seq 0 (length slots)).
Proof.
  apply (overlapping_edge_is_first_of_its_bucket newest_first
           Inputs.doubled_edge_vertices Inputs.doubled_edge_faces (lit 1e-5)).
  - exact newest_first_lawful.
  - vm_compute. reflexivity.
Defined.

End OverlapFacts.

(** * Further properties of the code *)

(** ** The order of the comparisons *)

Module FloatOrder.
Import Numbers.

Lemma SFcompare_rank a b :
  is_nan a = false -> is_nan b = false ->
  (SFcompare a b = Some Lt <-> below (rank a) (rank b))
  /\ (SFcompare a b = Some Eq <-> rank a = rank b)
  /\ (SFcompare a b = Some Gt <-> below (rank b) (rank a)).
Proof.
  unfold below.
  destruct a as [sa|[]| |[] ma ea], b as [sb|[]| |[] mb eb];
    try discriminate; intros _ _; simpl;
    try (repeat split; intros H; try discriminate; try lia; try (injection H; lia); fail).
  all: rewrite ?Pos.compare_cont_spec; simpl.
  all: destruct (Z.compare_spec ea eb) as [He|He|He];
    try destruct (Pos.compare_spec ma mb) as [Hm|Hm|Hm]; simpl;
    repeat split; intros H; try discriminate; try reflexivity;
    try lia; try (injection H; lia); try (subst; reflexivity).
Qed.

Lemma ltb_spec a b :
  SFltb a b = true <->
  is_nan a = false /\ is_nan b = false /\ below (rank a) (rank b).
Proof.
  unfold SFltb. split.
  - destruct (SFcompare a b) as [[]|] eqn:E; try discriminate. intros _.
    assert (is_nan a = false /\ is_nan b = false) as [Ha Hb]
      by (by destruct a as [| | |], b as [| | |]).
    split; [done|]. split; [done|].
    by apply (SFcompare_rank a b Ha Hb).
  - intros (Ha & Hb & H). apply (SFcompare_rank a b Ha Hb) in H.
    by rewrite H.
Qed.

Lemma leb_spec a b :
  SFleb a b = true <->
  is_nan a = false /\ is_nan b = false
  /\ (below (rank a) (rank b) \/ rank a = rank b).
Proof.
  unfold SFleb. split.
  - destruct (SFcompare a b) as [[]|] eqn:E; try discriminate; intros _;
      (assert (is_nan a = false /\ is_nan b = false) as [Ha Hb]
         by (by destruct a as [| | |], b as [| | |]));
      (split; [done|]); (split; [done|]);
      [right | left]; by apply (SFcompare_rank a b Ha Hb).
  - intros (Ha & Hb & [H|H]); apply (SFcompare_rank a b Ha Hb) in H;
      by rewrite H.
Qed.

(** Numbers that are not NaN are totally ordered. *)
Lemma rank_total a b :
  below (rank a) (rank b) \/ rank a = rank b \/ below (rank b) (rank a).
Proof.
  unfold below. destruct (rank a) as [[a1 a2] a3], (rank b) as [[b1 b2] b3].
  simpl.
  destruct (Z.lt_trichotomy a1 b1) as [?|[?|?]]; [lia | | lia].
  destruct (Z.lt_trichotomy a2 b2) as [?|[?|?]]; [lia | | lia].
  destruct (Z.lt_trichotomy a3 b3) as [?|[?|?]]; [lia | | lia].
  right. left. congruence.
Qed.

Ltac ranks :=
  unfold below in *;
  repeat match goal with
         | |- context [rank ?a] =>
             let r := fresh "r" in
             let E := fresh "E" in
             destruct (rank a) as [[? ?] ?] eqn:E; clear E
         | H : context [rank ?a] |- _ =>
             let E := fresh "E" in
             destruct (rank a) as [[? ?] ?] eqn:E; clear E
         end;
  simpl in *;
  repeat match goal with
         | H : (_, _, _) = (_, _, _) |- _ => injection H as ? ? ?
         end;
  try lia.

Lemma leb_refl a : is_nan a = false -> SFleb a a = true.
Proof. intros H. apply leb_spec. auto. Qed.

Lemma leb_trans a b c :
  SFleb a b = true -> SFleb b c = true -> SFleb a c = true.
Proof.
  rewrite !leb_spec. intros (Ha & Hb & H1) (_ & Hc & H2).
  split; [done|]. split; [done|].
  destruct H1 as [H1|H1], H2 as [H2|H2];
    [left | left | left | right]; try congruence; ranks.
  all: rewrite <- ?H1, ?H2 in *; try done.
Qed.

Lemma ltb_leb a b : SFltb a b = true -> SFleb a b = true.
Proof. rewrite ltb_spec, leb_spec. intuition. Qed.

Lemma leb_not_nan a b :
  SFleb a b = true -> is_nan a = false /\ is_nan b = false.
Proof. rewrite leb_spec. intuition. Qed.

Lemma ltb_not_nan a b :
  SFltb a b = true -> is_nan a = false /\ is_nan b = false.
Proof. rewrite ltb_spec. intuition. Qed.

(** Where neither number is a NaN, [a <= b] is the negation of
    [b < a]. *)
Lemma not_ltb_leb a b :
  is_nan a = false -> is_nan b = false ->
  SFltb b a = false -> SFleb a b = true.
Proof.
  intros Ha Hb H. apply leb_spec. split; [done|]. split; [done|].
  destruct (rank_total a b) as [?|[?|Hgt]]; [by left | by right |].
  assert (SFltb b a = true) by (by apply ltb_spec). congruence.
Qed.

Lemma leb_not_ltb a b : SFleb a b = true -> SFltb b a = false.
Proof.
  intros (Ha & Hb & H)%leb_spec.
  destruct (SFltb b a) eqn:E; [|done].
  apply ltb_spec in E as (_ & _ & E). exfalso.
  destruct H as [H|H]; [|rewrite H in E]; ranks.
Qed.

Lemma ltb_irrefl a : SFltb a a = false.
Proof.
  destruct (SFltb a a) eqn:E; [|done].
  apply ltb_spec in E as (_ & _ & E). exfalso. ranks.
Qed.

Lemma leb_ltb_trans a b c :
  SFleb a b = true -> SFltb b c = true -> SFltb a c = true.
Proof.
  rewrite leb_spec, !ltb_spec. intros (Ha & Hb & H1) (_ & Hc & H2).
  split; [done|]. split; [done|].
  destruct H1 as [H1|H1]; [|by rewrite H1]. ranks.
Qed.

Lemma ltb_leb_trans a b c :
  SFltb a b = true -> SFleb b c = true -> SFltb a c = true.
Proof.
  rewrite leb_spec, !ltb_spec. intros (Ha & Hb & H1) (_ & Hc & H2).
  split; [done|]. split; [done|].
  destruct H2 as [H2|H2]; [|by rewrite <- H2]. ranks.
Qed.

(** *** [std::min] and [std::max] *)

(** The first argument decides whether the result is a NaN. *)
Lemma dmin_nan a b : is_nan (dmin a b) = is_nan a.
Proof.
  unfold dmin, dlt. destruct (SFltb b a) eqn:E; [|done].
  apply ltb_not_nan in E as [-> ->]. done.
Qed.

Lemma dmax_nan a b : is_nan (dmax a b) = is_nan a.
Proof.
  unfold dmax, dlt. destruct (SFltb a b) eqn:E; [|done].
  apply ltb_not_nan in E as [-> ->]. done.
Qed.

Lemma dmin_le_l a b : is_nan a = false -> dle (dmin a b) a = true.
Proof.
  intros Ha. unfold dmin, dlt, dle.
  destruct (SFltb b a) eqn:E; [by apply ltb_leb | by apply leb_refl].
Qed.

Lemma dmin_le_r a b :
  is_nan a = false -> is_nan b = false -> dle (dmin a b) b = true.
Proof.
  intros Ha Hb. unfold dmin, dlt, dle.
  destruct (SFltb b a) eqn:E; [by apply leb_refl | by apply not_ltb_leb].
Qed.

Lemma dmax_ge_l a b : is_nan a = false -> dle a (dmax a b) = true.
Proof.
  intros Ha. unfold dmax, dlt, dle.
  destruct (SFltb a b) eqn:E; [by apply ltb_leb | by apply leb_refl].
Qed.

Lemma dmax_ge_r a b :
  is_nan a = false -> is_nan b = false -> dle b (dmax a b) = true.
Proof.
  intros Ha Hb. unfold dmax, dlt, dle.
  destruct (SFltb a b) eqn:E; [by apply leb_refl | by apply not_ltb_leb].
Qed.

End FloatOrder.

Module AlikeFacts.
Import Numbers FloatOrder Alike.

Lemma rank_alike a b :
  is_nan a = false -> is_nan b = false -> rank a = rank b -> alike a b.
Proof.
  unfold alike.
  destruct a as [s|[]| |[] m e], b as [t|[]| |[] m' e']; try done;
    intros _ _; simpl; try (by eauto); intros [= ? ?]; left; f_equal; lia.
Qed.

Lemma dmin_alike a b :
  is_nan a = false -> is_nan b = false -> alike (dmin a b) (dmin b a).
Proof.
  intros Ha Hb. unfold dmin, dlt.
  destruct (SFltb b a) eqn:E1, (SFltb a b) eqn:E2; try by left.
  - apply ltb_spec in E1 as (_ & _ & E1). apply ltb_spec in E2 as (_ & _ & E2).
    exfalso. ranks.
  - apply rank_alike; [done..|].
    destruct (rank_total a b) as [H|[H|H]]; [|done|].
    + assert (SFltb a b = true) by (by apply ltb_spec). congruence.
    + assert (SFltb b a = true) by (by apply ltb_spec). congruence.
Qed.

Lemma dmax_alike a b :
  is_nan a = false -> is_nan b = false -> alike (dmax a b) (dmax b a).
Proof.
  intros Ha Hb. unfold dmax, dlt.
  destruct (SFltb b a) eqn:E1, (SFltb a b) eqn:E2; try by left.
  - apply ltb_spec in E1 as (_ & _ & E1). apply ltb_spec in E2 as (_ & _ & E2).
    exfalso. ranks.
  - apply rank_alike; [done..|].
    destruct (rank_total a b) as [H|[H|H]]; [|done|].
    + assert (SFltb a b = true) by (by apply ltb_spec). congruence.
    + assert (SFltb b a = true) by (by apply ltb_spec). congruence.
Qed.

End AlikeFacts.

(** ** Bounding boxes *)

Module BoxFacts.
Import Pierced Numbers Boxes FloatOrder.

(** The running minimum and maximum over the three vertices, one
    coordinate at a time. *)
Lemma min3_le (a b c : double) :
  is_nan a = false -> is_nan b = false -> is_nan c = false ->
  dle (dmin (dmin a b) c) a = true
  /\ dle (dmin (dmin a b) c) b = true
  /\ dle (dmin (dmin a b) c) c = true.
Proof.
  intros Ha Hb Hc.
  assert (Hab : is_nan (dmin a b) = false) by (by rewrite dmin_nan).
  repeat split.
  - apply (leb_trans _ (dmin a b)); by apply dmin_le_l.
  - apply (leb_trans _ (dmin a b)); [by apply dmin_le_l | by apply dmin_le_r].
  - by apply dmin_le_r.
Qed.

Lemma max3_ge (a b c : double) :
  is_nan a = false -> is_nan b = false -> is_nan c = false ->
  dle a (dmax (dmax a b) c) = true
  /\ dle b (dmax (dmax a b) c) = true
  /\ dle c (dmax (dmax a b) c) = true.
Proof.
  intros Ha Hb Hc.
  assert (Hab : is_nan (dmax a b) = false) by (by rewrite dmax_nan).
  repeat split.
  - apply (leb_trans _ (dmax a b)); by apply dmax_ge_l.
  - apply (leb_trans _ (dmax a b)); [by apply dmax_ge_r | by apply dmax_ge_l].
  - by apply dmax_ge_r.
Qed.

(** X5. The box of a triangle without NaN coordinates contains its three
    vertices. *)
Theorem aabb_contains_the_vertices t :
  no_nan_triangle t = true ->
  Forall (fun v => inside (compute_triangle_aabb t) v = true) (vertices t).
Proof.
  destruct t as [[ax ay az] [bx b_y bz] [cx cy cz]].
  unfold no_nan_triangle, no_nan, vertices. simpl.
  rewrite !andb_true_iff, !negb_true_iff.
  intros ([[Hax Hay] Haz] & [[Hbx Hby] Hbz] & [[Hcx Hcy] Hcz] & _).
  destruct (min3_le ax bx cx) as (? & ? & ?); [done..|].
  destruct (min3_le ay b_y cy) as (? & ? & ?); [done..|].
  destruct (min3_le az bz cz) as (? & ? & ?); [done..|].
  destruct (max3_ge ax bx cx) as (? & ? & ?); [done..|].
  destruct (max3_ge ay b_y cy) as (? & ? & ?); [done..|].
  destruct (max3_ge az bz cz) as (? & ? & ?); [done..|].
  unfold inside, compute_triangle_aabb. simpl.
  repeat constructor; rewrite !andb_true_iff; repeat split; assumption.
Qed.

Lemma aabb_contains_the_vertices_witness :
  Forall (fun v => inside (compute_triangle_aabb Inputs.sliver_a) v = true)
         (vertices Inputs.sliver_a).
Proof. apply aabb_contains_the_vertices. vm_compute. reflexivity. Defined.

(** X6. Two boxes that hold a common point intersect. *)
Theorem boxes_with_a_common_point_intersect b1 b2 p :
  inside b1 p = true -> inside b2 p = true -> intersects b1 b2 = true.
Proof.
  unfold inside, intersects. rewrite !andb_true_iff.
  intros [[[[[? ?] ?] ?] ?] ?] [[[[[? ?] ?] ?] ?] ?].
  repeat split; eapply leb_trans; eassumption.
Qed.

Lemma boxes_with_a_common_point_intersect_witness :
  intersects (compute_triangle_aabb Inputs.sliver_a)
             (Box (v0 Inputs.sliver_a) (v0 Inputs.sliver_a)) = true.
Proof.
  apply (boxes_with_a_common_point_intersect _ _ (v0 Inputs.sliver_a));
    vm_compute; reflexivity.
Defined.

End BoxFacts.

(** ** The separating-axis test on one triangle *)

Module AxisFacts.
Import Pierced Numbers Boxes FloatOrder.

(** The projection interval of a triangle is never inverted: its upper
    end is not below its lower end, whatever the coordinates. *)
Lemma project_triangle_ordered t axis :
  (snd (project_triangle t axis) <? fst (project_triangle t axis))%D = false.
Proof.
  unfold project_triangle. simpl.
  set (p0 := dot axis (v0 t)). set (p1 := dot axis (v1 t)).
  set (p2 := dot axis (v2 t)). unfold dlt.
  destruct (is_nan p0) eqn:E.
  - destruct (SFltb _ _) eqn:F; [|done].
    apply ltb_not_nan in F as [F _]. by rewrite !dmax_nan, E in F.
  - apply leb_not_ltb. apply (leb_trans _ p0).
    + apply (leb_trans _ (dmin p0 p1)); apply dmin_le_l;
        [by rewrite dmin_nan | done].
    + apply (leb_trans _ (dmax p0 p1)); apply dmax_ge_l;
        [done | by rewrite dmax_nan].
Qed.

Lemma check_separation_self t axis : check_separation t t axis = false.
Proof.
  unfold check_separation. destruct (isZero axis); [done|].
  pose proof (project_triangle_ordered t axis) as H.
  destruct (project_triangle t axis) as [mn mx]. simpl in H.
  by rewrite H.
Qed.

Lemma existsb_none {A} (f : A -> bool) l :
  (forall a, f a = false) -> existsb f l = false.
Proof. intros H. induction l as [|a l IH]; simpl; [done | by rewrite H]. Qed.

(** X4. The separating-axis test never separates a triangle from itself:
    [check_triangle_intersection(t, t)] is [true] for every triangle,
    degenerate ones and ones with infinite or NaN coordinates included. *)
Theorem a_triangle_intersects_itself t :
  check_triangle_intersection t t = true.
Proof.
  unfold check_triangle_intersection.
  rewrite !check_separation_self, !andb_false_r.
  replace (edge_axis_separates t t) with false; [done|].
  unfold edge_axis_separates. symmetry.
  apply existsb_none. intros e1. apply existsb_none. intros e2.
  by rewrite check_separation_self, andb_false_r.
Qed.

End AxisFacts.

(** ** What the full detection reports *)

Module DetectionFacts.
Import Pierced Basics PiercedFacts IncrementalFacts LocalFacts.

Lemma intersects_sym a b : intersects a b = intersects b a.
Proof.
  unfold intersects.
  destruct (dle (x (bmin a)) (x (bmax b))), (dle (x (bmin b)) (x (bmax a))),
    (dle (y (bmin a)) (y (bmax b))), (dle (y (bmin b)) (y (bmax a))),
    (dle (z (bmin a)) (z (bmax b))), (dle (z (bmin b)) (z (bmax a)));
    reflexivity.
Qed.

(** What a pair that passed the pair test says about the two faces of
    the mesh the triangles were read from. *)
Lemma pair_hit_faces py_faces py_vertices triangles f g :
  mapM (make_triangle py_vertices) py_faces = Some triangles ->
  pair_hit triangles (compute_triangle_aabb <$> triangles) f g ->
  f <> g
  /\ exists t1 t2,
       triangle_of py_faces py_vertices f = Some t1
       /\ triangle_of py_faces py_vertices g = Some t2
       /\ intersects (compute_triangle_aabb t1) (compute_triangle_aabb t2) = true
       /\ share_vertex t1 t2 = false
       /\ check_triangle_intersection t1 t2 = true.
Proof.
  intros Ht (Hne & t1 & t2 & b1 & b2 & H1 & H2 & Hb1 & Hb2 & Hi & Hs & Hc).
  split; [done|]. exists t1, t2.
  rewrite at_fmap, H1 in Hb1. rewrite at_fmap, H2 in Hb2. simpl in *.
  simplify_eq.
  unfold triangle_of. rewrite <- !(mapM_at _ _ _ _ Ht). done.
Qed.

(** X1. Every pair the full detection reports passed the pair test: the
    faces are two different faces of the mesh, their boxes meet, they share
    no vertex, and the separating-axis test found no separating axis, with
    the triangles taken in one order or the other. *)
Theorem reported_pair_passed_the_test
    py_faces py_vertices faces map f g :
  detect_pierced_faces_with_timing py_faces py_vertices = Some (faces, map) ->
  g ∈ neighbours map f ->
  f <> g
  /\ exists t1 t2,
       triangle_of py_faces py_vertices f = Some t1
       /\ triangle_of py_faces py_vertices g = Some t2
       /\ intersects (compute_triangle_aabb t1) (compute_triangle_aabb t2) = true
       /\ share_vertex t1 t2 = false
       /\ (check_triangle_intersection t1 t2 = true
           \/ check_triangle_intersection t2 t1 = true).
Proof.
  intros Hr Hg.
  apply detect_inversion in Hr as (triangles & h & Ht & Hrec & Hres).
  injection Hres as -> ->.
  change (ascending <$> intersection_map h) with (to_result h).2 in Hg.
  apply neighbours_to_result in Hg.
  destruct (recorded_pairs _ _ _ Hrec f g Hg) as [Hp|Hp];
    destruct (pair_hit_faces _ _ _ _ _ Ht Hp)
      as (Hne & t1 & t2 & H1 & H2 & Hi & Hs & Hc).
  - split; [done|]. exists t1, t2. auto 10.
  - split; [done|]. exists t2, t1.
    rewrite intersects_sym, share_vertex_sym. auto 10.
Qed.

Lemma reported_pair_passed_the_test_witness :
  0 <> 1
  /\ exists t1 t2,
       triangle_of Inputs.crossing_faces Inputs.crossing_vertices 0 = Some t1
       /\ triangle_of Inputs.crossing_faces Inputs.crossing_vertices 1 = Some t2
       /\ intersects (compute_triangle_aabb t1) (compute_triangle_aabb t2) = true
       /\ share_vertex t1 t2 = false
       /\ (check_triangle_intersection t1 t2 = true
           \/ check_triangle_intersection t2 t1 = true).
Proof.
  apply (reported_pair_passed_the_test
           Inputs.crossing_faces Inputs.crossing_vertices
           [0; 1] {[ 0 := [1]; 1 := [0] ]}).
  - vm_compute. reflexivity.
  - vm_compute. left.
Defined.

(** *** A mesh of at most twenty faces *)

(** With at most [min_faces] faces the root is a leaf that holds every
    face. *)
Lemma small_root triangles m :
  (m <= 20)%nat ->
  exists c s,
    build_root triangles (Z.of_nat m)
    = Some (Node c s 0 (seqZ 0 (Z.of_nat m)) (replicate 8 None)).
Proof.
  intros Hm. unfold build_root. destruct (root_cell triangles) as [c s].
  exists c, s. rewrite build_octree_step.
  rewrite bool_decide_eq_true_2; [done|]. rewrite length_seqZ. lia.
Qed.

Lemma leaf_queries_complete triangles c s d fi l :
  forall h h',
    fold_opt (fun h f =>
                query_octree triangles (compute_triangle_aabb <$> triangles)
                  (Node c s d fi (replicate 8 None)) f h) l h = Some h' ->
    (forall a, nb h.(intersection_map) a ⊆ nb h'.(intersection_map) a)
    /\ (forall f g, f ∈ l -> g ∈ fi ->
          pair_hit triangles (compute_triangle_aabb <$> triangles) f g ->
          g ∈ nb h'.(intersection_map) f).
Proof.
  induction l as [|f l IH]; intros h h'; simpl.
  - intros [= <-]. split; [done|]. by intros ? ? ?%elem_of_nil.
  - destruct (at_ triangles f) as [t1|] eqn:Ht1; simpl; [|done].
    destruct (at_ (compute_triangle_aabb <$> triangles) f) as [b1|] eqn:Hb1;
      simpl; [|done].
    destruct (fold_opt (test_pair _ _ f t1 b1) fi h) as [h1|] eqn:E; [|done].
    intros [Hmono Hall]%IH.
    apply (pair_loop_complete _ _ _ _ _ _ Ht1 Hb1) in E as [Hmono1 Hall1].
    split; [intros a; etrans; [apply Hmono1 | apply Hmono]|].
    intros f' g [->|Hf']%elem_of_cons Hg Hp; [|by eapply Hall].
    by apply Hmono, Hall1.
Qed.

(** X2. On a mesh of at most twenty faces the full detection tests every
    pair: [g] is in [map[f]] exactly when the pair test passes on the two
    faces, in one order or the other. *)
Theorem small_mesh_detection_is_exhaustive py_faces py_vertices :
  valid_mesh py_faces py_vertices = true ->
  (length py_faces <= 20)%nat ->
  exists faces map triangles,
    detect_pierced_faces_with_timing py_faces py_vertices = Some (faces, map)
    /\ mapM (make_triangle py_vertices) py_faces = Some triangles
    /\ forall f g,
         g ∈ neighbours map f <->
         pair_hit triangles (compute_triangle_aabb <$> triangles) f g
         \/ pair_hit triangles (compute_triangle_aabb <$> triangles) g f.
Proof.
  intros Hv Hm.
  destruct (triangles_is_Some _ _ Hv) as (triangles & Ht & Hlen).
  destruct (detect_is_Some _ _ Hv) as [r Hr].
  unfold detect_pierced_faces_with_timing in *. rewrite Ht in *.
  cbn [mbind option_bind] in *.
  destruct (small_root triangles (length py_faces) Hm) as (c & s & Hroot).
  rewrite Hroot in *. cbn [mbind option_bind] in *.
  destruct (fold_opt _ _ no_hits) as [h|] eqn:E; [|done]. clear Hr.
  exists (to_result h).1, (to_result h).2, triangles.
  split; [reflexivity|]. split; [done|].
  assert (Hrec : recorded triangles (compute_triangle_aabb <$> triangles) h).
  { revert E. apply fold_opt_inv; [|constructor].
    intros h0 f h1 _. apply query_octree_recorded. }
  intros f g. rewrite neighbours_to_result.
  split; [by apply recorded_pairs|].
  apply leaf_queries_complete in E as [_ Hall].
  assert (Hrange : forall a b,
            pair_hit triangles (compute_triangle_aabb <$> triangles) a b ->
            a ∈ seqZ 0 (Z.of_nat (length py_faces))
            /\ b ∈ seqZ 0 (Z.of_nat (length py_faces))).
  { intros a b (_ & ? & ? & ? & ? & Ha & Hb & _).
    apply at_Some in Ha, Hb. rewrite !elem_of_seqZ. lia. }
  intros [Hp|Hp]; destruct (Hrange _ _ Hp).
  - by apply Hall.
  - apply (recorded_symmetric _ _ _ Hrec). by apply Hall.
Qed.

Lemma small_mesh_detection_is_exhaustive_witness :
  exists faces map triangles,
    detect_pierced_faces_with_timing
      Inputs.touching_faces Inputs.touching_vertices = Some (faces, map)
    /\ mapM (make_triangle Inputs.touching_vertices) Inputs.touching_faces
       = Some triangles
    /\ forall f g,
         g ∈ neighbours map f <->
         pair_hit triangles (compute_triangle_aabb <$> triangles) f g
         \/ pair_hit triangles (compute_triangle_aabb <$> triangles) g f.
Proof.
  apply small_mesh_detection_is_exhaustive;
    [vm_compute; reflexivity | simpl; lia].
Defined.

End DetectionFacts.

(** ** Faces with a common vertex *)

Module SharedVertexFacts.
Import Pierced Basics PiercedFacts Counting Finite.

Lemma dsub_self (a : double) : is_finite a = true -> (a - a)%D = zero.
Proof.
  destruct a as [[]| | |s m e]; try done. intros _.
  unfold dsub, SFsub. rewrite Z.min_id. unfold shl_align.
  rewrite Z.sub_diag. cbn [fst].
  replace (cond_Zopp s (Z.pos m) + cond_Zopp (negb s) (Z.pos m)) with 0
    by (destruct s; simpl; lia).
  reflexivity.
Qed.

Lemma dist_self (a : Vector3d) :
  is_finite a.(x) = true -> is_finite a.(y) = true -> is_finite a.(z) = true ->
  (dist a a <? EPSILON)%D = true.
Proof.
  intros Hx Hy Hz. unfold dist. rewrite !dsub_self by done.
  by vm_compute.
Qed.

Lemma make_triangle_vertices py_vertices f t i :
  make_triangle py_vertices f = Some t ->
  i ∈ as_list f ->
  exists a b c, at_ py_vertices i = Some (a, b, c) /\ Vec a b c ∈ vertices t.
Proof.
  destruct f as [[i0 i1] i2]. unfold make_triangle, vertex.
  destruct (at_ py_vertices i0) as [[[a0 b0] c0]|] eqn:E0; simpl; [|done].
  destruct (at_ py_vertices i1) as [[[a1 b1] c1]|] eqn:E1; simpl; [|done].
  destruct (at_ py_vertices i2) as [[[a2 b2] c2]|] eqn:E2; simpl; [|done].
  intros [= <-]. unfold vertices. simpl.
  rewrite !elem_of_cons.
  intros [->|[->|[->|Hi]]]; [| | |by apply elem_of_nil in Hi].
  - exists a0, b0, c0. split; [done | by left].
  - exists a1, b1, c1. split; [done | right; by left].
  - exists a2, b2, c2. split; [done | do 2 right; by left].
Qed.

Lemma common_vertex_is_shared t1 t2 v :
  v ∈ vertices t1 -> v ∈ vertices t2 ->
  is_finite v.(x) = true -> is_finite v.(y) = true -> is_finite v.(z) = true ->
  share_vertex t1 t2 = true.
Proof.
  intros H1 H2 Hx Hy Hz. unfold share_vertex.
  apply existsb_exists. exists v. split; [by apply list_elem_of_In|].
  apply existsb_exists. exists v. split; [by apply list_elem_of_In|].
  by apply dist_self.
Qed.

(** X3. Two faces that have a vertex of the mesh in common are never
    reported as intersecting each other, provided the coordinates of that
    vertex are finite: the distance of the vertex to itself is 0, below
    [EPSILON], so the pair counts as sharing a vertex. *)
Theorem faces_with_a_common_vertex_are_not_reported
    py_faces py_vertices faces map f g face_f face_g i r :
  detect_pierced_faces_with_timing py_faces py_vertices = Some (faces, map) ->
  at_ py_faces f = Some face_f ->
  at_ py_faces g = Some face_g ->
  i ∈ as_list face_f ->
  i ∈ as_list face_g ->
  at_ py_vertices i = Some r ->
  finite_row r = true ->
  g ∉ neighbours map f.
Proof.
  intros Hr Hf Hg Hif Hig Hi Hfin Hin.
  apply detect_inversion in Hr as (triangles & h & Ht & Hrec & Hres).
  injection Hres as -> ->.
  change (ascending <$> intersection_map h) with (to_result h).2 in Hin.
  apply neighbours_to_result in Hin.
  destruct (recorded_pairs _ _ _ Hrec f g Hin)
    as [(_ & t1 & t2 & _ & _ & H1 & H2 & _)|(_ & t2 & t1 & _ & _ & H2 & H1 & _)].
  all: pose proof (recorded_no_shared _ _ _ Hrec f g t1 t2 H1 H2 Hin) as Hns.
  all: rewrite (mapM_at _ _ _ f Ht), Hf in H1; simpl in H1.
  all: rewrite (mapM_at _ _ _ g Ht), Hg in H2; simpl in H2.
  all: destruct (make_triangle_vertices _ _ _ i H1 Hif) as (a & b & c & Ha & Hv1).
  all: destruct (make_triangle_vertices _ _ _ i H2 Hig) as (a' & b' & c' & Ha' & Hv2).
  all: rewrite Hi in Ha, Ha'; simplify_eq.
  all: unfold finite_row in Hfin;
    apply andb_true_iff in Hfin as [[Hx Hy]%andb_true_iff Hz].
  all: assert (share_vertex t1 t2 = true)
    by (by apply (common_vertex_is_shared t1 t2 _ Hv1 Hv2)).
  all: congruence.
Qed.

Lemma faces_with_a_common_vertex_are_not_reported_witness :
  detect_pierced_faces_with_timing
    [ (0, 1, 2); (2, 3, 4) ] Inputs.crossing_vertices = Some ([], ∅)
  /\ 1 ∉ neighbours (∅ : gmap Z (list Z)) 0.
Proof.
  split; [vm_compute; reflexivity|].
  apply (faces_with_a_common_vertex_are_not_reported
           [ (0, 1, 2); (2, 3, 4) ] Inputs.crossing_vertices [] ∅ 0 1
           (0, 1, 2) (2, 3, 4) 2 (Inputs.row 0 2 0));
    try (vm_compute; reflexivity).
  - right. right. left.
  - left.
Defined.

End SharedVertexFacts.

(** ** The lists handed back *)

Module ShapeFacts.
Import Pierced Basics PiercedFacts LocalFacts.

Lemma ascending_increasing (s : gset Z) : StronglySorted Z.lt (ascending s).
Proof.
  unfold ascending.
  assert (Hs : StronglySorted Z.le (merge_sort Z.le (elements s)))
    by apply (StronglySorted_merge_sort Z.le).
  assert (Hn : NoDup (merge_sort Z.le (elements s))).
  { rewrite merge_sort_Permutation. apply NoDup_elements. }
  induction Hs as [|a l _ IH Ha]; [constructor|].
  apply NoDup_cons in Hn as [Hnot Hn]. constructor; [by apply IH|].
  rewrite Forall_forall in *. intros b Hb.
  pose proof (Ha b Hb). assert (a <> b) by (by intros ->). lia.
Qed.

Lemma ascending_empty (s : gset Z) : ascending s = [] -> s = ∅.
Proof.
  intros He. apply set_eq. intros a. rewrite <- elem_of_ascending, He.
  set_solver.
Qed.

(** X22. In the result of the full detection the list of faces and every
    list of the map are strictly increasing, so that no face is listed
    twice, and every key of the map has at least one face in its list:
    the source fills two ordered sets and creates a key only together
    with an element. *)
Theorem detection_lists_are_increasing py_faces py_vertices faces map :
  detect_pierced_faces_with_timing py_faces py_vertices = Some (faces, map) ->
  StronglySorted Z.lt faces
  /\ forall f l, map !! f = Some l -> l <> [] /\ StronglySorted Z.lt l.
Proof.
  intros Hr.
  apply detect_inversion in Hr as (triangles & h & _ & Hrec & Hres).
  injection Hres as -> ->. split; [apply ascending_increasing|].
  intros f l Hl. rewrite lookup_fmap in Hl.
  destruct (intersection_map h !! f) as [s|] eqn:Ef; [|done].
  injection Hl as <-. split; [|apply ascending_increasing].
  intros He%ascending_empty.
  destruct (recorded_nonempty _ _ _ Hrec f) as [g Hg].
  { apply elem_of_dom. by rewrite Ef. }
  unfold nb in Hg. rewrite Ef in Hg. simpl in Hg. set_solver.
Qed.

Lemma detection_lists_are_increasing_witness :
  StronglySorted Z.lt [0; 1]
  /\ forall f l,
       ({[ 0 := [1]; 1 := [0] ]} : gmap Z (list Z)) !! f = Some l ->
       l <> [] /\ StronglySorted Z.lt l.
Proof.
  apply (detection_lists_are_increasing
           Inputs.crossing_faces Inputs.crossing_vertices).
  vm_compute. reflexivity.
Defined.

End ShapeFacts.

(** ** The octree *)

Module TreeFacts.
Import Pierced Basics PiercedFacts Tree.

Lemma get_octant_range c p : 0 <= get_octant c p < 8.
Proof.
  unfold get_octant.
  destruct (dle _ _), (dle _ _), (dle _ _); by vm_compute.
Qed.

Lemma placed_octants triangles c fi placed :
  mapM (fun face_idx =>
          tri ← at_ triangles face_idx;
          Some (face_idx, get_octant c (tri_center tri))) fi = Some placed ->
  Forall (fun p => 0 <= p.2 < 8) placed.
Proof.
  revert placed. induction fi as [|i fi IH]; intros placed; simpl.
  - intros [= <-]. constructor.
  - destruct (at_ triangles i) as [t|]; simpl; [|done].
    destruct (mapM _ fi) as [k|]; simpl; [|done].
    intros [= <-]. constructor; [apply get_octant_range | by apply IH].
Qed.

(** Sorting pairs into the buckets of their second component, one
    bucket for every key of a list without repetition, loses and repeats
    nothing. *)
Lemma buckets_cons (a k : Z) (B : Z -> list Z) (l : list Z) :
  NoDup l -> k ∈ l ->
  concat ((fun i => if decide (k = i) then a :: B i else B i) <$> l)
  ≡ₚ a :: concat (B <$> l).
Proof.
  induction l as [|i l IH]; intros Hnd Hk; [by apply elem_of_nil in Hk|].
  apply NoDup_cons in Hnd as [Hi Hnd]. simpl.
  destruct (decide (k = i)) as [->|Hne].
  - simpl. f_equiv. f_equiv.
    clear IH Hk. induction l as [|j l IH]; [done|].
    apply not_elem_of_cons in Hi as [Hij Hi]. simpl.
    rewrite decide_False by done. f_equiv. apply IH; [done|].
    by apply NoDup_cons in Hnd as [_ ?].
  - apply elem_of_cons in Hk as [?|Hk]; [done|].
    rewrite IH by done. by rewrite Permutation_middle.
Qed.

Lemma buckets_complete (placed : list (Z * Z)) (l : list Z) :
  NoDup l -> Forall (fun p => p.2 ∈ l) placed ->
  concat ((fun i => (filter (fun p => p.2 = i) placed).*1) <$> l)
  ≡ₚ placed.*1.
Proof.
  intros Hnd. induction 1 as [|[a k] placed Hk _ IH]; simpl.
  - induction l as [|i l IHl]; [done|]. simpl. apply IHl.
    by apply NoDup_cons in Hnd as [_ ?].
  - rewrite <- IH. rewrite <- (buckets_cons a k _ l Hnd Hk).
    erewrite list_fmap_ext; [reflexivity|]. intros _ i _. cbv beta.
    rewrite filter_cons. simpl. by destruct (decide (k = i)).
Qed.

(** The leaves of a built tree hold the faces the tree was built
    from. *)
Lemma build_octree_leaves levels triangles :
  forall fi c s d mf node,
    build_octree levels triangles fi c s d mf = Some node ->
    leaf_faces node ≡ₚ fi.
Proof.
  induction levels as [|levels IH]; intros fi c s d mf node.
  - intros [= <-]. reflexivity.
  - rewrite build_octree_step. case_bool_decide; [by intros [= <-]|].
    destruct (mapM _ fi) as [placed|] eqn:Hp; [|done].
    cbn [mbind option_bind].
    destruct (mapM _ (seqZ 0 8)) as [chn|] eqn:Hc; [|done].
    cbn [mbind option_bind]. intros [= <-]. cbn [leaf_faces].
    destruct (forallb is_null chn); [done|].
    rewrite <- (placed_fst _ _ _ _ Hp).
    rewrite <- (buckets_complete placed (seqZ 0 8)).
    2:{ apply NoDup_seqZ. }
    2:{ eapply Forall_impl; [by eapply placed_octants|].
        intros p Hp'. apply elem_of_seqZ. simpl in *. lia. }
    apply mapM_Some in Hc. revert Hc. generalize (seqZ 0 8).
    intros octants Hc.
    induction Hc as [|i o octants chn Hio _ IHc]; [done|].
    cbn [fmap list_fmap concat]. cbv zeta in Hio.
    destruct ((filter (fun p => p.2 = i) placed).*1) as [|j rest] eqn:Ef.
    + injection Hio as <-. apply IHc.
    + destruct (build_octree levels triangles (j :: rest) _ _ _ _)
        as [child|] eqn:Eb; [|done].
      cbn [mbind option_bind] in Hio. injection Hio as <-.
      rewrite <- (IH _ _ _ _ _ _ Eb). by f_equiv.
Qed.

(** X7. The octree keeps every face once: the faces held by the leaves
    of the tree built over a mesh are the faces of the mesh, none lost and
    none repeated. *)
Theorem every_face_is_in_one_leaf triangles num_faces root :
  build_root triangles num_faces = Some root ->
  leaf_faces root ≡ₚ seqZ 0 num_faces /\ NoDup (leaf_faces root).
Proof.
  unfold build_root. destruct (root_cell triangles) as [c s].
  intros H%build_octree_leaves. split; [done|].
  rewrite H. apply NoDup_seqZ.
Qed.

Lemma every_face_is_in_one_leaf_witness :
  exists triangles root,
    mapM (make_triangle Inputs.mesh21_vertices) Inputs.mesh21_faces
      = Some triangles
    /\ build_root triangles 21 = Some root
    /\ leaf_faces root ≡ₚ seqZ 0 21
    /\ NoDup (leaf_faces root).
Proof.
  destruct (mapM (make_triangle Inputs.mesh21_vertices) Inputs.mesh21_faces)
    as [triangles|] eqn:Et; [|by vm_compute in Et].
  destruct (build_root triangles 21) as [root|] eqn:Er.
  2:{ vm_compute in Et. injection Et as <-. by vm_compute in Er. }
  exists triangles, root. split; [done|]. split; [done|].
  exact (every_face_is_in_one_leaf triangles 21 root Er).
Defined.

Lemma every_node_impl (P Q : OctreeNode -> Prop) :
  (forall n, P n -> Q n) -> forall n, every_node P n -> every_node Q n.
Proof.
  intros HPQ n. induction n as [c s d fi ch IH] using OctreeNode_induction.
  cbn [every_node]. intros [HP Hch]. split; [exact (HPQ _ HP)|].
  clear HP. revert Hch. induction IH as [|o ch Ho _ IHch]; [done|].
  destruct o as [child|]; [|exact IHch].
  intros [Hc Hch]. split; [by apply (Ho child) | by apply IHch].
Qed.

(** A node that was split has a child. *)
Lemma split_has_child levels triangles fi c s d mf placed chn :
  fi <> [] ->
  mapM (fun face_idx =>
          tri ← at_ triangles face_idx;
          Some (face_idx, get_octant c (tri_center tri))) fi = Some placed ->
  mapM (fun i =>
          let child_faces := (filter (fun p => snd p = i) placed).*1 in
          match child_faces with
          | [] => Some None
          | _ =>
              child ← build_octree levels triangles child_faces
                        (child_center c (s / two)%D i) (s / two)%D
                        (d + 1) mf;
              Some (Some child)
          end) (seqZ 0 8) = Some chn ->
  forallb is_null chn = false.
Proof.
  intros Hfi Hp Hc. destruct (forallb is_null chn) eqn:E; [|done].
  exfalso. apply Hfi. apply Permutation_nil_r.
  rewrite <- (placed_fst _ _ _ _ Hp).
  rewrite <- (buckets_complete placed (seqZ 0 8)).
  2:{ apply NoDup_seqZ. }
  2:{ eapply Forall_impl; [by eapply placed_octants|].
      intros p Hp'. apply elem_of_seqZ. simpl in *. lia. }
  apply mapM_Some in Hc. revert Hc E. generalize (seqZ 0 8).
  intros octants Hc.
  induction Hc as [|i o octants chn Hio _ IHc]; [done|].
  cbn [fmap list_fmap concat forallb]. cbv zeta in Hio.
  intros [Ho E]%andb_true_iff.
  destruct ((filter (fun p => p.2 = i) placed).*1) as [|j rest].
  - by apply IHc.
  - destruct (build_octree _ _ _ _ _ _ _); [|done].
    cbn [mbind option_bind] in Hio. by injection Hio as <-.
Qed.

Lemma build_octree_shape levels triangles :
  forall fi c s d mf node,
    0 <= mf ->
    build_octree levels triangles fi c s d mf = Some node ->
    every_node
      (fun n => d <= depth n <= d + Z.of_nat levels
                /\ (is_leaf n = true -> depth n < d + Z.of_nat levels ->
                    Z.of_nat (length (face_indices n)) <= mf))
      node.
Proof.
  induction levels as [|levels IH]; intros fi c s d mf node Hmf.
  - intros [= <-]. simpl. split; [|done]. split; lia.
  - rewrite build_octree_step. case_bool_decide as Hlen.
    + intros [= <-]. simpl. split; [|done]. split; [lia | done].
    + destruct (mapM _ fi) as [placed|] eqn:Hp; [|done].
      cbn [mbind option_bind].
      destruct (mapM _ (seqZ 0 8)) as [chn|] eqn:Hc; [|done].
      cbn [mbind option_bind]. intros [= <-].
      assert (Hfi : fi <> []) by (intros ->; simpl in Hlen; lia).
      pose proof (split_has_child _ _ _ _ _ _ _ _ _ Hfi Hp Hc) as Hsplit.
      cbn [every_node]. split.
      { unfold is_leaf. simpl. rewrite Hsplit. split; [lia | done]. }
      clear Hsplit.
      apply mapM_Some in Hc. revert Hc. generalize (seqZ 0 8).
      intros octants Hc.
      induction Hc as [|i o octants chn Hio _ IHc]; [done|].
      cbv zeta in Hio.
      destruct ((filter (fun p => p.2 = i) placed).*1) as [|j rest].
      * injection Hio as <-. apply IHc.
      * destruct (build_octree levels triangles (j :: rest) _ _ _ _)
          as [child|] eqn:Eb; [|done].
        cbn [mbind option_bind] in Hio. injection Hio as <-.
        split; [|apply IHc].
        apply (IH _ _ _ _ _ _ Hmf) in Eb. revert Eb.
        apply every_node_impl. intros n [Hd Hl].
        split; [lia|]. intros ? ?. apply Hl; [done | lia].
Qed.

(** X8. The tree built over a mesh is at most eight levels deep below
    its root, and a leaf above the last level holds at most twenty
    faces. *)
Theorem octree_depth_and_leaf_size triangles num_faces root :
  build_root triangles num_faces = Some root ->
  every_node
    (fun n => 0 <= depth n <= 8
              /\ (is_leaf n = true -> depth n < 8 ->
                  (length (face_indices n) <= 20)%nat))
    root.
Proof.
  unfold build_root. destruct (root_cell triangles) as [c s].
  intros H%build_octree_shape; [|lia]. revert H.
  apply every_node_impl. intros n [Hd Hl]. split; [lia|].
  intros ? ?. apply Nat2Z.inj_le. apply Hl; [done | lia].
Qed.

Lemma octree_depth_and_leaf_size_witness :
  exists triangles root,
    mapM (make_triangle Inputs.mesh21_vertices) Inputs.mesh21_faces
      = Some triangles
    /\ build_root triangles 21 = Some root
    /\ every_node
         (fun n => 0 <= depth n <= 8
                   /\ (is_leaf n = true -> depth n < 8 ->
                       (length (face_indices n) <= 20)%nat))
         root.
Proof.
  destruct (mapM (make_triangle Inputs.mesh21_vertices) Inputs.mesh21_faces)
    as [triangles|] eqn:Et; [|by vm_compute in Et].
  destruct (build_root triangles 21) as [root|] eqn:Er.
  2:{ vm_compute in Et. injection Et as <-. by vm_compute in Er. }
  exists triangles, root. split; [done|]. split; [done|].
  exact (octree_depth_and_leaf_size triangles 21 root Er).
Defined.

End TreeFacts.

(** ** Updates and local detection *)

Module UpdateFacts.
Import Pierced Basics PiercedFacts IncrementalFacts LocalFacts.

Lemma triangle_of_is_Some py_faces py_vertices i :
  valid_mesh py_faces py_vertices = true ->
  0 <= i < Z.of_nat (length py_faces) ->
  is_Some (triangle_of py_faces py_vertices i).
Proof.
  intros Hv Hi. unfold triangle_of.
  destruct (at_is_Some py_faces i Hi) as [f Hf]. rewrite Hf. simpl.
  apply make_triangle_is_Some.
  unfold valid_mesh in Hv. rewrite forallb_forall in Hv. apply Hv.
  apply list_elem_of_In. unfold at_ in Hf.
  case_bool_decide; [|done]. by eapply list_elem_of_lookup_2.
Qed.

Lemma at_insert {A} (l : list A) (k i : Z) (a : A) :
  0 <= k < Z.of_nat (length l) ->
  at_ (<[ Z.to_nat k := a ]> l) i = if bool_decide (i = k) then Some a else at_ l i.
Proof.
  intros Hk. unfold at_. case_bool_decide as Hi.
  - case_bool_decide as E.
    + subst. apply list_lookup_insert_eq. lia.
    + apply list_lookup_insert_ne. lia.
  - case_bool_decide; [lia | done].
Qed.

(** The update loop: it returns, keeps the two vectors in step, and
    leaves at every face either the triangle of the current mesh, where
    the face is listed, or what was there. *)
Lemma update_faces_spec py_faces py_vertices l :
  valid_mesh py_faces py_vertices = true ->
  forall tb,
    length tb.1 = length py_faces ->
    tb.2 = compute_triangle_aabb <$> tb.1 ->
    exists tb',
      fold_opt (update_face py_faces py_vertices (Z.of_nat (length py_faces)))
               l tb = Some tb'
      /\ length tb'.1 = length py_faces
      /\ tb'.2 = compute_triangle_aabb <$> tb'.1
      /\ forall i, 0 <= i < Z.of_nat (length py_faces) ->
           at_ tb'.1 i = if bool_decide (i ∈ l)
                         then triangle_of py_faces py_vertices i
                         else at_ tb.1 i.
Proof.
  intros Hv. induction l as [|k l IH]; intros [T B] HT HB; simpl in *.
  - exists (T, B). do 3 (split; [done|]). intros i Hi.
    first [ done
          | rewrite bool_decide_eq_false_2; [done | apply not_elem_of_nil] ].
  - unfold update_face at 1. case_bool_decide as Hk.
    + destruct (IH (T, B) HT HB) as (tb' & -> & HT' & HB' & Hat).
      exists tb'. do 3 (split; [done|]). intros i Hi. rewrite (Hat i Hi).
      assert (i <> k) by lia.
      destruct (decide (i ∈ l)) as [Hin|Hin].
      * rewrite !bool_decide_eq_true_2; [done | by right | done].
      * rewrite !bool_decide_eq_false_2; [done | | done].
        by intros [?|?]%elem_of_cons.
    + assert (Hk' : 0 <= k < Z.of_nat (length py_faces)) by lia.
      destruct (triangle_of_is_Some _ _ k Hv Hk') as [tri Htri].
      pose proof Htri as Htri'. unfold triangle_of in Htri.
      destruct (at_ py_faces k) as [f|]; simpl in Htri; [|done].
      simpl. rewrite Htri. simpl.
      destruct (IH (<[Z.to_nat k:=tri]> T,
                    <[Z.to_nat k:=compute_triangle_aabb tri]> B))
        as (tb' & -> & HT' & HB' & Hat).
      { simpl. by rewrite length_insert. }
      { simpl. subst B. by rewrite list_fmap_insert. }
      exists tb'. do 3 (split; [done|]). intros i Hi. rewrite (Hat i Hi).
      simpl. rewrite at_insert by lia.
      destruct (decide (i = k)) as [->|Hne].
      * rewrite (bool_decide_eq_true_2 (k ∈ k :: l)) by (by left).
        rewrite (bool_decide_eq_true_2 (k = k)) by done.
        by destruct (bool_decide (k ∈ l)).
      * rewrite (bool_decide_eq_false_2 (i = k)) by done.
        destruct (decide (i ∈ l)) as [Hin|Hin].
        -- rewrite !bool_decide_eq_true_2; [done | by right | done].
        -- rewrite !bool_decide_eq_false_2; [done | | done].
           by intros [?|?]%elem_of_cons.
Qed.

(** What a build leaves in the variables of [namespace global]. *)
Lemma initialize_fields py_faces py_vertices g0 g :
  initialize_spatial_index py_faces py_vertices g0 = Some g ->
  exists triangles,
    mapM (make_triangle py_vertices) py_faces = Some triangles
    /\ index_of triangles g
    /\ length triangles = length py_faces
    /\ g.(num_vertices) = Z.of_nat (length py_vertices).
Proof.
  intros Hg. destruct (initialize_index_of _ _ _ _ Hg) as (T & HT & Hidx).
  exists T. split; [done|]. split; [done|].
  split; [symmetry; by eapply length_mapM|].
  unfold initialize_spatial_index in Hg. rewrite HT in Hg. simpl in Hg.
  destruct (build_root _ _); simpl in Hg; [|done]. by injection Hg as <-.
Qed.

(** An update on a mesh of the same size: it returns an index that holds,
    at every face, the triangle of the current mesh where the face is
    listed and the triangle it held elsewhere. *)
Lemma update_index_of py_faces py_vertices modified g T0 :
  index_of T0 g ->
  length T0 = length py_faces ->
  g.(num_vertices) = Z.of_nat (length py_vertices) ->
  valid_mesh py_faces py_vertices = true ->
  exists g' T',
    update_spatial_index py_faces py_vertices modified g = Some g'
    /\ index_of T' g'
    /\ length T' = length py_faces
    /\ g'.(num_vertices) = Z.of_nat (length py_vertices)
    /\ forall i, 0 <= i < Z.of_nat (length py_faces) ->
         at_ T' i = if bool_decide (i ∈ modified)
                    then triangle_of py_faces py_vertices i
                    else at_ T0 i.
Proof.
  intros Hidx Hlen Hnv Hv. pose proof Hidx as [HT HB Hinit Hn Ho].
  unfold update_spatial_index. rewrite Hinit. simpl.
  rewrite bool_decide_eq_false_2 by (rewrite Hn, Hlen, Hnv; lia).
  rewrite Hn, Hlen, HT, HB.
  destruct (update_faces_spec py_faces py_vertices modified Hv
              (T0, compute_triangle_aabb <$> T0))
    as ([T' B'] & -> & HT' & HB' & Hat); [done | done |].
  simpl in *. subst B'.
  destruct (dlt _ _).
  - unfold build_root. destruct (root_cell T') as [c sz].
    destruct (build_octree_ok 8 T' (seqZ 0 (Z.of_nat (length py_faces)))
                c sz 0 20) as (node & -> & Hwi).
    { rewrite HT'. apply seqZ_indices. }
    simpl. eexists _, T'. split; [done|].
    split; [|by rewrite Hnv].
    split; simpl; [done | done | done | by rewrite HT' |].
    by intros root [= <-].
  - eexists _, T'. split; [done|].
    split; [|by rewrite Hnv].
    split; simpl; [done | done | done | by rewrite HT' |].
    intros root Hr. rewrite HT', <- Hlen. by apply Ho.
Qed.

(** *** What a local run reports *)

(** Every pair a local run records has a target among its two faces. *)
Lemma candidate_loop_touches g targets cands l :
  forall h h',
    (forall a b, b ∈ nb h.(intersection_map) a -> a ∈ targets \/ b ∈ targets) ->
    fold_opt (test_candidate g targets cands) l h = Some h' ->
    forall a b, b ∈ nb h'.(intersection_map) a -> a ∈ targets \/ b ∈ targets.
Proof.
  apply (fold_opt_inv _
    (fun h => forall a b, b ∈ nb h.(intersection_map) a ->
                          a ∈ targets \/ b ∈ targets)).
  intros h f h1 _ Hh. unfold test_candidate.
  destruct (at_ (persistent_triangles g) f) as [t1|] eqn:Ht1; simpl; [|done].
  destruct (at_ (persistent_bboxes g) f) as [b1|] eqn:Hb1; simpl; [|done].
  apply (fold_opt_inv _
    (fun h => forall a b, b ∈ nb h.(intersection_map) a ->
                          a ∈ targets \/ b ∈ targets)); [|done].
  intros h2 x h3 Hx Hh2 E.
  destruct (test_pair_spec _ _ _ _ _ _ _ _ Ht1 Hb1 E) as [[Hp ->]|[_ ->]];
    [|done].
  assert (Hfx : f ∈ targets \/ x ∈ targets).
  { case_bool_decide; [by left | by right]. }
  intros a b. rewrite nb_record_hit by apply Hp.
  repeat case_decide; subst; rewrite ?elem_of_union, ?elem_of_singleton;
    try (intros [->|Hin]; [tauto | by apply Hh2]); apply Hh2.
Qed.

(** A local run on an index that holds the triangles [triangles], with
    targets inside the mesh, whatever arrays are handed to it. *)
Lemma local_report py_faces py_vertices g triangles targets :
  index_of triangles g ->
  Forall (fun t => 0 <= t < Z.of_nat (length triangles)) targets ->
  exists faces map,
    detect_pierced_faces_local py_faces py_vertices targets g
      = Some (g, (faces, map))
    /\ (forall f x, x ∈ neighbours map f ->
          (f ∈ targets \/ x ∈ targets)
          /\ (pair_hit triangles (compute_triangle_aabb <$> triangles) f x
              \/ pair_hit triangles (compute_triangle_aabb <$> triangles) x f))
    /\ (forall f x, f ∈ targets -> x ∈ targets ->
          (x ∈ neighbours map f <->
           pair_hit triangles (compute_triangle_aabb <$> triangles) f x
           \/ pair_hit triangles (compute_triangle_aabb <$> triangles) x f)).
Proof.
  intros Hidx Htar.
  destruct (local_run py_faces py_vertices g triangles targets Hidx Htar)
    as (h & Hrun & Hrec & Hall).
  exists (to_result h).1, (to_result h).2.
  split; [rewrite Hrun; reflexivity|].
  assert (Htouch : forall a b, b ∈ nb h.(intersection_map) a ->
                               a ∈ targets \/ b ∈ targets).
  { unfold detect_pierced_faces_local in Hrun.
    rewrite (index_initialized _ _ Hidx) in Hrun. simpl in Hrun.
    destruct (fold_opt (add_candidates g) targets ∅) as [c|];
      simpl in Hrun; [|done].
    destruct (fold_opt _ (ascending c) no_hits) as [h0|] eqn:E;
      simpl in Hrun; [|done].
    assert (Hdom : forall a b, b ∈ nb h0.(intersection_map) a ->
                               a ∈ targets \/ b ∈ targets).
    { eapply candidate_loop_touches; [|exact E].
      intros a b. unfold nb. simpl. rewrite lookup_empty. simpl.
      by intros ?%not_elem_of_empty. }
    injection Hrun as Hf Hm. intros a b Hb.
    apply Hdom. apply neighbours_to_result.
    unfold to_result at 1. simpl. rewrite Hm.
    by apply neighbours_to_result. }
  split.
  - intros f x Hx%neighbours_to_result. split; [by apply Htouch|].
    by apply (recorded_pairs _ _ _ Hrec).
  - intros f x Hf Hx. rewrite neighbours_to_result.
    split; [by apply recorded_pairs|].
    intros [Hp|Hp]; [by apply Hall|].
    apply (recorded_symmetric _ _ _ Hrec). by apply Hall.
Qed.

Lemma local_over_all_faces_covers_full_witness :
  exists faces map g faces' map',
    detect_pierced_faces_with_timing
      Inputs.crossing_faces Inputs.crossing_vertices = Some (faces, map)
    /\ initialize_spatial_index Inputs.crossing_faces Inputs.crossing_vertices
         uninitialized = Some g
    /\ detect_pierced_faces_local Inputs.crossing_faces
         Inputs.crossing_vertices
         (seqZ 0 (Z.of_nat (length Inputs.crossing_faces))) g
       = Some (g, (faces', map'))
    /\ (forall f, f ∈ faces -> f ∈ faces')
    /\ (forall f x, x ∈ neighbours map f -> x ∈ neighbours map' f).
Proof.
  apply LocalFacts.local_over_all_faces_covers_full.
  vm_compute. reflexivity.
Defined.

(** X10. Local detection on a freshly built index, with targets inside
    the mesh: it returns and leaves the index as it is; every pair it
    reports has a target among its two faces and passed the pair test on
    the triangles of the mesh the index was built from; and between two
    targets it reports exactly the pairs that pass the pair test.  The
    arrays handed to the call are not read: the result is that of the
    indexed mesh even when other arrays are passed. *)
Theorem local_detection_on_a_built_index
    py_faces py_vertices g0 g other_faces other_vertices targets :
  initialize_spatial_index py_faces py_vertices g0 = Some g ->
  Forall (fun t => 0 <= t < Z.of_nat (length py_faces)) targets ->
  exists faces map triangles,
    mapM (make_triangle py_vertices) py_faces = Some triangles
    /\ detect_pierced_faces_local other_faces other_vertices targets g
       = Some (g, (faces, map))
    /\ (forall f x, x ∈ neighbours map f ->
          (f ∈ targets \/ x ∈ targets)
          /\ (pair_hit triangles (compute_triangle_aabb <$> triangles) f x
              \/ pair_hit triangles (compute_triangle_aabb <$> triangles) x f))
    /\ (forall f x, f ∈ targets -> x ∈ targets ->
          (x ∈ neighbours map f <->
           pair_hit triangles (compute_triangle_aabb <$> triangles) f x
           \/ pair_hit triangles (compute_triangle_aabb <$> triangles) x f)).
Proof.
  intros Hg Htar.
  destruct (initialize_fields _ _ _ _ Hg) as (T & HT & Hidx & Hlen & _).
  destruct (local_report other_faces other_vertices g T targets Hidx)
    as (faces & map & Hrun & Hsound & Hexact); [by rewrite Hlen|].
  by exists faces, map, T.
Qed.

Lemma local_detection_on_a_built_index_witness :
  exists g faces map triangles,
    initialize_spatial_index Inputs.crossing_faces Inputs.crossing_vertices
      uninitialized = Some g
    /\ mapM (make_triangle Inputs.crossing_vertices) Inputs.crossing_faces
       = Some triangles
    /\ detect_pierced_faces_local Inputs.crossing_faces Inputs.moved_vertices
         [1] g = Some (g, (faces, map))
    /\ (forall f x, x ∈ neighbours map f ->
          (f ∈ [1] \/ x ∈ [1])
          /\ (pair_hit triangles (compute_triangle_aabb <$> triangles) f x
              \/ pair_hit triangles (compute_triangle_aabb <$> triangles) x f))
    /\ (forall f x, f ∈ [1] -> x ∈ [1] ->
          (x ∈ neighbours map f <->
           pair_hit triangles (compute_triangle_aabb <$> triangles) f x
           \/ pair_hit triangles (compute_triangle_aabb <$> triangles) x f)).
Proof.
  destruct (initialize_spatial_index Inputs.crossing_faces
              Inputs.crossing_vertices uninitialized) as [g|] eqn:E;
    [|by vm_compute in E].
  destruct (local_detection_on_a_built_index
              Inputs.crossing_faces Inputs.crossing_vertices uninitialized g
              Inputs.crossing_faces Inputs.moved_vertices [1] E)
    as (faces & map & T & H).
  - repeat constructor; simpl; lia.
  - exists g, faces, map, T. tauto.
Defined.

(** The octree after an update on a mesh of the same size: it is built
    anew over the triangles the index then holds when the list has more
    entries than a tenth of the number of faces, and is the one the
    index had otherwise.  The entries are counted whether or not the
    loop skipped them. *)
Lemma update_octree py_faces py_vertices modified g g' :
  g.(is_initialized) = true ->
  g.(num_faces) = Z.of_nat (length py_faces) ->
  g.(num_vertices) = Z.of_nat (length py_vertices) ->
  update_spatial_index py_faces py_vertices modified g = Some g' ->
  g'.(persistent_octree)
  = if (double_of_Z (Z.of_nat (length modified))
        >? double_of_Z (Z.of_nat (length py_faces)) * tenth)%D
    then build_root g'.(persistent_triangles) (Z.of_nat (length py_faces))
    else g.(persistent_octree).
Proof.
  intros Hinit Hn Hnv. unfold update_spatial_index. rewrite Hinit.
  cbn [negb]. rewrite bool_decide_eq_false_2 by (rewrite Hn, Hnv; lia).
  rewrite Hn.
  destruct (fold_opt _ modified _) as [[T B]|]; cbn [mbind option_bind];
    [|done].
  destruct (dlt _ _).
  - destruct (build_root T _) as [octree|] eqn:Eb; cbn [mbind option_bind];
      [|done].
    intros [= <-]. cbn [persistent_octree persistent_triangles].
    by rewrite Eb.
  - by intros [= <-].
Qed.

(** X11. An update on a mesh of the same size as the indexed one returns,
    and afterwards the index holds at every listed face the triangle of the
    current arrays and at every other face the triangle it held before; the
    box of every face is the box of the triangle held.  Entries of the list
    outside the mesh change no triangle and no box, but they count: the
    octree is built anew, over the triangles then held, when the list has
    more entries than a tenth of the number of faces, and is kept
    otherwise. *)
Theorem update_refreshes_the_listed_faces
    faces0 vertices0 g0 g py_faces py_vertices modified :
  initialize_spatial_index faces0 vertices0 g0 = Some g ->
  length py_faces = length faces0 ->
  length py_vertices = length vertices0 ->
  valid_mesh py_faces py_vertices = true ->
  exists g',
    update_spatial_index py_faces py_vertices modified g = Some g'
    /\ g'.(is_initialized) = true
    /\ g'.(num_faces) = Z.of_nat (length py_faces)
    /\ g'.(num_vertices) = Z.of_nat (length py_vertices)
    /\ (forall i, 0 <= i < Z.of_nat (length py_faces) ->
         at_ g'.(persistent_triangles) i
         = (if bool_decide (i ∈ modified)
            then triangle_of py_faces py_vertices i
            else triangle_of faces0 vertices0 i)
         /\ at_ g'.(persistent_bboxes) i
            = compute_triangle_aabb <$> at_ g'.(persistent_triangles) i)
    /\ g'.(persistent_octree)
       = if (double_of_Z (Z.of_nat (length modified))
             >? double_of_Z (Z.of_nat (length py_faces)) * tenth)%D
         then build_root g'.(persistent_triangles)
                         (Z.of_nat (length py_faces))
         else g.(persistent_octree).
Proof.
  intros Hg HlenF HlenV Hv.
  destruct (initialize_fields _ _ _ _ Hg) as (T0 & HT0 & Hidx & Hlen & Hnv).
  destruct (update_index_of py_faces py_vertices modified g T0 Hidx)
    as (g' & T' & Hup & Hidx' & Hlen' & Hnv' & Hat);
    [congruence | by rewrite Hnv, HlenV | done |].
  exists g'. split; [done|].
  pose proof Hidx as [_ _ Hinit Hn _].
  pose proof Hidx' as [HT' HB' Hinit' Hn' _].
  split; [done|]. split; [by rewrite Hn', Hlen'|]. split; [done|]. split.
  - intros i Hi. rewrite HB', at_fmap, HT'. split; [|done].
    rewrite (Hat i Hi). unfold triangle_of.
    by rewrite <- (mapM_at _ _ _ _ HT0).
  - apply (update_octree py_faces py_vertices modified g g'); try done.
    + rewrite Hn. congruence.
    + by rewrite Hnv, HlenV.
Qed.

Lemma update_refreshes_the_listed_faces_witness :
  exists g g',
    initialize_spatial_index Inputs.crossing_faces Inputs.crossing_vertices
      uninitialized = Some g
    /\ update_spatial_index Inputs.crossing_faces Inputs.moved_vertices
         [1; 7] g = Some g'
    /\ g'.(is_initialized) = true
    /\ g'.(num_faces) = Z.of_nat (length Inputs.crossing_faces)
    /\ g'.(num_vertices) = Z.of_nat (length Inputs.moved_vertices)
    /\ (forall i, 0 <= i < Z.of_nat (length Inputs.crossing_faces) ->
         at_ g'.(persistent_triangles) i
         = (if bool_decide (i ∈ [1; 7])
            then triangle_of Inputs.crossing_faces Inputs.moved_vertices i
            else triangle_of Inputs.crossing_faces Inputs.crossing_vertices i)
         /\ at_ g'.(persistent_bboxes) i
            = compute_triangle_aabb <$> at_ g'.(persistent_triangles) i)
    /\ g'.(persistent_octree)
       = if (double_of_Z (Z.of_nat (length [1; 7]))
             >? double_of_Z (Z.of_nat (length Inputs.crossing_faces))
                * tenth)%D
         then build_root g'.(persistent_triangles)
                         (Z.of_nat (length Inputs.crossing_faces))
         else g.(persistent_octree).
Proof.
  destruct (initialize_spatial_index Inputs.crossing_faces
              Inputs.crossing_vertices uninitialized) as [g|] eqn:E;
    [|by vm_compute in E].
  destruct (update_refreshes_the_listed_faces
              Inputs.crossing_faces Inputs.crossing_vertices uninitialized g
              Inputs.crossing_faces Inputs.moved_vertices [1; 7] E)
    as (g' & H); [reflexivity | reflexivity | vm_compute; reflexivity |].
  exists g, g'. tauto.
Defined.

(** X12. Build, update, detect.  When the update lists every face whose
    triangle differs between the indexed arrays and the current ones, a
    local detection on the updated index reports, between two targets,
    exactly the pairs that pass the pair test on the current mesh; and every
    pair it reports has a target among its faces and passed the pair test on
    the current mesh. *)
Theorem local_detection_after_an_update
    faces0 vertices0 g0 g py_faces py_vertices modified g' targets :
  initialize_spatial_index faces0 vertices0 g0 = Some g ->
  length py_faces = length faces0 ->
  length py_vertices = length vertices0 ->
  valid_mesh py_faces py_vertices = true ->
  (forall i, 0 <= i < Z.of_nat (length py_faces) ->
             i ∈ modified
             \/ triangle_of py_faces py_vertices i
                = triangle_of faces0 vertices0 i) ->
  update_spatial_index py_faces py_vertices modified g = Some g' ->
  Forall (fun t => 0 <= t < Z.of_nat (length py_faces)) targets ->
  exists faces map triangles,
    mapM (make_triangle py_vertices) py_faces = Some triangles
    /\ detect_pierced_faces_local py_faces py_vertices targets g'
       = Some (g', (faces, map))
    /\ (forall f x, x ∈ neighbours map f ->
          (f ∈ targets \/ x ∈ targets)
          /\ (pair_hit triangles (compute_triangle_aabb <$> triangles) f x
              \/ pair_hit triangles (compute_triangle_aabb <$> triangles) x f))
    /\ (forall f x, f ∈ targets -> x ∈ targets ->
          (x ∈ neighbours map f <->
           pair_hit triangles (compute_triangle_aabb <$> triangles) f x
           \/ pair_hit triangles (compute_triangle_aabb <$> triangles) x f)).
Proof.
  intros Hg HlenF HlenV Hv Hlisted Hup Htar.
  destruct (initialize_fields _ _ _ _ Hg) as (T0 & HT0 & Hidx & Hlen & Hnv).
  destruct (update_index_of py_faces py_vertices modified g T0 Hidx)
    as (g1 & T' & Hup' & Hidx' & Hlen' & _ & Hat);
    [congruence | by rewrite Hnv, HlenV | done |].
  assert (g1 = g') as -> by congruence.
  destruct (triangles_is_Some _ _ Hv) as (T & HT & HlenT).
  assert (T' = T) as ->.
  { apply list_eq. intros n.
    destruct (decide (n < length py_faces)%nat) as [Hn|Hn].
    - pose proof (Hat (Z.of_nat n)) as Hn'.
      rewrite at_nat, Nat2Z.id in Hn' by lia. rewrite Hn' by lia.
      assert (E : T !! n = triangle_of py_faces py_vertices (Z.of_nat n)).
      { unfold triangle_of. rewrite <- (mapM_at _ _ _ _ HT).
        rewrite at_nat, Nat2Z.id by lia. done. }
      rewrite E. case_bool_decide; [done|].
      destruct (Hlisted (Z.of_nat n)) as [?|Heq]; [lia | done |].
      rewrite Heq. unfold triangle_of. rewrite <- (mapM_at _ _ _ _ HT0).
      rewrite at_nat, Nat2Z.id by lia. done.
    - rewrite !lookup_ge_None_2; [done | lia | lia]. }
  destruct (local_report py_faces py_vertices g' T targets Hidx')
    as (faces & map & Hrun & Hsound & Hexact); [by rewrite HlenT|].
  by exists faces, map, T.
Qed.

Lemma local_detection_after_an_update_witness :
  exists g g' faces map triangles,
    initialize_spatial_index Inputs.crossing_faces Inputs.crossing_vertices
      uninitialized = Some g
    /\ update_spatial_index Inputs.crossing_faces Inputs.moved_vertices
         [1] g = Some g'
    /\ mapM (make_triangle Inputs.moved_vertices) Inputs.crossing_faces
       = Some triangles
    /\ detect_pierced_faces_local Inputs.crossing_faces Inputs.moved_vertices
         [0; 1] g' = Some (g', (faces, map))
    /\ (forall f x, x ∈ neighbours map f ->
          (f ∈ [0; 1] \/ x ∈ [0; 1])
          /\ (pair_hit triangles (compute_triangle_aabb <$> triangles) f x
              \/ pair_hit triangles (compute_triangle_aabb <$> triangles) x f))
    /\ (forall f x, f ∈ [0; 1] -> x ∈ [0; 1] ->
          (x ∈ neighbours map f <->
           pair_hit triangles (compute_triangle_aabb <$> triangles) f x
           \/ pair_hit triangles (compute_triangle_aabb <$> triangles) x f)).
Proof.
  destruct (initialize_spatial_index Inputs.crossing_faces
              Inputs.crossing_vertices uninitialized) as [g|] eqn:E;
    [|by vm_compute in E].
  destruct (update_spatial_index Inputs.crossing_faces Inputs.moved_vertices
              [1] g) as [g'|] eqn:E'.
  2:{ vm_compute in E. injection E as <-. by vm_compute in E'. }
  destruct (local_detection_after_an_update
              Inputs.crossing_faces Inputs.crossing_vertices uninitialized g
              Inputs.crossing_faces Inputs.moved_vertices [1] g' [0; 1] E)
    as (faces & map & T & H);
    [reflexivity | reflexivity | vm_compute; reflexivity | | done | |].
  - intros i Hi. simpl in Hi.
    assert (i = 0 \/ i = 1) as [->| ->] by lia; [by right | left; by left].
  - repeat constructor; simpl; lia.
  - exists g, g', faces, map, T. tauto.
Defined.

End UpdateFacts.

(** ** The statistics of the quality analysis *)

Module GradingFacts.
Import Quality Basics QualityFacts Grading Numbers FloatOrder.

(** What the loop over the faces leaves: the qualities of the faces in
    order, the indices of those below the threshold, and one bump per
    face. *)
Lemma analyze_faces_spec vertices threshold faces :
  forall i st st',
    analyze_faces vertices threshold i faces st = Some st' ->
    exists qs,
      mapM (face_quality vertices) faces = Some qs
      /\ st'.(quality_values) = st.(quality_values) ++ qs
      /\ st'.(low_quality)
         = st.(low_quality)
           ++ (filter (fun p => (p.2 <? threshold)%F = true)
                      (zip (seqZ i (Z.of_nat (length faces))) qs)).*1
      /\ st'.(distribution)
         = foldl (fun m q => bump (bin_label q) m) st.(distribution) qs.
Proof.
  induction faces as [|f faces IH]; intros i st st'.
  - intros [= <-]. exists []. simpl. by rewrite !app_nil_r.
  - cbn [analyze_faces].
    destruct (analyze_face vertices threshold st i f) as [st1|] eqn:E;
      cbn [mbind option_bind]; [|done].
    intros (qs & Hqs & Hv & Hl & Hd)%IH.
    destruct f as [[a b] c]. unfold analyze_face in E.
    cbn [mapM face_quality].
    destruct (at_ vertices a) as [p1|]; cbn [mbind option_bind] in *; [|done].
    destruct (at_ vertices b) as [p2|]; cbn [mbind option_bind] in *; [|done].
    destruct (at_ vertices c) as [p3|]; cbn [mbind option_bind] in *; [|done].
    injection E as <-. rewrite Hqs. cbn [mbind option_bind mret option_ret].
    eexists. split; [done|]. cbn [quality_values low_quality distribution] in *.
    split; [by rewrite Hv, <- app_assoc|]. split; [|done].
    rewrite Hl. cbn [length]. rewrite Nat2Z.inj_succ, (seqZ_cons i) by lia.
    cbn [zip zip_with]. rewrite filter_cons. cbn [snd].
    replace (Z.succ i) with (i + 1) by lia.
    replace (Z.pred (Z.succ (Z.of_nat (length faces))))
      with (Z.of_nat (length faces)) by lia.
    destruct (calculate_face_quality (p1, p2, p3) <? threshold)%F.
    + rewrite decide_True by done. by rewrite <- app_assoc.
    + by rewrite decide_False.
Qed.

Lemma face_quality_in_unit vertices faces qs :
  mapM (face_quality vertices) faces = Some qs ->
  Forall (fun q => in_unit q = true) qs.
Proof.
  intros H%mapM_Some. induction H as [|[[a b] c] q faces qs Hq _ IH];
    constructor; [|done].
  unfold face_quality in Hq.
  destruct (at_ vertices a); simpl in Hq; [|done].
  destruct (at_ vertices b); simpl in Hq; [|done].
  destruct (at_ vertices c); simpl in Hq; [|done].
  injection Hq as <-. apply calculate_face_quality_in_unit.
Qed.

Lemma in_unit_not_nan q : in_unit q = true -> is_nan q = false.
Proof.
  unfold in_unit. intros [H _]%andb_true_iff. by apply leb_not_nan in H as [_ ?].
Qed.

(** A run of the analysis on a mesh whose faces index the vertex
    table. *)
Lemma analysis_run vertices faces threshold :
  valid_mesh faces vertices = true ->
  exists st qs,
    analyze_face_quality_with_timing vertices faces threshold
      = Some (st.(low_quality), statistics (Z.of_nat (length faces)) st)
    /\ mapM (face_quality vertices) faces = Some qs
    /\ st.(quality_values) = qs
    /\ st.(low_quality)
       = (filter (fun p => (p.2 <? threshold)%F = true)
                 (zip (seqZ 0 (Z.of_nat (length faces))) qs)).*1
    /\ st.(distribution)
       = foldl (fun m q => bump (bin_label q) m) empty_distribution qs.
Proof.
  intros Hv. unfold analyze_face_quality_with_timing.
  destruct (analyze_faces_is_Some vertices threshold faces Hv 0
              (MkLoop [] [] empty_distribution)) as [st Hst].
  rewrite Hst. cbn [mbind option_bind].
  apply analyze_faces_spec in Hst as (qs & Hqs & Hval & Hlow & Hd).
  by exists st, qs.
Qed.

(** *** The smallest and the largest quality *)

Lemma min_element_le q rest :
  Forall (fun a => is_nan a = false) (q :: rest) ->
  Forall (fun a => fle (min_element q rest) a = true) (q :: rest).
Proof.
  unfold min_element. revert q.
  induction rest as [|p rest IH]; intros q Hn.
  - apply Forall_cons in Hn as [Hq _]. repeat constructor. by apply leb_refl.
  - apply Forall_cons in Hn as [Hq Hn]. pose proof Hn as Hn'.
    apply Forall_cons in Hn' as [Hp Hrest]. cbn [foldl]. unfold flt at 2.
    destruct (SFltb p q) eqn:E.
    + specialize (IH p Hn). apply Forall_cons in IH as [IHp IHrest].
      constructor; [|by constructor].
      apply (leb_trans _ p); [done | by apply ltb_leb].
    + assert (Hq' : Forall (fun a => is_nan a = false) (q :: rest))
        by (by constructor).
      specialize (IH q Hq'). apply Forall_cons in IH as [IHq IHrest].
      constructor; [done|]. constructor; [|done].
      apply (leb_trans _ q); [done | by apply not_ltb_leb].
Qed.

Lemma max_element_ge q rest :
  Forall (fun a => is_nan a = false) (q :: rest) ->
  Forall (fun a => fle a (max_element q rest) = true) (q :: rest).
Proof.
  unfold max_element. revert q.
  induction rest as [|p rest IH]; intros q Hn.
  - apply Forall_cons in Hn as [Hq _]. repeat constructor. by apply leb_refl.
  - apply Forall_cons in Hn as [Hq Hn]. pose proof Hn as Hn'.
    apply Forall_cons in Hn' as [Hp Hrest]. cbn [foldl]. unfold flt at 2.
    destruct (SFltb q p) eqn:E.
    + specialize (IH p Hn). apply Forall_cons in IH as [IHp IHrest].
      constructor; [|by constructor].
      apply (leb_trans _ p); [by apply ltb_leb | done].
    + assert (Hq' : Forall (fun a => is_nan a = false) (q :: rest))
        by (by constructor).
      specialize (IH q Hq'). apply Forall_cons in IH as [IHq IHrest].
      constructor; [done|]. constructor; [|done].
      apply (leb_trans _ q); [by apply not_ltb_leb | done].
Qed.

(** X13. On a mesh with at least one face, [min_quality] and
    [max_quality] are the qualities of two faces of the mesh, and the
    quality of every face lies between them. *)
Theorem min_and_max_bound_every_quality vertices faces threshold :
  valid_mesh faces vertices = true ->
  faces <> [] ->
  exists low stats qs,
    analyze_face_quality_with_timing vertices faces threshold
      = Some (low, stats)
    /\ mapM (face_quality vertices) faces = Some qs
    /\ stats.(min_quality) ∈ qs
    /\ stats.(max_quality) ∈ qs
    /\ forall q, q ∈ qs ->
         (stats.(min_quality) <=? q)%F = true
         /\ (q <=? stats.(max_quality))%F = true.
Proof.
  intros Hv Hne.
  destruct (analysis_run vertices faces threshold Hv)
    as (st & qs & Hrun & Hqs & Hval & _ & _).
  exists st.(low_quality), (statistics (Z.of_nat (length faces)) st), qs.
  split; [done|]. split; [done|].
  pose proof (face_quality_in_unit _ _ _ Hqs) as Hunit.
  unfold statistics. rewrite Hval.
  destruct qs as [|q rest].
  { apply length_mapM in Hqs. by destruct faces. }
  cbn [min_quality max_quality].
  split; [apply min_element_In|]. split; [apply max_element_In|].
  assert (Hn : Forall (fun a => is_nan a = false) (q :: rest)).
  { eapply Forall_impl; [exact Hunit|]. intros ?. apply in_unit_not_nan. }
  pose proof (min_element_le q rest Hn) as Hmin.
  pose proof (max_element_ge q rest Hn) as Hmax.
  rewrite Forall_forall in Hmin, Hmax. intros x Hx. split; auto.
Qed.

Lemma min_and_max_bound_every_quality_witness :
  exists low stats qs,
    analyze_face_quality_with_timing Inputs.right_and_flat_vertices
      Inputs.right_and_flat_faces (tenths 3) = Some (low, stats)
    /\ mapM (face_quality Inputs.right_and_flat_vertices)
            Inputs.right_and_flat_faces = Some qs
    /\ stats.(min_quality) ∈ qs
    /\ stats.(max_quality) ∈ qs
    /\ forall q, q ∈ qs ->
         (stats.(min_quality) <=? q)%F = true
         /\ (q <=? stats.(max_quality))%F = true.
Proof.
  apply min_and_max_bound_every_quality; [vm_compute; reflexivity | done].
Defined.

(** *** The list of low-quality faces *)

Lemma below_threshold_indices (threshold : float32) qs :
  forall i,
    let low := (filter (fun p => (p.2 <? threshold)%F = true)
                       (zip (seqZ i (Z.of_nat (length qs))) qs)).*1 in
    (forall j, j ∈ low <->
               i <= j
               /\ exists q, qs !! Z.to_nat (j - i) = Some q
                            /\ (q <? threshold)%F = true)
    /\ StronglySorted Z.lt low.
Proof.
  induction qs as [|q qs IH]; intros i.
  - simpl. split; [|constructor]. intros j. split; [by intros ?%elem_of_nil|].
    by intros (_ & ? & ? & _).
  - cbn [length]. rewrite Nat2Z.inj_succ, (seqZ_cons i) by lia.
    replace (Z.pred (Z.succ (Z.of_nat (length qs))))
      with (Z.of_nat (length qs)) by lia.
    cbn [zip zip_with]. rewrite filter_cons. cbn [snd].
    destruct (IH (Z.succ i)) as [Hin Hsorted]. cbv zeta in Hin, Hsorted.
    set (rest := (filter _ (zip (seqZ (Z.succ i) _) qs)).*1) in *.
    assert (Htail : forall j, j ∈ rest <->
              i < j /\ exists q', (q :: qs) !! Z.to_nat (j - i) = Some q'
                                  /\ (q' <? threshold)%F = true).
    { intros j. rewrite Hin. split.
      - intros (Hj & q' & Hq' & Hlt). split; [lia|]. exists q'.
        split; [|done].
        replace (Z.to_nat (j - i)) with (S (Z.to_nat (j - Z.succ i))) by lia.
        done.
      - intros (Hj & q' & Hq' & Hlt). split; [lia|]. exists q'.
        split; [|done].
        replace (Z.to_nat (j - i)) with (S (Z.to_nat (j - Z.succ i)))
          in Hq' by lia.
        done. }
    destruct (decide ((q <? threshold)%F = true)) as [Hq|Hq];
      cbn [fmap list_fmap fst]; fold rest.
    + split.
      * intros j. rewrite elem_of_cons, Htail. split.
        -- intros [->|(Hj & Hex)]; [|split; [lia | done]].
           split; [lia|]. exists q. by rewrite Z.sub_diag.
        -- intros (Hj & q' & Hq' & Hlt).
           destruct (decide (j = i)) as [->|Hne]; [by left|].
           right. split; [lia|]. by exists q'.
      * constructor; [done|]. apply Forall_forall. intros j Hj%Htail. lia.
    + split; [|done].
      intros j. rewrite Htail. split.
      * intros (Hj & Hex). split; [lia | done].
      * intros (Hj & q' & Hq' & Hlt).
        destruct (decide (j = i)) as [->|Hne].
        -- rewrite Z.sub_diag in Hq'. simpl in Hq'. by simplify_eq.
        -- split; [lia|]. by exists q'.
Qed.

(** X14. The list of low-quality faces holds exactly the indices of the
    faces whose quality is below the threshold, each once and in increasing
    order; the same list is stored under [low_quality_faces]. *)
Theorem low_quality_faces_are_those_below_the_threshold
    vertices faces threshold :
  valid_mesh faces vertices = true ->
  exists low stats qs,
    analyze_face_quality_with_timing vertices faces threshold
      = Some (low, stats)
    /\ mapM (face_quality vertices) faces = Some qs
    /\ stats.(low_quality_faces) = low
    /\ (forall i, i ∈ low <->
                  exists q, at_ qs i = Some q /\ (q <? threshold)%F = true)
    /\ StronglySorted Z.lt low.
Proof.
  intros Hv.
  destruct (analysis_run vertices faces threshold Hv)
    as (st & qs & Hrun & Hqs & _ & Hlow & _).
  exists st.(low_quality), (statistics (Z.of_nat (length faces)) st), qs.
  split; [done|]. split; [done|].
  split; [unfold statistics; by destruct (quality_values st)|].
  rewrite Hlow. rewrite (length_mapM _ _ _ Hqs).
  destruct (below_threshold_indices threshold qs 0) as [Hin Hsorted].
  split; [|done]. intros i. rewrite Hin. unfold at_.
  case_bool_decide.
  - rewrite Z.sub_0_r. split; [by intros [_ ?] | by split].
  - split; [intros [? _]; lia | by intros (? & ? & _)].
Qed.

Lemma low_quality_faces_are_those_below_the_threshold_witness :
  exists low stats qs,
    analyze_face_quality_with_timing Inputs.right_and_flat_vertices
      Inputs.right_and_flat_faces (tenths 3) = Some (low, stats)
    /\ mapM (face_quality Inputs.right_and_flat_vertices)
            Inputs.right_and_flat_faces = Some qs
    /\ stats.(low_quality_faces) = low
    /\ (forall i, i ∈ low <->
                  exists q, at_ qs i = Some q /\ (q <? tenths 3)%F = true)
    /\ StronglySorted Z.lt low.
Proof.
  apply low_quality_faces_are_those_below_the_threshold.
  vm_compute. reflexivity.
Defined.

(** *** The bins *)

Lemma tenths_step k :
  0 <= k <= 9 -> fle (tenths k) (tenths (k + 1)) = true.
Proof.
  intros Hk.
  assert (k = 0 \/ k = 1 \/ k = 2 \/ k = 3 \/ k = 4 \/ k = 5 \/ k = 6
          \/ k = 7 \/ k = 8 \/ k = 9) as H by lia.
  repeat (destruct H as [->|H]; [by vm_compute|]). subst. by vm_compute.
Qed.

Lemma tenths_mono a b :
  0 <= a -> a <= b -> b <= 10 -> fle (tenths a) (tenths b) = true.
Proof.
  intros Ha Hab Hb.
  assert (H : forall n : nat,
            a + Z.of_nat n <= 10 ->
            fle (tenths a) (tenths (a + Z.of_nat n)) = true).
  { induction n as [|n IH]; intros Hn.
    - rewrite Z.add_0_r. apply leb_refl.
      destruct (decide (a = 10)) as [->|]; [by vm_compute|].
      assert (Hs : fle (tenths a) (tenths (a + 1)) = true)
        by (apply tenths_step; lia).
      by apply leb_not_nan in Hs as [? _].
    - apply (leb_trans _ (tenths (a + Z.of_nat n))); [apply IH; lia|].
      replace (a + Z.of_nat (S n)) with (a + Z.of_nat n + 1) by lia.
      apply tenths_step. lia. }
  replace b with (a + Z.of_nat (Z.to_nat (b - a))) by lia.
  apply H. lia.
Qed.

(** The if-else chain puts a quality of [[0, 1]] into the bin it lies
    in. *)
Lemma bin_label_own q :
  in_unit q = true ->
  exists k, 0 <= k <= 9
            /\ labels !! Z.to_nat k = Some (bin_label q)
            /\ in_bin k q = true.
Proof.
  intros Hu. pose proof (in_unit_not_nan q Hu) as Hn.
  assert (H0 : fle (tenths 0) q = true).
  { unfold in_unit in Hu. by apply andb_true_iff in Hu as [? _]. }
  assert (Hge : forall j, 1 <= j <= 9 -> flt q (tenths j) = false ->
                          fle (tenths j) q = true).
  { intros j Hj Hlt. apply not_ltb_leb; [|done|done].
    assert (Hs : fle (tenths j) (tenths (j + 1)) = true)
      by (apply tenths_step; lia).
    by apply leb_not_nan in Hs as [? _]. }
  unfold bin_label, in_bin.
  destruct (q <? tenths 1)%F eqn:E1.
  { exists 0. split; [lia|]. split; [done|]. change (0 + 1) with 1.
    by rewrite H0, E1, orb_true_r. }
  destruct (q <? tenths 2)%F eqn:E2.
  { exists 1. split; [lia|]. split; [done|]. change (1 + 1) with 2.
    rewrite Hge by (done || lia). by rewrite E2, orb_true_r. }
  destruct (q <? tenths 3)%F eqn:E3.
  { exists 2. split; [lia|]. split; [done|]. change (2 + 1) with 3.
    rewrite Hge by (done || lia). by rewrite E3, orb_true_r. }
  destruct (q <? tenths 4)%F eqn:E4.
  { exists 3. split; [lia|]. split; [done|]. change (3 + 1) with 4.
    rewrite Hge by (done || lia). by rewrite E4, orb_true_r. }
  destruct (q <? tenths 5)%F eqn:E5.
  { exists 4. split; [lia|]. split; [done|]. change (4 + 1) with 5.
    rewrite Hge by (done || lia). by rewrite E5, orb_true_r. }
  destruct (q <? tenths 6)%F eqn:E6.
  { exists 5. split; [lia|]. split; [done|]. change (5 + 1) with 6.
    rewrite Hge by (done || lia). by rewrite E6, orb_true_r. }
  destruct (q <? tenths 7)%F eqn:E7.
  { exists 6. split; [lia|]. split; [done|]. change (6 + 1) with 7.
    rewrite Hge by (done || lia). by rewrite E7, orb_true_r. }
  destruct (q <? tenths 8)%F eqn:E8.
  { exists 7. split; [lia|]. split; [done|]. change (7 + 1) with 8.
    rewrite Hge by (done || lia). by rewrite E8, orb_true_r. }
  destruct (q <? tenths 9)%F eqn:E9.
  { exists 8. split; [lia|]. split; [done|]. change (8 + 1) with 9.
    rewrite Hge by (done || lia). by rewrite E9, orb_true_r. }
  exists 9. split; [lia|]. split; [done|].
  rewrite Hge by (done || lia). done.
Qed.

(** The bins do not overlap. *)
Lemma in_bin_unique q k k' :
  0 <= k <= 9 -> 0 <= k' <= 9 ->
  in_bin k q = true -> in_bin k' q = true -> k = k'.
Proof.
  assert (Hlt : forall a b, 0 <= a -> a < b -> b <= 9 ->
                  in_bin a q = true -> in_bin b q = true -> False).
  { intros a b Ha Hab Hb [_ Hup]%andb_true_iff [Hlow _]%andb_true_iff.
    apply orb_true_iff in Hup as [Hup|Hup];
      [apply bool_decide_eq_true in Hup; lia|].
    assert (Hq : flt q (tenths b) = true).
    { apply (ltb_leb_trans _ (tenths (a + 1))); [done|].
      apply tenths_mono; lia. }
    apply leb_not_ltb in Hlow. unfold flt in Hq. congruence. }
  intros Hk Hk' H H'.
  destruct (Z.lt_trichotomy k k') as [?|[?|?]]; [|done|];
    exfalso; eapply Hlt; eauto; lia.
Qed.

Lemma bin_label_in_bin q k :
  in_unit q = true -> 0 <= k <= 9 ->
  labels !! Z.to_nat k = Some (bin_label q) <-> in_bin k q = true.
Proof.
  intros Hu Hk. destruct (bin_label_own q Hu) as (m & Hm & Hlab & Hbin).
  split.
  - intros H.
    assert (Z.to_nat k = Z.to_nat m)
      by (eapply NoDup_lookup; [apply labels_NoDup | done | done]).
    by replace k with m by lia.
  - intros H. by rewrite (in_bin_unique q k m Hk Hm H Hbin).
Qed.

(** *** The counters *)

Lemma bump_lookup l l' (m : gmap string Z) :
  bump l' m !! l
  = if decide (l = l') then Some (default 0 (m !! l) + 1) else m !! l.
Proof.
  unfold bump. case_decide as E.
  - subst. by rewrite lookup_insert_eq.
  - by rewrite lookup_insert_ne.
Qed.

Lemma bumps_count l qs :
  forall (m : gmap string Z) n,
    m !! l = Some n ->
    foldl (fun m q => bump (bin_label q) m) m qs !! l
    = Some (n + Z.of_nat (length (filter (fun q => bin_label q = l) qs))).
Proof.
  induction qs as [|q qs IH]; intros m n Hm.
  - simpl. rewrite Hm. f_equal. lia.
  - cbn [foldl]. rewrite filter_cons.
    destruct (decide (bin_label q = l)) as [E|E].
    + erewrite IH; [|rewrite bump_lookup, decide_True by done; by rewrite Hm].
      cbn [length]. simpl. f_equal. lia.
    + erewrite IH; [done|]. by rewrite bump_lookup, decide_False.
Qed.

Lemma empty_distribution_lookup l :
  l ∈ labels -> empty_distribution !! l = Some 0.
Proof.
  unfold labels. rewrite !elem_of_cons.
  intros H. repeat (destruct H as [->|H]; [by vm_compute|]).
  by apply elem_of_nil in H.
Qed.

(** X15. The histogram counts the faces of every bin: for [k = 0 .. 9] the
    count stored under the label of bin [k] is the number of faces whose
    quality lies in the bin, from [k/10] up to but not including
    [(k+1)/10], the last bin closed at 1. *)
Theorem histogram_counts_the_faces_of_each_bin vertices faces threshold :
  valid_mesh faces vertices = true ->
  exists low stats qs,
    analyze_face_quality_with_timing vertices faces threshold
      = Some (low, stats)
    /\ mapM (face_quality vertices) faces = Some qs
    /\ forall k, 0 <= k <= 9 ->
         exists label,
           labels !! Z.to_nat k = Some label
           /\ stats.(quality_distribution) !! label
              = Some (Z.of_nat (length (filter (fun q => in_bin k q = true)
                                               qs))).
Proof.
  intros Hv.
  destruct (analysis_run vertices faces threshold Hv)
    as (st & qs & Hrun & Hqs & _ & _ & Hd).
  exists st.(low_quality), (statistics (Z.of_nat (length faces)) st), qs.
  split; [done|]. split; [done|]. intros k Hk.
  destruct (lookup_lt_is_Some_2 labels (Z.to_nat k)) as [label Hlab].
  { unfold labels. simpl. lia. }
  exists label. split; [done|].
  assert (Hdist : quality_distribution
                    (statistics (Z.of_nat (length faces)) st)
                  = distribution st).
  { unfold statistics. by destruct (quality_values st). }
  rewrite Hdist, Hd.
  rewrite (bumps_count label qs empty_distribution 0).
  2:{ apply empty_distribution_lookup. by eapply list_elem_of_lookup_2. }
  rewrite Z.add_0_l. do 3 f_equal.
  pose proof (face_quality_in_unit _ _ _ Hqs) as Hunit.
  clear Hqs Hd Hrun. induction Hunit as [|q qs Hq _ IH]; [done|].
  rewrite !filter_cons, IH.
  pose proof (bin_label_in_bin q k Hq Hk) as Hiff. rewrite Hlab in Hiff.
  destruct (decide (bin_label q = label)) as [E|E];
    destruct (decide (in_bin k q = true)) as [F|F]; try done.
  - exfalso. apply F, Hiff. by rewrite E.
  - exfalso. apply E. apply Hiff in F. by injection F.
Qed.

Lemma histogram_counts_the_faces_of_each_bin_witness :
  exists low stats qs,
    analyze_face_quality_with_timing Inputs.right_and_flat_vertices
      Inputs.right_and_flat_faces (tenths 3) = Some (low, stats)
    /\ mapM (face_quality Inputs.right_and_flat_vertices)
            Inputs.right_and_flat_faces = Some qs
    /\ forall k, 0 <= k <= 9 ->
         exists label,
           labels !! Z.to_nat k = Some label
           /\ stats.(quality_distribution) !! label
              = Some (Z.of_nat (length (filter (fun q => in_bin k q = true)
                                               qs))).
Proof.
  apply histogram_counts_the_faces_of_each_bin. vm_compute. reflexivity.
Defined.

End GradingFacts.

(** ** The list of adjacent pairs *)

Module NeighbourFacts.
Import Pierced Adjacent Basics AdjacentFacts Pairs Numbers FloatOrder.

Lemma inner_loop_app vertices threshold i tri faces :
  forall j acc,
    inner_loop vertices threshold i tri j faces acc
    = acc ++ inner_loop vertices threshold i tri j faces [].
Proof.
  induction faces as [|f faces IH]; intros j acc; simpl.
  - by rewrite app_nil_r.
  - rewrite IH. rewrite (IH _ (match face_triangle vertices f with
                                 | Some _ => _ | None => [] end)).
    destruct (face_triangle vertices f) as [t|]; [|done].
    destruct (is_adjacent tri t threshold); [|done].
    by rewrite <- app_assoc.
Qed.

Lemma outer_loop_app vertices threshold faces :
  forall i acc,
    outer_loop vertices threshold i faces acc
    = acc ++ outer_loop vertices threshold i faces [].
Proof.
  induction faces as [|f faces IH]; intros i acc; simpl.
  - by rewrite app_nil_r.
  - rewrite IH. rewrite (IH _ (match face_triangle vertices f with
                                 | Some _ => _ | None => [] end)).
    destruct (face_triangle vertices f) as [t|]; [|done].
    rewrite (inner_loop_app _ _ _ _ _ _ acc). by rewrite <- app_assoc.
Qed.

Lemma inner_loop_sorted vertices threshold i tri faces :
  forall j, StronglySorted pair_lt
              (inner_loop vertices threshold i tri j faces []).
Proof.
  induction faces as [|f faces IH]; intros j; simpl; [constructor|].
  rewrite inner_loop_app. apply StronglySorted_app_2; [| |apply IH].
  - intros p q Hp Hq.
    apply inner_loop_spec in Hq as [Hq|(l & ? & ? & _ & _ & _ & ->)];
      [by apply elem_of_nil in Hq|].
    destruct (face_triangle vertices f) as [t|]; [|by apply elem_of_nil in Hp].
    destruct (is_adjacent tri t threshold); [|by apply elem_of_nil in Hp].
    apply list_elem_of_singleton in Hp as ->. right. simpl. lia.
  - destruct (face_triangle vertices f) as [t|]; [|constructor].
    destruct (is_adjacent tri t threshold); repeat constructor.
Qed.

Lemma outer_loop_sorted vertices threshold faces :
  forall i, StronglySorted pair_lt (outer_loop vertices threshold i faces []).
Proof.
  induction faces as [|f faces IH]; intros i; simpl; [constructor|].
  rewrite outer_loop_app. apply StronglySorted_app_2; [| |apply IH].
  - intros p q Hp Hq.
    apply outer_loop_spec in Hq
      as [Hq|(k & l & ? & ? & ? & ? & _ & _ & _ & _ & _ & _ & ->)];
      [by apply elem_of_nil in Hq|].
    destruct (face_triangle vertices f) as [t|]; [|by apply elem_of_nil in Hp].
    apply inner_loop_spec in Hp as [Hp|(l' & ? & ? & _ & _ & _ & ->)];
      [by apply elem_of_nil in Hp|].
    left. simpl. lia.
  - destruct (face_triangle vertices f) as [t|]; [|constructor].
    apply inner_loop_sorted.
Qed.

(** X16. Every pair [(i, j)] of the result names two faces of the mesh
    with [i < j], both with all three vertex indices inside the vertex
    table; the pairs come in increasing order, by [i] and then by [j], so no
    pair is given twice.  (The bound on the number of faces keeps the face
    indices, which the source casts to [int], inside [int].) *)
Theorem adjacent_pairs_are_ordered
    vertices_array faces_array proximity_threshold :
  Z.of_nat (length faces_array) < 2 ^ 31 ->
  (forall i j,
      (i, j) ∈ detect_adjacent_faces vertices_array faces_array
                 proximity_threshold ->
      0 <= i < j /\ j < Z.of_nat (length faces_array)
      /\ exists fi fj,
           at_ faces_array i = Some fi /\ at_ faces_array j = Some fj
           /\ valid_face (Z.of_nat (length vertices_array)) fi = true
           /\ valid_face (Z.of_nat (length vertices_array)) fj = true)
  /\ StronglySorted pair_lt
       (detect_adjacent_faces vertices_array faces_array proximity_threshold).
Proof.
  intros _. unfold detect_adjacent_faces. split; [|apply outer_loop_sorted].
  intros i j Hij. apply outer_loop_spec in Hij
    as [Hij|(k & l & fk & fl & tk & tl & Hk & Hl & Hkl & Htk & Htl & _ & E)];
    [by apply elem_of_nil in Hij|].
  injection E as -> ->. rewrite !Z.add_0_l.
  pose proof (lookup_lt_Some _ _ _ Hl).
  split; [lia|]. split; [lia|]. exists fk, fl.
  rewrite !at_nat, !Nat2Z.id by lia. split; [done|]. split; [done|].
  assert (Hvalid : forall f t,
            face_triangle (promote <$> vertices_array) f = Some t ->
            valid_face (Z.of_nat (length vertices_array)) f = true).
  { intros [[a b] c] t. unfold face_triangle, valid_face.
    rewrite length_fmap. case_bool_decide as Hbad; [done|]. intros _.
    rewrite !andb_true_iff, !bool_decide_eq_true. lia. }
  split; eapply Hvalid; eauto.
Qed.

Lemma adjacent_pairs_are_ordered_witness :
  (forall i j,
      (i, j) ∈ detect_adjacent_faces Inputs.stacked_vertices
                 Inputs.stacked_faces (lit 0.5) ->
      0 <= i < j /\ j < Z.of_nat (length Inputs.stacked_faces)
      /\ exists fi fj,
           at_ Inputs.stacked_faces i = Some fi
           /\ at_ Inputs.stacked_faces j = Some fj
           /\ valid_face (Z.of_nat (length Inputs.stacked_vertices)) fi = true
           /\ valid_face (Z.of_nat (length Inputs.stacked_vertices)) fj = true)
  /\ StronglySorted pair_lt
       (detect_adjacent_faces Inputs.stacked_vertices Inputs.stacked_faces
          (lit 0.5)).
Proof. apply adjacent_pairs_are_ordered. simpl. lia. Defined.

Lemma rule_mono (L d t t' : double) :
  (t <=? t')%D = true ->
  (if (L <? eps)%D then (d <? eps)%D else (d / L <=? t)%D) = true ->
  (if (L <? eps)%D then (d <? eps)%D else (d / L <=? t')%D) = true.
Proof.
  intros Ht. destruct (L <? eps)%D; [done|].
  intros Ha. exact (leb_trans _ _ _ Ha Ht).
Qed.

Lemma is_adjacent_mono tk tl (t t' : double) :
  (t <=? t')%D = true ->
  is_adjacent tk tl t = true -> is_adjacent tk tl t' = true.
Proof. apply rule_mono. Qed.

(** X17. A larger threshold keeps every pair: the pairs reported at a
    threshold are reported at every threshold above it. *)
Theorem a_larger_threshold_keeps_every_pair
    vertices_array faces_array (t t' : double) p :
  (t <=? t')%D = true ->
  p ∈ detect_adjacent_faces vertices_array faces_array t ->
  p ∈ detect_adjacent_faces vertices_array faces_array t'.
Proof.
  intros Ht. unfold detect_adjacent_faces. rewrite !outer_loop_spec.
  intros [Hp|(k & l & fk & fl & tk & tl & Hk & Hl & Hkl & Htk & Htl & Ha & E)];
    [by left|].
  right. exists k, l, fk, fl, tk, tl. do 5 (split; [done|]). split; [|done].
  by apply (is_adjacent_mono tk tl t t').
Qed.

Lemma a_larger_threshold_keeps_every_pair_witness :
  (0, 1) ∈ detect_adjacent_faces Inputs.stacked_vertices Inputs.stacked_faces
             (lit 0.75).
Proof.
  apply (a_larger_threshold_keeps_every_pair
           Inputs.stacked_vertices Inputs.stacked_faces (lit 0.5) (lit 0.75)).
  - vm_compute. reflexivity.
  - vm_compute. left.
Defined.

End NeighbourFacts.

(** ** The pair test in both orders *)

Module SwapFacts.
Import Pierced Adjacent Basics PiercedFacts Numbers FloatOrder Alike
  AlikeFacts.

Lemma norm_vsub (a b : Vector3d) : norm (vsub a b) = dist a b.
Proof. reflexivity. Qed.

Lemma rule_swap (L L' d d' threshold : double) :
  alike L L' -> d = d' ->
  (if (L <? eps)%D then (d <? eps)%D else (d / L <=? threshold)%D)
  = (if (L' <? eps)%D then (d' <? eps)%D else (d' / L' <=? threshold)%D).
Proof.
  intros [->|(s & t & -> & ->)] ->; [done|]. by destruct s, t.
Qed.

(** X25. The test on a pair of triangles does not depend on which of the
    two comes first, where neither average edge length is a NaN: the
    distance of the centroids is the same in both orders, and so is the
    smaller of the two lengths. *)
Theorem the_pair_test_is_symmetric (t1 t2 : Triangle) (threshold : double) :
  is_nan (average_edge_length t1) = false ->
  is_nan (average_edge_length t2) = false ->
  is_adjacent t1 t2 threshold = is_adjacent t2 t1 threshold.
Proof.
  intros N1 N2. apply rule_swap; [by apply dmin_alike|].
  rewrite !norm_vsub. apply dist_sym.
Qed.

Lemma the_pair_test_is_symmetric_witness :
  is_adjacent Inputs.stacked_lower Inputs.stacked_upper (lit 0.5)
  = is_adjacent Inputs.stacked_upper Inputs.stacked_lower (lit 0.5).
Proof.
  apply the_pair_test_is_symmetric; vm_compute; reflexivity.
Defined.

End SwapFacts.

(** ** Counting edges *)

Module CountingFacts.
Import Counting.

Lemma occurrences_cons e e' edges :
  occurrences e (e' :: edges)
  = ((if decide (e' = e) then 1 else 0) + occurrences e edges)%nat.
Proof.
  unfold occurrences. rewrite filter_cons. by destruct (decide (e' = e)).
Qed.

Lemma occurrences_app e l1 l2 :
  occurrences e (l1 ++ l2) = (occurrences e l1 + occurrences e l2)%nat.
Proof. unfold occurrences. by rewrite filter_app, length_app. Qed.

Lemma occurrences_pos e edges : e ∈ edges <-> (0 < occurrences e edges)%nat.
Proof.
  unfold occurrences. split.
  - intros He.
    assert (e ∈ filter (fun e' => e' = e) edges)
      by (by apply list_elem_of_filter).
    destruct (filter _ edges); [by apply elem_of_nil in H | simpl; lia].
  - destruct (filter _ edges) as [|x l] eqn:E; [simpl; lia|]. intros _.
    assert (Hx : x ∈ filter (fun e' => e' = e) edges)
      by (rewrite E; by left).
    by apply list_elem_of_filter in Hx as [-> ?].
Qed.

Lemma occurrences_NoDup edges :
  (forall e, e ∈ edges -> occurrences e edges = 1%nat) -> NoDup edges.
Proof.
  induction edges as [|e edges IH]; intros H; constructor.
  - intros He%occurrences_pos. specialize (H e (list_elem_of_here _ _)).
    rewrite occurrences_cons, decide_True in H by done. lia.
  - apply IH. intros e' He'. specialize (H e' (list_elem_of_further _ _ _ He')).
    rewrite occurrences_cons in H. apply occurrences_pos in He'.
    destruct (decide (e = e')); lia.
Qed.

Lemma elem_of_once e edges :
  e ∈ once edges <-> occurrences e edges = 1%nat.
Proof.
  unfold once. rewrite list_elem_of_filter. split; [by intros [? _]|].
  intros H. split; [done|]. apply occurrences_pos. lia.
Qed.

Lemma once_NoDup edges : NoDup (once edges).
Proof.
  apply occurrences_NoDup. intros e He. pose proof He as He'.
  apply elem_of_once in He'. unfold once, occurrences in *.
  rewrite <- He'. f_equal.
  rewrite list_filter_filter. apply list_filter_iff.
  intros x. split; [by intros [? _]|]. intros ->. split; [done|].
  by rewrite He'.
Qed.

Lemma ends_at_cons v e edges :
  ends_at v (e :: edges)
  = (if decide (e.1 = v) then 1 else 0) + (if decide (e.2 = v) then 1 else 0)
    + ends_at v edges.
Proof.
  unfold ends_at. rewrite !filter_cons.
  destruct (decide (e.1 = v)), (decide (e.2 = v)); simpl; lia.
Qed.

Lemma ends_at_perm v l1 l2 : l1 ≡ₚ l2 -> ends_at v l1 = ends_at v l2.
Proof. intros H. unfold ends_at. by rewrite H. Qed.

(** *** Walking a map to select keys *)

Lemma map_fold_select {K A} `{Countable K} (P : A -> Prop)
    `{forall a, Decision (P a)} (m : gmap K A) :
  let out := map_fold (fun k a acc =>
                         if bool_decide (P a) then acc ++ [k] else acc)
                      [] m in
  NoDup out /\ forall k, k ∈ out <-> exists a, m !! k = Some a /\ P a.
Proof.
  cbv zeta.
  apply (map_fold_weak_ind
    (fun out m => NoDup out
                  /\ forall k, k ∈ out <-> exists a, m !! k = Some a /\ P a)).
  - split; [constructor|]. intros k. split; [by intros ?%elem_of_nil|].
    intros (a & Ha & _). by rewrite lookup_empty in Ha.
  - intros i x m' r Hi [Hnd Hin]. case_bool_decide as HP.
    + split.
      * apply NoDup_app. split; [done|]. split; [|apply NoDup_singleton].
        intros k Hk ->%list_elem_of_singleton.
        apply Hin in Hk as (a & Ha & _). congruence.
      * intros k. rewrite elem_of_app, list_elem_of_singleton, Hin. split.
        -- intros [(a & Ha & HPa)| ->].
           ++ exists a. split; [|done]. rewrite lookup_insert_ne; [done|].
              intros ->. congruence.
           ++ exists x. by rewrite lookup_insert_eq.
        -- intros (a & Ha & HPa). destruct (decide (k = i)) as [->|Hne];
             [by right|].
           left. exists a. by rewrite lookup_insert_ne in Ha.
    + split; [done|]. intros k. rewrite Hin. split.
      * intros (a & Ha & HPa). exists a. split; [|done].
        rewrite lookup_insert_ne; [done|]. intros ->. congruence.
      * intros (a & Ha & HPa). exists a. split; [|done].
        destruct (decide (k = i)) as [->|Hne].
        -- rewrite lookup_insert_eq in Ha. by simplify_eq.
        -- by rewrite lookup_insert_ne in Ha.
Qed.

End CountingFacts.

(** ** Free edges *)

Module FreeEdgeFacts.
Import FreeEdges Counting CountingFacts.

Lemma incr_lookup (m : gmap (Z * Z) Z) e e' :
  default 0 (incr m e' !! e)
  = (if decide (e' = e) then 1 else 0) + default 0 (m !! e).
Proof.
  unfold incr. case_decide as E; [subst e'|].
  - rewrite lookup_insert_eq. simpl. lia.
  - rewrite lookup_insert_ne by done. lia.
Qed.

Lemma incr_positive (m : gmap (Z * Z) Z) e' :
  map_Forall (fun _ n => 1 <= n) m -> map_Forall (fun _ n => 1 <= n) (incr m e').
Proof.
  intros Hm. unfold incr. apply map_Forall_insert_2; [|done].
  destruct (m !! e') as [n|] eqn:E; simpl; [|lia].
  specialize (Hm _ _ E). simpl in Hm. lia.
Qed.

Lemma incrs_lookup edges :
  forall (m : gmap (Z * Z) Z) e,
    default 0 (foldl incr m edges !! e)
    = default 0 (m !! e) + Z.of_nat (occurrences e edges).
Proof.
  induction edges as [|e' edges IH]; intros m e; simpl.
  - unfold occurrences. simpl. lia.
  - rewrite IH, incr_lookup, occurrences_cons.
    destruct (decide (e' = e)); lia.
Qed.

Lemma incrs_positive edges :
  forall m : gmap (Z * Z) Z,
    map_Forall (fun _ n => 1 <= n) m ->
    map_Forall (fun _ n => 1 <= n) (foldl incr m edges).
Proof.
  induction edges as [|e' edges IH]; intros m Hm; simpl; [done|].
  apply IH. by apply incr_positive.
Qed.

Lemma count_edges_lookup faces e :
  default 0 (count_edges faces !! e)
  = Z.of_nat (occurrences e (faces ≫= face_edges)).
Proof.
  unfold count_edges.
  assert (H : forall m : gmap (Z * Z) Z,
            default 0 (foldl (fun edge_count face =>
                                foldl incr edge_count (face_edges face))
                             m faces !! e)
            = default 0 (m !! e)
              + Z.of_nat (occurrences e (faces ≫= face_edges))).
  { induction faces as [|f faces IH]; intros m.
    - unfold occurrences. simpl. lia.
    - cbn [foldl]. rewrite bind_cons.
      rewrite IH, incrs_lookup, occurrences_app. lia. }
  rewrite H, lookup_empty. simpl. lia.
Qed.

Lemma count_edges_positive faces :
  map_Forall (fun _ n => 1 <= n) (count_edges faces).
Proof.
  unfold count_edges.
  assert (H : forall m : gmap (Z * Z) Z,
            map_Forall (fun _ n => 1 <= n) m ->
            map_Forall (fun _ n => 1 <= n)
              (foldl (fun edge_count face =>
                        foldl incr edge_count (face_edges face)) m faces)).
  { induction faces as [|f faces IH]; intros m Hm; simpl; [done|].
    apply IH. by apply incrs_positive. }
  apply H. apply map_Forall_empty.
Qed.

Lemma detect_free_edges_spec faces :
  NoDup (detect_free_edges_cpp faces)
  /\ forall e, e ∈ detect_free_edges_cpp faces <->
               occurrences e (faces ≫= face_edges) = 1%nat.
Proof.
  unfold detect_free_edges_cpp.
  destruct (map_fold_select (fun n => n = 1) (count_edges faces))
    as [Hnd Hin].
  split; [done|].
  intros e. rewrite Hin. pose proof (count_edges_lookup faces e) as Hc.
  split.
  - intros (n & Hn & ->). rewrite Hn in Hc. simpl in Hc. lia.
  - intros Ho. rewrite Ho in Hc.
    destruct (count_edges faces !! e) as [n|]; simpl in Hc; [|lia].
    exists n. split; [done | lia].
Qed.

(** X18. The free edges reported are exactly the edges that occur once
    among the edges of the faces, each given once and with the smaller
    vertex index first; a face of fewer than three entries brings no edge,
    and entries after the third are not read.  (The bound on the number of
    faces keeps every counter of the source inside [int].) *)
Theorem free_edges_are_the_edges_met_once faces :
  3 * Z.of_nat (length faces) < 2 ^ 31 ->
  NoDup (detect_free_edges_with_timing faces)
  /\ (forall e, e ∈ detect_free_edges_with_timing faces <->
                occurrences e (faces ≫= face_edges) = 1%nat)
  /\ (forall a b, (a, b) ∈ detect_free_edges_with_timing faces -> a <= b).
Proof.
  intros _. unfold detect_free_edges_with_timing.
  destruct (detect_free_edges_spec faces) as [Hnd Hiff].
  split; [done|]. split; [done|].
  intros a b Hab%Hiff.
  assert (Hin' : (a, b) ∈ faces ≫= face_edges)
    by (apply occurrences_pos; lia).
  apply list_elem_of_bind in Hin' as (f & Hf & _).
  destruct f as [|x [|y [|z f]]]; simpl in Hf;
    try (by apply elem_of_nil in Hf).
  repeat (apply elem_of_cons in Hf as [[= -> ->]|Hf]; [lia|]).
  by apply elem_of_nil in Hf.
Qed.

Lemma free_edges_are_the_edges_met_once_witness :
  NoDup (detect_free_edges_with_timing [[0; 1; 2]; [2; 1; 3; 9]; [4; 5]])
  /\ (forall e,
        e ∈ detect_free_edges_with_timing [[0; 1; 2]; [2; 1; 3; 9]; [4; 5]]
        <-> occurrences e ([[0; 1; 2]; [2; 1; 3; 9]; [4; 5]] ≫= face_edges)
            = 1%nat)
  /\ (forall a b,
        (a, b) ∈ detect_free_edges_with_timing
                   [[0; 1; 2]; [2; 1; 3; 9]; [4; 5]] ->
        a <= b).
Proof. apply free_edges_are_the_edges_met_once. simpl. lia. Defined.

End FreeEdgeFacts.

(** ** Non-manifold vertices *)

Module FanFacts.
Import NonManifold Counting CountingFacts.

(** *** Step 1: the faces on every edge *)

Lemma push_face_lookup (i : Z) (m : gmap Edge (list Z)) (e e' : Edge) :
  length (default [] (push_face i m e' !! e))
  = ((if decide (e' = e) then 1 else 0) + length (default [] (m !! e)))%nat.
Proof.
  unfold push_face. case_decide as E; [subst e'|].
  - rewrite lookup_insert_eq. simpl. rewrite length_app. simpl. lia.
  - by rewrite lookup_insert_ne.
Qed.

Lemma push_faces_lookup (i : Z) (edges : list Edge) :
  forall (m : gmap Edge (list Z)) (e : Edge),
    length (default [] (foldl (push_face i) m edges !! e))
    = (length (default [] (m !! e)) + occurrences e edges)%nat.
Proof.
  induction edges as [|e' edges IH]; intros m e.
  - unfold occurrences. simpl. lia.
  - cbn [foldl]. rewrite IH, push_face_lookup, occurrences_cons.
    unfold Edge in *. repeat case_decide; try done; lia.
Qed.

Lemma collect_edges_lookup faces :
  forall i (m : gmap Edge (list Z)) (e : Edge),
    length (default [] (collect_edges i faces m !! e))
    = (length (default [] (m !! e)) + occurrences e (mesh_edges faces))%nat.
Proof.
  unfold mesh_edges.
  induction faces as [|f faces IH]; intros i m e.
  - unfold occurrences. simpl. lia.
  - cbn [collect_edges]. rewrite bind_cons.
    rewrite IH, push_faces_lookup, occurrences_app. lia.
Qed.

(** *** Step 2: the free edges *)

Lemma elem_of_free_edges_of (m : gmap Edge (list Z)) (e : Edge) :
  e ∈ free_edges_of m <-> length (default [] (m !! e)) = 1%nat.
Proof.
  unfold free_edges_of.
  apply (map_fold_weak_ind
    (fun (acc : gset Edge) (m : gmap Edge (list Z)) =>
       e ∈ acc <-> length (default [] (m !! e)) = 1%nat)).
  - rewrite lookup_empty. simpl. set_solver.
  - intros e' fs m' acc Hnone IH.
    destruct (decide (e' = e)) as [->|Hne].
    + rewrite lookup_insert_eq. rewrite Hnone in IH. simpl in *.
      case_bool_decide; [set_solver|].
      split; [|done]. intros He. apply IH in He. lia.
    + rewrite lookup_insert_ne by done.
      case_bool_decide; [|done]. set_solver.
Qed.

Lemma free_edges_once faces :
  elements (free_edges_of (collect_edges 0 faces ∅)) ≡ₚ once (mesh_edges faces).
Proof.
  apply NoDup_Permutation; [apply NoDup_elements | apply once_NoDup|].
  intros e. rewrite elem_of_elements, elem_of_free_edges_of, elem_of_once.
  rewrite collect_edges_lookup, lookup_empty. simpl. done.
Qed.

(** *** Step 3: the free edges at a vertex *)

Lemma vertex_incr_lookup v v' (m : gmap Z Z) :
  default 0 (incr v' m !! v)
  = (if decide (v' = v) then 1 else 0) + default 0 (m !! v).
Proof.
  unfold incr. case_decide as E; [subst v'|].
  - rewrite lookup_insert_eq. simpl. lia.
  - rewrite lookup_insert_ne by done. lia.
Qed.

Lemma vertex_incr_positive v' (m : gmap Z Z) :
  map_Forall (fun _ n => 1 <= n) m ->
  map_Forall (fun _ n => 1 <= n) (incr v' m).
Proof.
  intros Hm. unfold incr. apply map_Forall_insert_2; [|done].
  destruct (m !! v') as [n|] eqn:E; simpl; [|lia].
  specialize (Hm _ _ E). simpl in Hm. lia.
Qed.

Lemma count_free_edges_lookup (free : gset Edge) v :
  default 0 (count_free_edges free !! v) = ends_at v (elements free).
Proof.
  unfold count_free_edges.
  apply (set_fold_ind_L
    (fun (count : gmap Z Z) (X : gset Edge) =>
       default 0 (count !! v) = ends_at v (elements X))).
  - rewrite lookup_empty, elements_empty. done.
  - intros e X count He IH.
    rewrite (ends_at_perm v _ _ (elements_union_singleton X e He)).
    rewrite ends_at_cons, !vertex_incr_lookup, IH.
    repeat case_decide; lia.
Qed.

Lemma count_free_edges_positive (free : gset Edge) :
  map_Forall (fun _ n => 1 <= n) (count_free_edges free).
Proof.
  unfold count_free_edges.
  apply (set_fold_ind_L
    (fun (count : gmap Z Z) (X : gset Edge) =>
       map_Forall (fun _ n => 1 <= n) count)).
  - apply map_Forall_empty.
  - intros e X count _ IH. by do 2 apply vertex_incr_positive.
Qed.

(** X20. The vertices reported are exactly those at which the free edges
    of the mesh have four ends or more, a free edge being an edge that
    occurs once among the edges of all faces; every such vertex is given
    once.  The coordinates and the tolerance are not read. *)
Theorem non_manifold_vertices_have_four_free_edge_ends
    vertices faces tolerance :
  6 * Z.of_nat (length faces) < 2 ^ 31 ->
  NoDup (detect_non_manifold_vertices_with_timing vertices faces tolerance)
  /\ forall v,
       v ∈ detect_non_manifold_vertices_with_timing vertices faces tolerance
       <-> 4 <= ends_at v (once (mesh_edges faces)).
Proof.
  intros _. unfold detect_non_manifold_vertices_with_timing.
  set (count := count_free_edges (free_edges_of (collect_edges 0 faces ∅))).
  destruct (map_fold_select (fun n => 4 <= n) count) as [Hnd Hin].
  split; [done|]. intros v. rewrite Hin.
  rewrite <- (ends_at_perm v _ _ (free_edges_once faces)).
  rewrite <- count_free_edges_lookup. fold count.
  destruct (count !! v) as [n|]; simpl.
  - split; [by intros (? & [= <-] & ?) | by exists n].
  - split; [by intros (? & ? & _) | lia].
Qed.

Lemma non_manifold_vertices_have_four_free_edge_ends_witness :
  NoDup (detect_non_manifold_vertices_with_timing []
           [ (0, 1, 2); (0, 3, 4); (0, 5, 6); (0, 7, 8) ] (lit 0.5))
  /\ forall v,
       v ∈ detect_non_manifold_vertices_with_timing []
             [ (0, 1, 2); (0, 3, 4); (0, 5, 6); (0, 7, 8) ] (lit 0.5)
       <-> 4 <= ends_at v (once (mesh_edges
                  [ (0, 1, 2); (0, 3, 4); (0, 5, 6); (0, 7, 8) ])).
Proof.
  apply non_manifold_vertices_have_four_free_edge_ends. simpl. lia.
Defined.

(** X19. The two detectors agree on what a free edge is: on a triangle
    mesh, the edges given by the free-edge detector are the free edges the
    non-manifold detector counts at the vertices. *)
Theorem the_detectors_agree_on_free_edges (faces : list Face) :
  3 * Z.of_nat (length faces) < 2 ^ 31 ->
  list_to_set (FreeEdges.detect_free_edges_with_timing (as_list <$> faces))
  = free_edges_of (collect_edges 0 faces ∅).
Proof.
  intros _. apply set_eq. intros e.
  rewrite elem_of_list_to_set. unfold FreeEdges.detect_free_edges_with_timing.
  rewrite (proj2 (FreeEdgeFacts.detect_free_edges_spec _)).
  rewrite elem_of_free_edges_of, collect_edges_lookup, lookup_empty.
  replace ((as_list <$> faces) ≫= FreeEdges.face_edges)
    with (mesh_edges faces); [done|].
  unfold mesh_edges. induction faces as [|[[a b] c] faces IH]; [done|].
  rewrite fmap_cons, !bind_cons, IH. done.
Qed.

Lemma the_detectors_agree_on_free_edges_witness :
  list_to_set (FreeEdges.detect_free_edges_with_timing
                 (as_list <$> [ (0, 1, 2); (2, 1, 3) ]))
  = free_edges_of (collect_edges 0 [ (0, 1, 2); (2, 1, 3) ] ∅).
Proof. apply the_detectors_agree_on_free_edges. simpl. lia. Defined.

End FanFacts.

(** ** Overlapping edges *)

Module TallyFacts.
Import Overlap Basics OverlapFacts Tally.

Lemma held_cons entry edge_map :
  held (entry :: edge_map) = (length entry.2 + held edge_map)%nat.
Proof. reflexivity. Qed.

Lemma held_app edge_map edge_map' :
  held (edge_map ++ edge_map') = (held edge_map + held edge_map')%nat.
Proof.
  unfold held. rewrite fmap_app.
  induction ((fun entry => length entry.2) <$> edge_map) as [|n l IH];
    simpl; [done | lia].
Qed.

Lemma held_alter edge_map n entry ab :
  edge_map !! n = Some entry ->
  held (alter (fun entry => (entry.1, entry.2 ++ [ab])) n edge_map)
  = S (held edge_map).
Proof.
  revert n. induction edge_map as [|e rest IH]; intros [|n]; try done.
  - intros [= ->]. cbn [alter list_alter]. rewrite !held_cons. cbn [snd].
    rewrite length_app. simpl. lia.
  - intros He. cbn [alter list_alter]. rewrite !held_cons.
    change (list_alter ?f n rest) with (alter f n rest).
    rewrite (IH _ He). lia.
Qed.

Lemma held_push_back chain edge_map key ab :
  held (push_back chain edge_map key ab) = S (held edge_map).
Proof.
  unfold push_back. destruct (slot_of chain edge_map key) as [n|] eqn:Es.
  - apply slot_of_Some in Es as (_ & entry & He & _).
    by eapply held_alter.
  - rewrite held_app. unfold held at 2. simpl. lia.
Qed.

Lemma held_collect chain keyed_edges :
  forall edge_map,
    held (collect chain edge_map keyed_edges)
    = (held edge_map + length keyed_edges)%nat.
Proof.
  unfold collect.
  induction keyed_edges as [|[key ab] rest IH]; intros edge_map; simpl.
  - lia.
  - rewrite IH, held_push_back. lia.
Qed.

Lemma held_walk chain edge_map :
  lawful chain -> held (walk chain edge_map) = held edge_map.
Proof.
  intros Hc. unfold held. by rewrite (walk_all chain edge_map Hc).
Qed.

Lemma pairs_push_back chain edge_map key ab (P : Z * Z -> Prop) :
  P ab ->
  Forall (fun entry => Forall P entry.2) edge_map ->
  Forall (fun entry => Forall P entry.2) (push_back chain edge_map key ab).
Proof.
  intros Hab Hm. unfold push_back.
  destruct (slot_of chain edge_map key) as [n|].
  - apply Forall_alter; [done|]. intros entry _ He. cbn [snd].
    apply Forall_app. split; [done|]. by repeat constructor.
  - apply Forall_app. split; [done|]. by repeat constructor.
Qed.

Lemma pairs_collect chain keyed_edges (P : Z * Z -> Prop) :
  Forall P keyed_edges.*2 ->
  forall edge_map,
    Forall (fun entry => Forall P entry.2) edge_map ->
    Forall (fun entry => Forall P entry.2) (collect chain edge_map keyed_edges).
Proof.
  unfold collect.
  induction keyed_edges as [|[key ab] rest IH]; intros HP edge_map Hm; simpl.
  - done.
  - apply Forall_cons in HP as [Hab HP]. apply IH; [done|].
    by apply pairs_push_back.
Qed.

Lemma representatives_bound edge_map :
  (3 * length (omap representative edge_map) <= held edge_map)%nat.
Proof.
  induction edge_map as [|entry rest IH]; [simpl; lia|].
  rewrite held_cons. cbn [omap list_omap].
  unfold representative at 1. case_bool_decide as Hlen.
  - destruct (entry.2) as [|p ps]; simpl in *; lia.
  - lia.
Qed.

Lemma representatives_held edge_map (P : Z * Z -> Prop) :
  Forall (fun entry => Forall P entry.2) edge_map ->
  Forall P (omap representative edge_map).
Proof.
  induction 1 as [|entry rest He _ IH]; simpl; [constructor|].
  unfold representative at 1. case_bool_decide; [|done].
  destruct (entry.2) as [|p ps]; simpl; [done|].
  constructor; [|done]. by apply Forall_cons in He as [? _].
Qed.

(** X21. Every edge reported is an edge of some face, given as that face
    lists it, and there are at most as many reported edges as faces: an
    entry is reported for three incidences at least, and a face brings
    three incidences.  This holds whatever the order of the chain. *)
Theorem overlapping_edges_are_edges_of_faces
    chain vertices faces tolerance :
  lawful chain ->
  valid_mesh faces vertices = true ->
  exists out,
    detect_overlapping_edges_with_timing chain vertices faces tolerance
    = Some out
    /\ (length out <= length faces)%nat
    /\ forall ab, ab ∈ out -> ab ∈ incidences faces.
Proof.
  intros Hc Hv. destruct (keyed_is_Some _ _ Hv) as [keyed_edges Hk].
  unfold detect_overlapping_edges_with_timing. rewrite Hk. simpl.
  eexists. split; [done|].
  pose proof (keyed_snd _ _ _ Hk) as Hsnd. split.
  - pose proof (representatives_bound
                  (walk chain (collect chain [] keyed_edges))) as Hb.
    rewrite (held_walk _ _ Hc), held_collect in Hb.
    change (held []) with 0%nat in Hb.
    assert (length keyed_edges = (3 * length faces)%nat) as Hlen.
    { by rewrite <- (length_fmap snd), Hsnd, length_incidences. }
    lia.
  - apply Forall_forall. apply representatives_held.
    apply Forall_forall. intros entry Hin%elem_of_walk. revert entry Hin.
    apply Forall_forall.
    apply pairs_collect; [|constructor].
    rewrite Hsnd. by apply Forall_forall.
Qed.

Lemma overlapping_edges_are_edges_of_faces_witness :
  exists out,
    detect_overlapping_edges_with_timing newest_first
      Inputs.doubled_edge_vertices Inputs.doubled_edge_faces (lit 1e-5)
    = Some out
    /\ (length out <= length Inputs.doubled_edge_faces)%nat
    /\ forall ab, ab ∈ out -> ab ∈ incidences Inputs.doubled_edge_faces.
Proof.
  apply overlapping_edges_are_edges_of_faces.
  - exact newest_first_lawful.
  - vm_compute. reflexivity.
Defined.

End TallyFacts.

(** ** The keys of reported edges *)

Module KeyFacts.
Import Overlap Basics OverlapFacts Finite Bounded Entries.

Lemma near_is_finite (a b : double) :
  (dabs (a - b) <? tol5)%D = true -> is_finite b = true.
Proof. by destruct a as [[]|[]| |? ? ?], b as [[]|[]| |? ? ?]. Qed.

Lemma key_eq_finite k other :
  key_eq k other = true ->
  is_finite other.(x1) = true /\ is_finite other.(y1) = true
  /\ is_finite other.(z1) = true /\ is_finite other.(x2) = true
  /\ is_finite other.(y2) = true /\ is_finite other.(z2) = true.
Proof.
  unfold key_eq. rewrite !andb_true_iff.
  intros [[[[[H1 H2] H3] H4] H5] H6].
  repeat split; eapply near_is_finite; eassumption.
Qed.

Lemma sorted_ends_finite (a b : double) :
  is_finite (dmin a b) = true -> is_finite (dmax a b) = true ->
  is_finite a = true /\ not_infinite b = true.
Proof. by destruct a as [[]|[]| |? ? ?], b as [[]|[]| |? ? ?]. Qed.

Lemma entry_ok_push_back chain vertices edge_map key ab :
  keyed vertices ab = Some (key, ab) ->
  Forall (entry_ok vertices) edge_map ->
  Forall (entry_ok vertices) (push_back chain edge_map key ab).
Proof.
  intros Hk Hm. unfold push_back.
  destruct (slot_of chain edge_map key) as [n|] eqn:Es.
  - apply slot_of_Some in Es as (_ & entry & He & Hf).
    apply Forall_alter; [done|]. intros entry' He' Hok. simplify_eq.
    destruct Hok as (ab0 & r & E & Hk0 & _).
    exists ab0, (r ++ [ab]). cbn [fst snd]. rewrite E.
    repeat split; [done|]. intros _. exists key.
    unfold finds in Hf. by apply andb_true_iff in Hf as [_ Hf].
  - apply Forall_app. split; [done|]. constructor; [|constructor].
    exists ab, []. by repeat split.
Qed.

Lemma entry_ok_collect chain vertices keyed_edges :
  Forall (fun ke => keyed vertices ke.2 = Some ke) keyed_edges ->
  forall edge_map,
    Forall (entry_ok vertices) edge_map ->
    Forall (entry_ok vertices) (collect chain edge_map keyed_edges).
Proof.
  unfold collect.
  induction keyed_edges as [|[key ab] rest IH]; intros Hk edge_map Hm;
    cbn [foldl]; [done|].
  apply Forall_cons in Hk as [Hab Hk]. apply IH; [done|].
  by apply entry_ok_push_back.
Qed.

Lemma keyed_own vertices edges keyed_edges :
  mapM (keyed vertices) edges = Some keyed_edges ->
  Forall (fun ke => keyed vertices ke.2 = Some ke) keyed_edges.
Proof.
  intros H%mapM_Some. induction H as [|ab ke edges kes Hk _ IH]; [done|].
  constructor; [|done]. pose proof Hk as Hk'. unfold keyed in Hk'.
  destruct (at_ vertices ab.1) as [[[? ?] ?]|]; simpl in Hk'; [|done].
  destruct (at_ vertices ab.2) as [[[? ?] ?]|]; simpl in Hk'; [|done].
  injection Hk' as <-. exact Hk.
Qed.

(** X23. An edge is reported only when its first vertex has three finite
    coordinates and its second vertex no infinite one: the key of an
    entry that received a second pair compares equal to another key,
    which no key with an infinity or a NaN does.  This holds whatever
    the order of the chain. *)
Theorem reported_edges_have_finite_keys
    chain vertices faces tolerance out c d :
  detect_overlapping_edges_with_timing chain vertices faces tolerance
  = Some out ->
  (c, d) ∈ out ->
  exists rc rd,
    at_ vertices c = Some rc /\ at_ vertices d = Some rd
    /\ finite_row rc = true /\ no_infinity rd = true.
Proof.
  unfold detect_overlapping_edges_with_timing.
  destruct (mapM _ _) as [keyed_edges|] eqn:Hk; simpl; [|done].
  intros [= <-] Hin.
  apply list_elem_of_omap in Hin as (entry & Hentry%elem_of_walk & Hrep).
  pose proof (entry_ok_collect chain vertices keyed_edges
                (keyed_own _ _ _ Hk) [] (Forall_nil_2 _)) as Hok.
  rewrite Forall_forall in Hok.
  destruct (Hok _ Hentry) as (ab & rest & E & Hkey & Hsecond).
  unfold representative in Hrep. rewrite E in Hrep.
  case_bool_decide as Hlen; [|done]. simpl in Hrep. injection Hrep as ->.
  destruct Hsecond as [k Heq]; [intros ->; simpl in Hlen; lia|].
  apply key_eq_finite in Heq as (F1 & F2 & F3 & F4 & F5 & F6).
  unfold keyed in Hkey. simpl in Hkey.
  destruct (at_ vertices c) as [[[cx cy] cz]|]; simpl in Hkey; [|done].
  destruct (at_ vertices d) as [[[dx dy] dz]|]; simpl in Hkey; [|done].
  injection Hkey as Hkey. rewrite <- Hkey in F1, F2, F3, F4, F5, F6.
  unfold make_key in *. cbn [x1 y1 z1 x2 y2 z2] in *.
  destruct (sorted_ends_finite _ _ F1 F4) as [Cx Dx].
  destruct (sorted_ends_finite _ _ F2 F5) as [Cy Dy].
  destruct (sorted_ends_finite _ _ F3 F6) as [Cz Dz].
  exists (cx, cy, cz), (dx, dy, dz). do 2 (split; [done|]).
  unfold finite_row, no_infinity. by rewrite Cx, Cy, Cz, Dx, Dy, Dz.
Qed.

Lemma reported_edges_have_finite_keys_witness :
  exists rc rd,
    at_ Inputs.doubled_edge_vertices 0 = Some rc
    /\ at_ Inputs.doubled_edge_vertices 1 = Some rd
    /\ finite_row rc = true /\ no_infinity rd = true.
Proof.
  apply (reported_edges_have_finite_keys newest_first
           Inputs.doubled_edge_vertices Inputs.doubled_edge_faces (lit 1e-5)
           [(0, 1)]).
  - vm_compute. reflexivity.
  - apply list_elem_of_here.
Defined.

End KeyFacts.

(** ** An edge and its reverse *)

Module ReverseFacts.
Import Overlap Basics OverlapFacts Numbers FloatOrder Alike AlikeFacts.

Lemma alike_rounds a b :
  alike a b -> llround (a * scale)%D = llround (b * scale)%D.
Proof. intros [->|(s & t & -> & ->)]; [done|]. by destruct s, t. Qed.

Lemma alike_near a b c :
  alike a b -> (dabs (a - c) <? tol5)%D = (dabs (b - c) <? tol5)%D.
Proof.
  intros [->|(s & t & -> & ->)]; [done|].
  by destruct s, t, c as [[]|[]| |? ? ?].
Qed.

Lemma alike_keys k k' :
  alike k.(x1) k'.(x1) -> alike k.(y1) k'.(y1) -> alike k.(z1) k'.(z1) ->
  alike k.(x2) k'.(x2) -> alike k.(y2) k'.(y2) -> alike k.(z2) k'.(z2) ->
  hash k = hash k' /\ forall other, key_eq k other = key_eq k' other.
Proof.
  intros H1 H2 H3 H4 H5 H6. split.
  - unfold hash.
    by rewrite (alike_rounds _ _ H1), (alike_rounds _ _ H2),
      (alike_rounds _ _ H3), (alike_rounds _ _ H4), (alike_rounds _ _ H5),
      (alike_rounds _ _ H6).
  - intros other. unfold key_eq.
    by rewrite (alike_near _ _ _ H1), (alike_near _ _ _ H2),
      (alike_near _ _ _ H3), (alike_near _ _ _ H4), (alike_near _ _ _ H5),
      (alike_near _ _ _ H6).
Qed.

Lemma same_finds k k' :
  hash k = hash k' -> (forall other, key_eq k other = key_eq k' other) ->
  forall chain edge_map, slot_of chain edge_map k = slot_of chain edge_map k'.
Proof.
  intros Hh He chain edge_map. unfold slot_of.
  induction (chain edge_map.*1) as [|n rest IH]; [done|].
  cbn [scan]. destruct (edge_map !! n) as [entry|]; [|done].
  unfold finds. by rewrite Hh, He, IH.
Qed.

(** X24. Where no coordinate of the two vertices is a NaN, an edge and its
    reverse have keys with the same hash code that compare equal to the
    same keys, so both find the same entry of every edge map, whatever
    the order of the chain: the direction in which a face lists an edge
    does not matter. *)
Theorem an_edge_and_its_reverse_find_the_same_entry vertices a b ra rb :
  at_ vertices a = Some ra -> at_ vertices b = Some rb ->
  no_nan_row ra = true -> no_nan_row rb = true ->
  exists kab kba,
    keyed vertices (a, b) = Some (kab, (a, b))
    /\ keyed vertices (b, a) = Some (kba, (b, a))
    /\ hash kab = hash kba
    /\ (forall other, key_eq kab other = key_eq kba other)
    /\ forall chain edge_map,
         slot_of chain edge_map kab = slot_of chain edge_map kba.
Proof.
  intros Ha Hb Na Nb. unfold keyed. cbn [fst snd]. rewrite Ha, Hb.
  destruct ra as [[ax ay] az], rb as [[bx b_y] bz]. simpl.
  unfold no_nan_row in Na, Nb.
  rewrite !andb_true_iff, !negb_true_iff in Na, Nb.
  destruct Na as [[Nax Nay] Naz], Nb as [[Nbx Nby] Nbz].
  eexists _, _. do 2 (split; [reflexivity|]).
  destruct (alike_keys (make_key ax ay az bx b_y bz)
                       (make_key bx b_y bz ax ay az)) as [Hh He];
    try (by apply dmin_alike); try (by apply dmax_alike).
  split; [done|]. split; [done|]. by apply same_finds.
Qed.

Lemma an_edge_and_its_reverse_find_the_same_entry_witness :
  exists kab kba,
    keyed Inputs.doubled_edge_vertices (0, 1) = Some (kab, (0, 1))
    /\ keyed Inputs.doubled_edge_vertices (1, 0) = Some (kba, (1, 0))
    /\ hash kab = hash kba
    /\ (forall other, key_eq kab other = key_eq kba other)
    /\ forall chain edge_map,
         slot_of chain edge_map kab = slot_of chain edge_map kba.
Proof.
  eapply (an_edge_and_its_reverse_find_the_same_entry
            Inputs.doubled_edge_vertices 0 1); vm_compute; reflexivity.
Defined.

End ReverseFacts.
